(** * RAG-Application: ingestion and retrieval pipeline

    A shallow embedding of the TypeScript sources of the pipeline
    (chunker, deduplication cache, embedding batch manager, retriever,
    reranker adapter, answer synthesizer, job orchestrator) together with
    the properties stated about them.

    Conventions of the embedding:
    - a JavaScript string is a [string] (one [ascii] per code unit);
    - array indices, counters and lengths are [nat]; an index that may be
      [-1] is an [option nat];
    - a [number] holding a time stamp in milliseconds is a [Z];
    - a [number] holding a score is a [Q], for the finite values of a
      double; where the code can compute [NaN] from finite values (the
      cosine similarity of a vector of norm 0) the number is a
      [Retriever.Double], and the [-Infinity] that starts a maximum
      search is the [None] of an [option Q];
    - a [Map] is a [gmap] when only lookups matter and an association
      list when the insertion order is observed;
    - a call to an external service is a field of a type class; a call
      that throws returns [None] (or [inl msg]). *)

From Stdlib Require Import ZArith QArith Qminmax Lqa Ascii String List Lia
  Permutation Sorted.
From Stdlib Require DecimalString DecimalNat.
From stdpp Require Import base option list strings gmap.

Local Open Scope nat_scope.

(** ** JavaScript helpers *)

Module JS.

(** [a || b] on an optional string: [undefined] and [""] are falsy. *)
Definition or_string (a : option string) (b : string) : string :=
  match a with
  | Some s => if decide (s = ""%string) then b else s
  | None => b
  end.

(** [a || b] on an optional number: [undefined] and [0] are falsy. *)
Definition or_nat (a : option nat) (b : nat) : nat :=
  match a with
  | Some (S n) => S n
  | _ => b
  end.

(** [arr.slice(i, j)] for [0 <= i], [0 <= j]. *)
Definition slice {A} (i j : nat) (l : list A) : list A :=
  take (j - i) (drop i l).

(** The line terminators and white space that [String.prototype.trim]
    removes, restricted to one-byte code units. *)
Definition is_space (c : ascii) : bool :=
  let n := nat_of_ascii c in
  ((n =? 9) || (n =? 10) || (n =? 11) || (n =? 12) || (n =? 13) || (n =? 32)
   || (n =? 160))%nat.

Fixpoint trim_start (s : string) : string :=
  match s with
  | String c r => if is_space c then trim_start r else s
  | EmptyString => EmptyString
  end.

Fixpoint rev_string_aux (s acc : string) : string :=
  match s with
  | String c r => rev_string_aux r (String c acc)
  | EmptyString => acc
  end.

Definition rev_string (s : string) : string := rev_string_aux s "".

Definition trim (s : string) : string :=
  rev_string (trim_start (rev_string (trim_start s))).

(** [s.slice(i, j)] on a string. *)
Definition str_slice (i j : nat) (s : string) : string :=
  String.substring i (j - i) s.

(** [s.replace(/\n/g, ' ')]. *)
Fixpoint newlines_to_spaces (s : string) : string :=
  match s with
  | String c r =>
      String (if Ascii.eqb c "010"%char then " "%char else c)
             (newlines_to_spaces r)
  | EmptyString => EmptyString
  end.

(** [s.lastIndexOf(sep, from)]: the largest [k <= from] at which [sep]
    occurs in [s], searched downwards. *)
Fixpoint lastIndexOf_from (sep s : string) (k : nat) : option nat :=
  if String.prefix sep (String.substring k (String.length s - k) s)
     && (k + String.length sep <=? String.length s)%nat
  then Some k
  else match k with
       | 0 => None
       | S k' => lastIndexOf_from sep s k'
       end.

Definition lastIndexOf (sep s : string) (from : nat) : option nat :=
  if (String.length s <? String.length sep)%nat then None
  else lastIndexOf_from sep s (Nat.min from (String.length s - String.length sep)).

(** Decimal rendering of a number inside a template literal. *)
Fixpoint digits_aux (fuel n : nat) (acc : string) : string :=
  match fuel with
  | 0 => acc
  | S f =>
      let d := String (ascii_of_nat (48 + n mod 10)) acc in
      if (n / 10 =? 0)%nat then d else digits_aux f (n / 10) d
  end.

Definition number_to_string (n : nat) : string := digits_aux (S n) n "".

End JS.

(** ** Data model (types.ts) *)

Definition Embedding := list Q.

Record ChunkMetadata := {
  source : string;
  title : string;
  section : option string;
  position : nat;
  chunkIndex : nat;
  totalChunks : nat;
  documentId : string;
  timestamp : string;
  fileType : string;
  tokens : nat
}.

Record DocumentChunk := {
  id : string;
  content : string;
  metadata : ChunkMetadata;
  embedding : option Embedding
}.

Record RetrievalResult := {
  chunk : DocumentChunk;
  score : Q;
  rerankedScore : option Q
}.

Record UploadedFile := {
  name : string;
  size : nat;
  type : string;
  file_content : string;
  lastModified : Z;
  contentHash : option string
}.

Record Citation := {
  cit_id : nat;
  cit_text : string;
  cit_source : string;
  cit_section : option string;
  cit_position : nat
}.

Record SourceDocument := {
  src_id : string;
  src_title : string;
  src_source : string;
  relevantChunks : list nat;
  src_fileType : string
}.

(** [{ ...chunk, embedding: e }] *)
Definition with_embedding (c : DocumentChunk) (e : Embedding) : DocumentChunk :=
  {| id := id c; content := content c; metadata := metadata c;
     embedding := Some e |}.

(** ** Embedding batch manager (embeddingsOptimized.ts) *)

(** The embedding provider: the outcome of [model.embedContent] for a text
    at a given attempt number; [None] is a call that throws or returns no
    values. *)
Class EmbeddingProvider := {
  embedContent : string -> nat -> option Embedding
}.

Record EmbeddingConfig := {
  batchSize : nat;
  parallelBatches : nat;
  maxRetries : nat
}.

Module Embeddings.

Record Batch := { texts : list string; indices : list nat }.

Section Service.
Context {EP : EmbeddingProvider}.
Variable cfg : EmbeddingConfig.

(** [generateEmbedding(text, retryCount)]: [remaining] counts the retries
    still allowed, [maxRetries - retryCount]. *)
Fixpoint generateEmbedding_retry (remaining : nat) (text : string)
    (retryCount : nat) : option Embedding :=
  match embedContent (JS.newlines_to_spaces text) retryCount with
  | Some e => Some e
  | None =>
      match remaining with
      | 0 => None
      | S r => generateEmbedding_retry r text (retryCount + 1)
      end
  end.

Definition generateEmbedding (text : string) : option Embedding :=
  generateEmbedding_retry (maxRetries cfg) text 0.

(** The loop [for (i = 0; i < texts.length; i += batchSize)]. *)
Fixpoint splitBatches (fuel : nat) (all : list string) (i : nat)
    : option (list Batch) :=
  if (i <? length all)%nat then
    match fuel with
    | 0 => None
    | S f =>
        let batchTexts := JS.slice i (i + batchSize cfg) all in
        let batchIndices := (fun idx => i + idx) <$> seq 0 (length batchTexts) in
        cons {| texts := batchTexts; indices := batchIndices |}
          <$> splitBatches f all (i + batchSize cfg)
    end
  else Some [].

(** [processBatch]: every item settles to [{ index, embedding }], then the
    fulfilled ones with an embedding are stored at their index. *)
Definition settleBatch (b : Batch) : list (nat * option Embedding) :=
  imap (fun idx text => (nth idx (indices b) 0, generateEmbedding text)) (texts b).

Definition storeResult (embeddings : list (option Embedding))
    (r : nat * option Embedding) : list (option Embedding) :=
  match r.2 with
  | Some e => <[r.1 := Some e]> embeddings
  | None => embeddings
  end.

Definition processBatch (embeddings : list (option Embedding)) (b : Batch)
    : list (option Embedding) :=
  foldl storeResult embeddings (settleBatch b).

(** The loop over batch groups, [for (i = 0; i < batches.length;
    i += parallelBatches)].  The batches of a group write to disjoint
    indices, so the group is run in list order. *)
Fixpoint processGroups (fuel : nat) (batches : list Batch) (i : nat)
    (embeddings : list (option Embedding)) : option (list (option Embedding)) :=
  if (i <? length batches)%nat then
    match fuel with
    | 0 => None
    | S f =>
        let group := JS.slice i (i + parallelBatches cfg) batches in
        processGroups f batches (i + parallelBatches cfg)
          (foldl processBatch embeddings group)
    end
  else Some embeddings.

Record EmbeddingsRun := {
  successfulEmbeddings : list Embedding;
  failedIndices : list nat
}.

(** The final [embeddings.forEach]. *)
Definition collect (embeddings : list (option Embedding)) : EmbeddingsRun :=
  {| successfulEmbeddings := omap (fun e => e) embeddings;
     failedIndices :=
       omap (fun p => match p.2 with Some _ => None | None => Some p.1 end)
            (imap (fun i e => (i, e)) embeddings) |}.

(** [generateEmbeddings(texts)]; [None] when a loop does not end within
    the fuel (a batch size or a group size of [0]).  The function returns
    [successfulEmbeddings]; [failedIndices] is what it writes to the log.
    The progress callback, which only receives counts, and the delays
    between batches are left out. *)
Definition generateEmbeddings_run (fuel : nat) (all : list string)
    : option EmbeddingsRun :=
  match all with
  | [] => Some {| successfulEmbeddings := []; failedIndices := [] |}
  | _ =>
      batches ← splitBatches fuel all 0;
      embeddings ← processGroups fuel batches 0 (replicate (length all) None);
      Some (collect embeddings)
  end.

Definition generateEmbeddings (fuel : nat) (all : list string)
    : option (list Embedding) :=
  successfulEmbeddings <$> generateEmbeddings_run fuel all.

(** The pairing loop of [generateChunkEmbeddings]: state is
    [(successfulChunks, embeddingIndex)]. *)
Definition pairStep (embeddings : list Embedding)
    (st : list DocumentChunk * nat) (c : DocumentChunk)
    : list DocumentChunk * nat :=
  let '(successfulChunks, embeddingIndex) := st in
  match embeddings !! embeddingIndex with
  | Some e => (successfulChunks ++ [with_embedding c e], embeddingIndex + 1)
  | None => (successfulChunks, embeddingIndex)
  end.

Definition generateChunkEmbeddings (fuel : nat) (chunks : list DocumentChunk)
    : option (list DocumentChunk) :=
  match chunks with
  | [] => Some []
  | _ =>
      embeddings ← generateEmbeddings fuel (content <$> chunks);
      Some (foldl (pairStep embeddings) ([], 0) chunks).1
  end.

(** [this.dimensions], from [config.embeddings.dimensions]. *)
Variable dimensions : nat.

(** [new Array(this.dimensions).fill(0)] *)
Definition zeroVector : Embedding := replicate dimensions 0%Q.

Record FallbackRun := {
  fb_embeddings : list Embedding;
  fb_failedIndices : list nat
}.

(** The loop of the [try] block of [generateEmbeddingsWithFallback],
    [for (let i = 0; i < texts.length; i++)]: state is
    [({ embeddings, failedIndices }, successIndex)]. *)
Definition identifyStep (batchEmbeddings : list Embedding)
    (st : FallbackRun * nat) (i : nat) : FallbackRun * nat :=
  let '(run, successIndex) := st in
  match batchEmbeddings !! successIndex with
  | Some e =>
      ({| fb_embeddings := fb_embeddings run ++ [e];
          fb_failedIndices := fb_failedIndices run |}, successIndex + 1)
  | None =>
      ({| fb_embeddings := fb_embeddings run ++ [zeroVector];
          fb_failedIndices := fb_failedIndices run ++ [i] |}, successIndex)
  end.

(** The loop of the [catch] block: one call of [generateEmbedding] per
    text, a zero vector where the call throws. *)
Definition individualStep (run : FallbackRun) (item : nat * string)
    : FallbackRun :=
  match generateEmbedding item.2 with
  | Some e =>
      {| fb_embeddings := fb_embeddings run ++ [e];
         fb_failedIndices := fb_failedIndices run |}
  | None =>
      {| fb_embeddings := fb_embeddings run ++ [zeroVector];
         fb_failedIndices := fb_failedIndices run ++ [item.1] |}
  end.

Definition individualFallback (all : list string) : FallbackRun :=
  foldl individualStep {| fb_embeddings := []; fb_failedIndices := [] |}
    (imap (fun i text => (i, text)) all).

(** [generateEmbeddingsWithFallback(texts)].  Every failure inside
    [generateEmbeddings] is caught per text, so the awaited call only
    rejects when the progress callback throws; without one the [catch]
    block, [individualFallback], is not entered. *)
Definition generateEmbeddingsWithFallback (fuel : nat) (all : list string)
    : option FallbackRun :=
  batchEmbeddings ← generateEmbeddings fuel all;
  if length batchEmbeddings =? length all
  then Some {| fb_embeddings := batchEmbeddings; fb_failedIndices := [] |}
  else
    Some (foldl (identifyStep batchEmbeddings)
            ({| fb_embeddings := []; fb_failedIndices := [] |}, 0)
            (seq 0 (length all))).1.

End Service.
End Embeddings.

(** ** Chunker (textProcessorOptimized.ts) *)

Record ChunkingConfig := {
  chunkSize : nat;
  chunkOverlap : nat;
  separators : list string;
  maxChunksPerDocument : nat;
  minChunkLength : nat
}.

Definition newline : string := String "010"%char EmptyString.

(** [config.chunking] of config.ts. *)
Definition config_chunking : ChunkingConfig :=
  {| chunkSize := 300;
     chunkOverlap := 30;
     separators :=
       [newline +:+ newline; newline; ". "; "! "; "? "; "; "; ", "; " "; ""]%string;
     maxChunksPerDocument := 500;
     minChunkLength := 30 |}.

(** [countTokens]: the subword tokenizer, or the approximation the class
    falls back to when the tokenizer cannot be created. *)
Class Tokenizer := { countTokens : string -> nat }.

(** [uuidv4()]: the [n]-th identifier drawn by the process. *)
Class UuidSource := { uuidv4 : nat -> string }.

Record DocSection := {
  sec_title : string;
  sec_content : string;
  sec_position : nat
}.

(** The helpers of [TextProcessor] that are written with regular
    expressions; the chunking loop only consumes their results. *)
Class TextHelpers := {
  cleanText : string -> string;
  extractSections : string -> string -> list DocSection;
  extractTitle : string -> string;
  getFileType : string -> string
}.

Module Chunker.

(** The fallback of [countTokens]:
    [max(ceil(words * 1.3 + punctuation * 0.5), ceil(length / 4))]. *)
Fixpoint countWords (inWord : bool) (s : string) : nat :=
  match s with
  | EmptyString => 0
  | String c r =>
      if JS.is_space c then countWords false r
      else (if inWord then 0 else 1) + countWords true r
  end.

Definition double_quote : ascii := ascii_of_nat 34.

Definition is_punctuation (c : ascii) : bool :=
  existsb (Ascii.eqb c)
    ([","; "."; ";"; ":"; "!"; "?"; "("; ")"; "["; "]"; "{"; "}"; "'"; "`"]%char
     ++ [double_quote]).

Fixpoint countPunctuation (s : string) : nat :=
  match s with
  | EmptyString => 0
  | String c r => (if is_punctuation c then 1 else 0) + countPunctuation r
  end.

Definition ceil_div (a b : nat) : nat := (a + b - 1) / b.

Definition approximateTokens (text : string) : nat :=
  let words := countWords false text in
  let punctuation := countPunctuation text in
  Nat.max (ceil_div (13 * words + 5 * punctuation) 10)
          (ceil_div (String.length text) 4).

(** [tokensToChars(tokens) = Math.floor(tokens * 3.5)] *)
Definition tokensToChars (tokens : nat) : nat := (7 * tokens) / 2.

Record BaseMetadata := {
  base_source : string;
  base_title : string;
  base_section : string;
  base_documentId : string;
  base_timestamp : string;
  base_fileType : string;
  base_position : nat
}.

(** The separator loop of [findBestSplitPoint]; a separator that is not
    found has index [-1], which is never greater than [start]. *)
Fixpoint trySeparators (text : string) (start end_ : nat) (seps : list string)
    : option nat :=
  match seps with
  | [] => None
  | separator :: rest =>
      match JS.lastIndexOf separator text end_ with
      | Some lastIndex =>
          if (start <? lastIndex) && (lastIndex <? end_)
          then Some (lastIndex + String.length separator)
          else trySeparators text start end_ rest
      | None => trySeparators text start end_ rest
      end
  end.

Definition is_word_break (o : option ascii) : bool :=
  match o with
  | Some c => Ascii.eqb c " "%char || Ascii.eqb c "010"%char
  | None => false
  end.

(** [for (let i = end; i > start; i--)] *)
Fixpoint wordBoundary (text : string) (start i : nat) : option nat :=
  if start <? i then
    if is_word_break (String.get i text) then Some i
    else match i with
         | 0 => None
         | S i' => wordBoundary text start i'
         end
  else None.

Definition findBestSplitPoint (text : string) (start end_ : nat)
    (seps : list string) : nat :=
  let end_ := Nat.min end_ (String.length text) in
  match trySeparators text start end_ seps with
  | Some p => p
  | None =>
      match wordBoundary text start end_ with
      | Some i => i
      | None => end_
      end
  end.

Section Chunking.
Context {TK : Tokenizer} {US : UuidSource} {TH : TextHelpers}.
Variable cfg : ChunkingConfig.

(** The variables of the [while] loop of [createTokenBasedChunks];
    [uuids] counts the identifiers drawn so far. *)
Record LoopState := {
  chunks : list DocumentChunk;
  currentPosition : nat;
  loopIndex : nat;
  uuids : nat
}.

Definition newChunk (uuid : nat) (text : string) (tokenCount : nat)
    (base : BaseMetadata) (index : nat) : DocumentChunk :=
  {| id := uuidv4 uuid;
     content := text;
     metadata :=
       {| source := base_source base;
          title := base_title base;
          section := Some (base_section base);
          position := base_position base + index;
          chunkIndex := index;
          totalChunks := 0;
          documentId := base_documentId base;
          timestamp := base_timestamp base;
          fileType := base_fileType base;
          tokens := tokenCount |};
     embedding := None |}.

(** [addChunk] followed by the computation of the next window. *)
Definition accept (st : LoopState) (base : BaseMetadata) (text : string)
    (tokenCount chunkEnd : nat) : LoopState :=
  let overlapChars := tokensToChars (chunkOverlap cfg) in
  {| chunks :=
       chunks st ++ [newChunk (uuids st) text tokenCount base (loopIndex st)];
     currentPosition :=
       Nat.max (currentPosition st + 1) (chunkEnd - overlapChars);
     loopIndex := loopIndex st + 1;
     uuids := uuids st + 1 |}.

Definition skipTo (st : LoopState) (chunkEnd : nat) : LoopState :=
  {| chunks := chunks st;
     currentPosition := chunkEnd;
     loopIndex := loopIndex st;
     uuids := uuids st |}.

Definition loopCond (text : string) (st : LoopState) : bool :=
  (currentPosition st <? String.length text)
  && (length (chunks st) <? maxChunksPerDocument cfg).

(** One iteration of the [while] loop. *)
Definition loopBody (text : string) (base : BaseMetadata) (st : LoopState)
    : LoopState :=
  let start := currentPosition st in
  let estimatedEnd :=
    Nat.min (start + tokensToChars (chunkSize cfg)) (String.length text) in
  let chunkEnd := findBestSplitPoint text start estimatedEnd (separators cfg) in
  let chunkText := JS.trim (JS.str_slice start chunkEnd text) in
  if String.length chunkText =? 0 then skipTo st chunkEnd
  else
    let actualTokens := countTokens chunkText in
    if actualTokens <? minChunkLength cfg then skipTo st chunkEnd
    else if 3 * chunkSize cfg <? 2 * actualTokens then
      let adjustedEnd := start + tokensToChars (chunkSize cfg) in
      let chunkEnd' := findBestSplitPoint text start adjustedEnd (separators cfg) in
      let adjustedText := JS.trim (JS.str_slice start chunkEnd' text) in
      let adjustedTokens := countTokens adjustedText in
      if (minChunkLength cfg <=? adjustedTokens)
         && (0 <? String.length adjustedText)
      then accept st base adjustedText adjustedTokens chunkEnd'
      else accept st base chunkText actualTokens chunkEnd'
    else accept st base chunkText actualTokens chunkEnd.

Fixpoint runLoop (fuel : nat) (text : string) (base : BaseMetadata)
    (st : LoopState) : option LoopState :=
  if loopCond text st then
    match fuel with
    | 0 => None
    | S f => runLoop f text base (loopBody text base st)
    end
  else Some st.

Definition set_totalChunks (n : nat) (c : DocumentChunk) : DocumentChunk :=
  let m := metadata c in
  {| id := id c; content := content c;
     metadata :=
       {| source := source m; title := title m; section := section m;
          position := position m; chunkIndex := chunkIndex m;
          totalChunks := n; documentId := documentId m;
          timestamp := timestamp m; fileType := fileType m;
          tokens := tokens m |};
     embedding := embedding c |}.

(** [createTokenBasedChunks(text, baseMetadata, startingIndex)], with the
    number of identifiers drawn before and after the call; [None] when the
    loop has not ended within [fuel] iterations. *)
Definition createTokenBasedChunks (fuel : nat) (text : string)
    (base : BaseMetadata) (startingIndex uuid0 : nat)
    : option (list DocumentChunk * nat) :=
  st ← runLoop fuel text base
         {| chunks := []; currentPosition := 0;
            loopIndex := startingIndex; uuids := uuid0 |};
  Some (set_totalChunks (length (chunks st)) <$> chunks st, uuids st).

(** The [for (const section of sections)] loop of [processFile]: state is
    [(chunks, globalChunkIndex, identifiers drawn)]. *)
Fixpoint processSections (file : UploadedFile) (docId stamp : string)
    (sections : list DocSection) (acc : list DocumentChunk)
    (globalChunkIndex uuid : nat) : option (list DocumentChunk * nat) :=
  match sections with
  | [] => Some (acc, uuid)
  | sec :: rest =>
      let base :=
        {| base_source := name file;
           base_title := extractTitle (name file);
           base_section := sec_title sec;
           base_documentId := docId;
           base_timestamp := stamp;
           base_fileType := getFileType (name file);
           base_position := sec_position sec |} in
      '(sectionChunks, uuid') ←
        createTokenBasedChunks (S (String.length (sec_content sec)))
          (sec_content sec) base globalChunkIndex uuid;
      processSections file docId stamp rest (acc ++ sectionChunks)
        (globalChunkIndex + length sectionChunks) uuid'
  end.

(** [processFile(file)]; [now] is [new Date().toISOString()] and [uuid0]
    the number of identifiers drawn before the call. *)
Definition processFile (file : UploadedFile) (now : string) (uuid0 : nat)
    : option (list DocumentChunk * nat) :=
  let documentId := uuidv4 uuid0 in
  let content := cleanText (file_content file) in
  let sections := extractSections content (name file) in
  processSections file documentId now sections [] 0 (uuid0 + 1).

(** [processFiles(files)]: the loop [for (const file of files)], from the
    [k]-th file on; [stamp k] is the time stamp read for the [k]-th
    file. *)
Fixpoint processFilesFrom (k : nat) (files : list UploadedFile)
    (stamp : nat -> string) (allChunks : list DocumentChunk) (uuid : nat)
    : option (list DocumentChunk * nat) :=
  match files with
  | [] => Some (allChunks, uuid)
  | file :: rest =>
      '(fileChunks, uuid') ← processFile file (stamp k) uuid;
      processFilesFrom (k + 1) rest stamp (allChunks ++ fileChunks) uuid'
  end.

Definition processFiles (files : list UploadedFile) (stamp : nat -> string)
    (uuid0 : nat) : option (list DocumentChunk * nat) :=
  processFilesFrom 0 files stamp [] uuid0.

Record ProcessingStats := {
  stats_totalChunks : nat;
  stats_totalTokens : nat;
  avgTokensPerChunk : nat;
  minTokens : nat;
  maxTokens : nat
}.

(** [Math.round(a / b)] for [b > 0]. *)
Definition round_div (a b : nat) : nat := (2 * a + b) / (2 * b).

(** [Math.min(...counts)] and [Math.max(...counts)] on a list that is not
    empty. *)
Definition minOf (counts : list nat) : nat :=
  match counts with
  | [] => 0
  | c :: rest => foldl Nat.min c rest
  end.

Definition maxOf (counts : list nat) : nat :=
  match counts with
  | [] => 0
  | c :: rest => foldl Nat.max c rest
  end.

Definition getProcessingStats (chunks : list DocumentChunk) : ProcessingStats :=
  match chunks with
  | [] =>
      {| stats_totalChunks := 0; stats_totalTokens := 0; avgTokensPerChunk := 0;
         minTokens := 0; maxTokens := 0 |}
  | _ =>
      let tokenCounts := (fun c => tokens (metadata c)) <$> chunks in
      let totalTokens := foldl (fun sum t => sum + t) 0 tokenCounts in
      {| stats_totalChunks := length chunks;
         stats_totalTokens := totalTokens;
         avgTokensPerChunk := round_div totalTokens (length chunks);
         minTokens := minOf tokenCounts;
         maxTokens := maxOf tokenCounts |}
  end.

End Chunking.
End Chunker.

(** ** Deduplication cache (documentCache.ts) *)

(** [crypto.createHash('sha256').update(s).digest('hex')] *)
Class Sha256 := { sha256_hex : string -> string }.

Record CacheEntry := {
  entry_hash : string;
  entry_filename : string;
  entry_timestamp : Z;
  entry_chunks : nat;
  entry_tokens : nat
}.

Record DocumentCache := {
  documentHashes : gmap string CacheEntry;
  chunkHashes : gset string
}.

Record DuplicateCheck := {
  isDuplicate : bool;
  existingEntry : option CacheEntry
}.

Record DuplicateFile := {
  dup_file : UploadedFile;
  dup_existingEntry : CacheEntry
}.

Record FilterResult := {
  uniqueFiles : list UploadedFile;
  duplicates : list DuplicateFile
}.

Module Cache.

Definition CACHE_EXPIRY_HOURS : Q := inject_Z (24 * 7).

Definition empty : DocumentCache :=
  {| documentHashes := ∅; chunkHashes := ∅ |}.

(** [(now - timestamp) / (1000 * 60 * 60)]; the quotient of two integers
    below [2^53] compares with [168] as the exact quotient does. *)
Definition hoursSinceProcessed (now timestamp : Z) : Q :=
  (inject_Z (now - timestamp) / inject_Z (1000 * 60 * 60))%Q.

Definition Qltb (a b : Q) : bool :=
  match (a ?= b)%Q with
  | Lt => true
  | _ => false
  end.

(** [{ ...file, contentHash: hash }] *)
Definition with_contentHash (f : UploadedFile) (h : string) : UploadedFile :=
  {| name := name f; size := size f; type := type f;
     file_content := file_content f; lastModified := lastModified f;
     contentHash := Some h |}.

Section Service.
Context {SHA : Sha256}.

Definition calculateContentHash (content : string) : string :=
  sha256_hex (JS.trim content).

(** [now] is the value of [Date.now()] during the call. *)
Definition isDocumentDuplicate (now : Z) (content : string)
    (cache : DocumentCache) : DuplicateCheck * DocumentCache :=
  let hash := calculateContentHash content in
  match documentHashes cache !! hash with
  | Some existing =>
      if Qltb (hoursSinceProcessed now (entry_timestamp existing))
              CACHE_EXPIRY_HOURS
      then ({| isDuplicate := true; existingEntry := Some existing |}, cache)
      else ({| isDuplicate := false; existingEntry := None |},
            {| documentHashes := delete hash (documentHashes cache);
               chunkHashes := chunkHashes cache |})
  | None => ({| isDuplicate := false; existingEntry := None |}, cache)
  end.

(** The variables of the loop of [filterDuplicateFiles]. *)
Record FilterState := {
  fs_unique : list UploadedFile;
  fs_duplicates : list DuplicateFile;
  fs_currentBatchHashes : gset string;
  fs_cache : DocumentCache
}.

Definition filterStep (now : Z) (st : FilterState) (file : UploadedFile)
    : FilterState :=
  let hash :=
    JS.or_string (contentHash file) (calculateContentHash (file_content file)) in
  if decide (hash ∈ fs_currentBatchHashes st) then st
  else
    let '(duplicateCheck, cache') :=
      isDocumentDuplicate now (file_content file) (fs_cache st) in
    match isDuplicate duplicateCheck, existingEntry duplicateCheck with
    | true, Some existing =>
        {| fs_unique := fs_unique st;
           fs_duplicates :=
             fs_duplicates st
             ++ [{| dup_file := file; dup_existingEntry := existing |}];
           fs_currentBatchHashes := fs_currentBatchHashes st;
           fs_cache := cache' |}
    | _, _ =>
        {| fs_unique := fs_unique st ++ [with_contentHash file hash];
           fs_duplicates := fs_duplicates st;
           fs_currentBatchHashes := {[hash]} ∪ fs_currentBatchHashes st;
           fs_cache := cache' |}
    end.

Definition filterDuplicateFiles (now : Z) (files : list UploadedFile)
    (cache : DocumentCache) : FilterResult * DocumentCache :=
  let st :=
    foldl (filterStep now)
      {| fs_unique := []; fs_duplicates := [];
         fs_currentBatchHashes := ∅; fs_cache := cache |} files in
  ({| uniqueFiles := fs_unique st; duplicates := fs_duplicates st |},
   fs_cache st).

Definition registerProcessedDocument (now : Z) (file : UploadedFile)
    (chunks : list DocumentChunk) (cache : DocumentCache) : DocumentCache :=
  let hash :=
    JS.or_string (contentHash file) (calculateContentHash (file_content file)) in
  let totalTokens := foldl (fun sum c => sum + tokens (metadata c)) 0 chunks in
  let entry :=
    {| entry_hash := hash; entry_filename := name file;
       entry_timestamp := now; entry_chunks := length chunks;
       entry_tokens := totalTokens |} in
  {| documentHashes := <[hash := entry]> (documentHashes cache);
     chunkHashes :=
       foldl (fun s c => {[calculateContentHash (content c)]} ∪ s)
             (chunkHashes cache) chunks |}.

Record ChunkFilterResult := {
  uniqueChunks : list DocumentChunk;
  duplicateCount : nat
}.

(** The variables of the loop of [filterDuplicateChunks]. *)
Record ChunkFilterState := {
  cf_unique : list DocumentChunk;
  cf_seenHashes : gset string;
  cf_duplicateCount : nat
}.

Definition chunkFilterStep (cache : DocumentCache) (st : ChunkFilterState)
    (c : DocumentChunk) : ChunkFilterState :=
  let chunkHash := calculateContentHash (content c) in
  if decide (chunkHash ∈ cf_seenHashes st \/ chunkHash ∈ chunkHashes cache)
  then {| cf_unique := cf_unique st; cf_seenHashes := cf_seenHashes st;
          cf_duplicateCount := cf_duplicateCount st + 1 |}
  else {| cf_unique := cf_unique st ++ [c];
          cf_seenHashes := {[chunkHash]} ∪ cf_seenHashes st;
          cf_duplicateCount := cf_duplicateCount st |}.

Definition filterDuplicateChunks (chunks : list DocumentChunk)
    (cache : DocumentCache) : ChunkFilterResult :=
  let st :=
    foldl (chunkFilterStep cache)
      {| cf_unique := []; cf_seenHashes := ∅; cf_duplicateCount := 0 |} chunks in
  {| uniqueChunks := cf_unique st; duplicateCount := cf_duplicateCount st |}.

(** [hoursSinceProcessed >= this.CACHE_EXPIRY_HOURS] *)
Definition isExpired (now : Z) (entry : CacheEntry) : bool :=
  match (hoursSinceProcessed now (entry_timestamp entry) ?= CACHE_EXPIRY_HOURS)%Q with
  | Lt => false
  | _ => true
  end.

Record CleanupReport := {
  removedDocuments : nat;
  removedChunks : nat
}.

(** The loop [for (const [hash, entry] of this.documentHashes.entries())]
    of [cleanupExpiredEntries]: state is [(documentHashes,
    removedDocuments)]; deleting the entry being visited does not disturb
    the iteration. *)
Definition cleanupStep (now : Z) (st : gmap string CacheEntry * nat)
    (item : string * CacheEntry) : gmap string CacheEntry * nat :=
  if isExpired now item.2 then (delete item.1 st.1, st.2 + 1) else st.

Definition cleanupExpiredEntries (now : Z) (cache : DocumentCache)
    : CleanupReport * DocumentCache :=
  let st :=
    foldl (cleanupStep now) (documentHashes cache, 0)
      (map_to_list (documentHashes cache)) in
  let removedChunks := base.size (chunkHashes cache) in
  ({| removedDocuments := st.2; removedChunks := removedChunks |},
   {| documentHashes := st.1;
      chunkHashes := if 0 <? st.2 then ∅ else chunkHashes cache |}).

Definition clearCache (cache : DocumentCache) : DocumentCache :=
  {| documentHashes := ∅; chunkHashes := ∅ |}.

Record CacheData := {
  data_documents : list CacheEntry;
  data_chunkHashes : list string;
  exportTimestamp : Z
}.

(** [exportCache()]: the values of the map and the elements of the set,
    each in some order. *)
Definition exportCache (now : Z) (cache : DocumentCache) : CacheData :=
  {| data_documents := (map_to_list (documentHashes cache)).*2;
     data_chunkHashes := elements (chunkHashes cache);
     exportTimestamp := now |}.

Definition importCache (cacheData : CacheData) (cache : DocumentCache)
    : DocumentCache :=
  let cleared := clearCache cache in
  {| documentHashes :=
       foldl (fun m doc => <[entry_hash doc := doc]> m)
             (documentHashes cleared) (data_documents cacheData);
     chunkHashes :=
       foldl (fun s hash => {[hash]} ∪ s)
             (chunkHashes cleared) (data_chunkHashes cacheData) |}.

End Service.
End Cache.

(** ** Asynchronous calls that may throw *)

(** The result of awaiting a call: a value, an exception, or a loop of the
    model that has not ended within its fuel. *)
Inductive outcome (A : Type) : Type :=
  | Returned (a : A)
  | Thrown
  | Unfinished.

Arguments Returned {A} a.
Arguments Thrown {A}.
Arguments Unfinished {A}.

#[global] Instance outcome_ret : MRet outcome := fun A a => Returned a.
#[global] Instance outcome_bind : MBind outcome := fun A B k m =>
  match m with
  | Returned a => k a
  | Thrown => Thrown
  | Unfinished => Unfinished
  end.

(** A call of an external service: [None] is a rejected promise. *)
Definition await {A} (r : option A) : outcome A :=
  match r with
  | Some a => Returned a
  | None => Thrown
  end.

(** ** Sequential embedding service (embeddings.ts) *)

Module BasicEmbeddings.

Definition batchSize : nat := 5.

(** [{ ...chunk, embedding: embeddings[index] }]: an index past the end
    of [embeddings] reads [undefined]. *)
Definition with_embedding_at (embeddings : list Embedding) (index : nat)
    (c : DocumentChunk) : DocumentChunk :=
  {| id := id c; content := content c; metadata := metadata c;
     embedding := embeddings !! index |}.

Section Service.
Context {EP : EmbeddingProvider}.

(** [for (const text of batch)]: the first call that throws, or returns
    no values, leaves the loop through the [catch] block, which throws. *)
Fixpoint embedBatch (batch : list string) (embeddings : list Embedding)
    : outcome (list Embedding) :=
  match batch with
  | [] => Returned embeddings
  | text :: rest =>
      values ← await (embedContent (JS.newlines_to_spaces text) 0);
      embedBatch rest (embeddings ++ [values])
  end.

(** [for (let i = 0; i < texts.length; i += batchSize)] *)
Fixpoint batchLoop (fuel : nat) (all : list string) (i : nat)
    (embeddings : list Embedding) : outcome (list Embedding) :=
  if (i <? length all)%nat then
    match fuel with
    | 0 => Unfinished
    | S f =>
        embeddings' ← embedBatch (JS.slice i (i + batchSize) all) embeddings;
        batchLoop f all (i + batchSize) embeddings'
    end
  else Returned embeddings.

(** [generateEmbeddings(texts, progressCallback)]; the callback only
    writes to the log. *)
Definition generateEmbeddings (all : list string) : outcome (list Embedding) :=
  batchLoop (length all) all 0 [].

Definition generateChunkEmbeddings (chunks : list DocumentChunk)
    : outcome (list DocumentChunk) :=
  embeddings ← generateEmbeddings (content <$> chunks);
  Returned (imap (with_embedding_at embeddings) chunks).

End Service.
End BasicEmbeddings.

(** ** Retriever (embeddings.ts, retriever.ts) *)

(** The value [dotProduct / (Math.sqrt(norm1) * Math.sqrt(norm2))] computed
    by [cosineSimilarity] for two vectors of equal length, neither of
    which has norm 0. *)
Class CosineKernel := { cosine : Embedding -> Embedding -> Q }.

(** [RetrieverService.retrieve(query, topK)]: the similarity search against
    the vector index, with its matches converted to retrieval results. *)
Class VectorSearch := {
  retrieve : string -> nat -> option (list RetrievalResult)
}.

Record RetrievalConfig := {
  retrieval_topK : nat;
  rerankedK : nat;
  diversityLambda : Q;
  similarityThreshold : Q
}.

(** [config.retrieval] of config.ts. *)
Definition config_retrieval : RetrievalConfig :=
  {| retrieval_topK := 3; rerankedK := 1;
     diversityLambda := 7 # 10; similarityThreshold := 7 # 10 |}.

Module Retriever.

(** A double computed from finite doubles: finite, or [NaN]. *)
Inductive Double :=
  | Finite (q : Q)
  | NaN.

(** [Math.max(a, b)] *)
Definition mathMax (a b : Double) : Double :=
  match a, b with
  | Finite x, Finite y => Finite (Qmax x y)
  | _, _ => NaN
  end.

(** [-a] *)
Definition negate (a : Double) : Double :=
  match a with
  | Finite x => Finite (- x)%Q
  | NaN => NaN
  end.

(** [lambda * relevanceScore + (1 - lambda) * diversityScore]: [NaN] for
    a [NaN] diversity score, also when [1 - lambda] is 0. *)
Definition combine (lambda relevanceScore : Q) (diversity : Double) : Double :=
  match diversity with
  | Finite d => Finite (lambda * relevanceScore + (1 - lambda) * d)%Q
  | NaN => NaN
  end.

(** [norm += embedding[i] * embedding[i]] over the vector. *)
Definition squaredNorm (e : Embedding) : Q :=
  foldl (fun norm x => norm + x * x)%Q 0%Q e.

Section Service.
Context {EP : EmbeddingProvider} {CK : CosineKernel} {VS : VectorSearch}.

(** [EmbeddingService.generateEmbedding] of embeddings.ts: one attempt.
    The calls of [embedContent] that one retrieval makes are numbered
    [call = 0, 1, 2, ...] in the order in which they are made, so that
    two calls for the same text need not end alike. *)
Definition generateEmbedding (text : string) (call : nat) : outcome Embedding :=
  await (embedContent (JS.newlines_to_spaces text) call).

(** [cosineSimilarity(embedding1, embedding2)]: when one of the norms is
    0, so is the dot product, and the quotient [0 / 0] is [NaN]. *)
Definition cosineSimilarity (embedding1 embedding2 : Embedding)
    : outcome Double :=
  if length embedding1 =? length embedding2
  then
    if Qeq_bool (squaredNorm embedding1) 0 || Qeq_bool (squaredNorm embedding2) 0
    then Returned NaN
    else Returned (Finite (cosine embedding1 embedding2))
  else Thrown.

(** [for (const selectedResult of selected)]; the result is paired with
    the number of embedding calls made so far. *)
Fixpoint maxSimilarityLoop (candidateEmbedding : Embedding)
    (selected : list RetrievalResult) (maxSimilarity : Double) (calls : nat)
    : outcome (Double * nat) :=
  match selected with
  | [] => Returned (maxSimilarity, calls)
  | selectedResult :: rest =>
      selectedEmbedding ← generateEmbedding (content (chunk selectedResult)) calls;
      similarity ← cosineSimilarity candidateEmbedding selectedEmbedding;
      maxSimilarityLoop candidateEmbedding rest
        (mathMax maxSimilarity similarity) (calls + 1)
  end.

Definition diversityScore (selected : list RetrievalResult)
    (candidate : RetrievalResult) (calls : nat) : outcome (Double * nat) :=
  if 0 <? length selected then
    candidateEmbedding ← generateEmbedding (content (chunk candidate)) calls;
    '(maxSimilarity, calls') ←
      maxSimilarityLoop candidateEmbedding selected (Finite 0) (calls + 1);
    Returned (negate maxSimilarity, calls')
  else Returned (Finite 0, calls).

(** [mmrScore > bestScore] for a finite [mmrScore], where the best score
    [None] is [-Infinity]. *)
Definition exceeds (mmrScore : Q) (bestScore : option Q) : bool :=
  match bestScore with
  | None => true
  | Some b => match (mmrScore ?= b)%Q with Gt => true | _ => false end
  end.

(** [for (let i = 0; i < remaining.length; i++)]: [rest] is
    [remaining.slice(i)]; the result is the final [bestIndex], with the
    number of embedding calls made so far.  The test
    [mmrScore > bestScore] is false for a score that is [NaN]. *)
Fixpoint scanRemaining (lambda : Q) (selected rest : list RetrievalResult)
    (i bestIndex : nat) (bestScore : option Q) (calls : nat)
    : outcome (nat * nat) :=
  match rest with
  | [] => Returned (bestIndex, calls)
  | candidate :: rest' =>
      let relevanceScore := score candidate in
      '(diversity, calls') ← diversityScore selected candidate calls;
      match combine lambda relevanceScore diversity with
      | Finite mmrScore =>
          if exceeds mmrScore bestScore
          then scanRemaining lambda selected rest' (i + 1) i (Some mmrScore) calls'
          else scanRemaining lambda selected rest' (i + 1) bestIndex bestScore calls'
      | NaN => scanRemaining lambda selected rest' (i + 1) bestIndex bestScore calls'
      end
  end.

(** [while (selected.length < topK && remaining.length > 0)] *)
Fixpoint mmrLoop (fuel : nat) (lambda : Q) (topK : nat)
    (selected remaining : list RetrievalResult) (calls : nat)
    : outcome (list RetrievalResult) :=
  if (length selected <? topK) && (0 <? length remaining) then
    match fuel with
    | 0 => Unfinished
    | S f =>
        '(bestIndex, calls') ← scanRemaining lambda selected remaining 0 0 None calls;
        match remaining !! bestIndex with
        | Some best =>
            mmrLoop f lambda topK (selected ++ [best])
              (delete bestIndex remaining) calls'
        | None => Thrown (* not reached: [bestIndex < remaining.length] *)
        end
    end
  else Returned selected.

Definition retrieveWithMMR (query : string) (topK : nat) (lambda : Q)
    : outcome (list RetrievalResult) :=
  let candidateCount := Nat.min (topK * 3) 100 in
  candidates ← await (retrieve query candidateCount);
  if length candidates =? 0 then Returned []
  else
    queryEmbedding ← generateEmbedding query 0;
    mmrLoop (length candidates) lambda topK [] candidates 1.

End Service.
End Retriever.

(** ** Reranker adapter (reranker.ts) *)

Record RerankHit := { hit_index : nat; relevanceScore : Q }.

(** [cohere.rerank({ query, documents, topN })]: [None] is a rejected
    call; the indices of a response refer to the documents sent. *)
Class RerankService := {
  cohere_rerank : string -> list string -> nat -> option (list RerankHit)
}.

Module Reranker.

(** [{ ...originalResult, rerankedScore: s, score: s }] *)
Definition with_rerankedScore (r : RetrievalResult) (s : Q) : RetrievalResult :=
  {| chunk := chunk r; score := s; rerankedScore := Some s |}.

(** [x.rerankedScore || 0] *)
Definition rerankedOrZero (r : RetrievalResult) : Q :=
  match rerankedScore r with
  | Some s => s
  | None => 0%Q
  end.

(** [Array.prototype.sort] with the comparator
    [(a, b) => (b.rerankedScore || 0) - (a.rerankedScore || 0)]: a stable
    sort, descending. *)
Fixpoint insertDescending (x : RetrievalResult) (l : list RetrievalResult)
    : list RetrievalResult :=
  match l with
  | [] => [x]
  | y :: rest =>
      match (rerankedOrZero x ?= rerankedOrZero y)%Q with
      | Lt => y :: insertDescending x rest
      | _ => x :: l
      end
  end.

Definition sortDescending (l : list RetrievalResult) : list RetrievalResult :=
  foldr insertDescending [] l.

(** The loop of [limitChunksPerDocument]: state is
    [(documentChunkCounts, filteredResults)]. *)
Definition limitStep (maxChunksPerDoc : nat)
    (st : gmap string nat * list RetrievalResult) (result : RetrievalResult)
    : gmap string nat * list RetrievalResult :=
  let docId := documentId (metadata (chunk result)) in
  let currentCount := default 0 (st.1 !! docId) in
  if currentCount <? maxChunksPerDoc
  then (<[docId := currentCount + 1]> st.1, st.2 ++ [result])
  else st.

Definition limitChunksPerDocument (results : list RetrievalResult)
    (maxChunksPerDoc : nat) : list RetrievalResult :=
  (foldl (limitStep maxChunksPerDoc) (∅, []) results).2.

Record QueryResultPair := {
  pair_query : string;
  pair_results : list RetrievalResult
}.

Section Service.
Context {RS : RerankService}.
(** [this.topN], from [config.reranker.topN]. *)
Variable defaultTopN : nat.

(** The body of the [try] block after the empty-input test.  The
    service answers with indices into the documents sent.  For an index
    outside them the code builds an object that carries the two scores
    and no chunk, which is no [RetrievalResult]: the model has no value
    for it and leaves the hit out, and what is proved of a call that
    succeeds is stated for responses whose indices are in range. *)
Definition rerankCall (query : string) (results : list RetrievalResult)
    (topN : option nat) : outcome (list RetrievalResult) :=
  let rerankTopN := JS.or_nat topN defaultTopN in
  let maxInputResults := Nat.min 50 (length results) in
  let limitedResults := JS.slice 0 maxInputResults results in
  let documents := (fun r => content (chunk r)) <$> limitedResults in
  response ← await (cohere_rerank query documents
                      (Nat.min rerankTopN (length documents)));
  let rerankedResults :=
    omap (fun hit =>
            (fun r => with_rerankedScore r (relevanceScore hit))
              <$> limitedResults !! hit_index hit) response in
  Returned (sortDescending rerankedResults).

(** [rerank(query, results, topN)]: the [catch] block turns every
    exception of the [try] block into the original slice. *)
Definition rerank (query : string) (results : list RetrievalResult)
    (topN : option nat) : outcome (list RetrievalResult) :=
  match results with
  | [] => Returned []
  | _ =>
      match rerankCall query results topN with
      | Returned reranked => Returned reranked
      | _ => Returned (JS.slice 0 (JS.or_nat topN defaultTopN) results)
      end
  end.

(** The callback of [batch.map] in [batchRerank]: its [catch] block
    answers a rejection of [rerank] with the original slice. *)
Definition rerankPair (topN : option nat) (pair : QueryResultPair)
    : list RetrievalResult :=
  match rerank (pair_query pair) (pair_results pair) topN with
  | Returned reranked => reranked
  | _ => JS.slice 0 (JS.or_nat topN defaultTopN) (pair_results pair)
  end.

(** [for (let i = 0; i < queryResultPairs.length; i += batchSize)] with
    [batchSize = 5]. *)
Fixpoint batchRerankLoop (fuel : nat) (queryResultPairs : list QueryResultPair)
    (topN : option nat) (i : nat) (rerankedBatch : list (list RetrievalResult))
    : option (list (list RetrievalResult)) :=
  if (i <? length queryResultPairs)%nat then
    match fuel with
    | 0 => None
    | S f =>
        let batch := JS.slice i (i + 5) queryResultPairs in
        batchRerankLoop f queryResultPairs topN (i + 5)
          (rerankedBatch ++ (rerankPair topN <$> batch))
    end
  else Some rerankedBatch.

Definition batchRerank (queryResultPairs : list QueryResultPair)
    (topN : option nat) : option (list (list RetrievalResult)) :=
  batchRerankLoop (length queryResultPairs) queryResultPairs topN 0 [].

End Service.
End Reranker.

(** ** Answer synthesizer (llm.ts) *)

Record TokensUsed := {
  tokens_input : nat;
  tokens_output : nat;
  tokens_total : nat
}.

Record CostEstimate := {
  cost_embedding : Q;
  cost_llm : Q;
  cost_reranking : Q;
  cost_total : Q
}.

Record QueryMetrics := {
  totalTime : Z;
  retrievalTime : Z;
  rerankingTime : Z;
  llmTime : Z;
  embeddingTime : Z;
  tokensUsed : TokensUsed;
  costEstimate : CostEstimate
}.

Record QueryResult := {
  result_query : string;
  answer : string;
  citations : list Citation;
  sources : list SourceDocument;
  retrievalResults : list RetrievalResult;
  metrics : QueryMetrics;
  result_timestamp : string
}.

Record ChatRequest := { system_message : string; user_message : string }.

Record Completion := {
  completion_content : option string;
  prompt_tokens : option nat;
  completion_tokens : option nat;
  total_tokens : option nat
}.

(** [groq.chat.completions.create] raced against the 30 s timer: [None]
    is a rejection of either promise. *)
Class GenerationService := {
  chat_completion : ChatRequest -> option Completion
}.

(** [groq.chat.completions.create({ ..., stream: true })]: [None] is a
    rejected call; otherwise the [delta.content] of the chunks that the
    stream yields, and whether the iteration then ends ([true]) or
    throws ([false]). *)
Class StreamingService := {
  chat_stream : ChatRequest -> option (list (option string) * bool)
}.

Module LLM.

Definition NO_ANSWER : string :=
  "I don't have enough relevant information in my knowledge base to answer your question. Please try uploading relevant documents or rephrasing your question.".

Definition NO_RESPONSE : string :=
  "I apologize, but I could not generate a response.".

Definition zeroTokens : TokensUsed :=
  {| tokens_input := 0; tokens_output := 0; tokens_total := 0 |}.

Definition zeroCost : CostEstimate :=
  {| cost_embedding := 0; cost_llm := 0; cost_reranking := 0; cost_total := 0 |}.

(** [calculateCost(totalTokens)], with the rate [0.69 / 1000000]. *)
Definition calculateCost (totalTokens : nat) : CostEstimate :=
  let llmCost := (inject_Z (Z.of_nat totalTokens) * (69 # 100000000))%Q in
  {| cost_embedding := 0; cost_llm := llmCost; cost_reranking := 0;
     cost_total := llmCost |}.

Record PreparedContext := {
  contextText : string;
  ctx_citations : list Citation;
  ctx_sourceMap : list (string * SourceDocument)
}.

Definition mapHas (key : string) (m : list (string * SourceDocument)) : bool :=
  existsb (fun kv => bool_decide (kv.1 = key)) m.

(** [sourceMap.get(key)!.relevantChunks.push(citationId)] *)
Fixpoint pushRelevantChunk (key : string) (citationId : nat)
    (m : list (string * SourceDocument)) : list (string * SourceDocument) :=
  match m with
  | [] => []
  | (k, d) :: rest =>
      if decide (k = key)
      then (k, {| src_id := src_id d; src_title := src_title d;
                  src_source := src_source d;
                  relevantChunks := relevantChunks d ++ [citationId];
                  src_fileType := src_fileType d |}) :: rest
      else (k, d) :: pushRelevantChunk key citationId rest
  end.

Definition contextEntry (citationId : nat) (text : string) : string :=
  "[" +:+ JS.number_to_string citationId +:+ "] " +:+ text
  +:+ newline +:+ newline.

(** The callback of [retrievalResults.forEach((result, index) => ...)]. *)
Definition contextStep (st : PreparedContext) (index : nat)
    (result : RetrievalResult) : PreparedContext :=
  let citationId := index + 1 in
  let c := chunk result in
  let m := metadata c in
  let sourceKey := documentId m in
  let sourceMap :=
    if mapHas sourceKey (ctx_sourceMap st) then ctx_sourceMap st
    else ctx_sourceMap st
         ++ [(sourceKey,
              {| src_id := documentId m; src_title := title m;
                 src_source := source m; relevantChunks := [];
                 src_fileType := fileType m |})] in
  {| contextText := contextText st +:+ contextEntry citationId (content c);
     ctx_citations :=
       ctx_citations st
       ++ [{| cit_id := citationId; cit_text := content c;
              cit_source := source m; cit_section := section m;
              cit_position := position m |}];
     ctx_sourceMap := pushRelevantChunk sourceKey citationId sourceMap |}.

Fixpoint contextLoop (st : PreparedContext) (index : nat)
    (results : list RetrievalResult) : PreparedContext :=
  match results with
  | [] => st
  | result :: rest => contextLoop (contextStep st index result) (index + 1) rest
  end.

Definition contextHeader : string :=
  "Context information:" +:+ newline +:+ newline.

(** [prepareContextWithCitations(retrievalResults)], returning
    [(contextText, citations, sources)]. *)
Definition prepareContextWithCitations (results : list RetrievalResult)
    : string * list Citation * list SourceDocument :=
  let st :=
    contextLoop {| contextText := contextHeader; ctx_citations := [];
                   ctx_sourceMap := [] |} 0 results in
  (contextText st, ctx_citations st, snd <$> ctx_sourceMap st).

Definition createPrompt (query contextText : string) : string :=
  contextText +:+ newline +:+ newline +:+ "Question: " +:+ query
  +:+ newline +:+ newline
  +:+ "Please answer the question based on the provided context. Include inline citations using the format [1], [2], etc. to reference specific pieces of information from the context. If you cannot answer the question based on the provided context, please say so clearly."
  +:+ newline +:+ newline +:+ "Answer:".

Section Service.
Context {GS : GenerationService}.
Variable systemPrompt : string.
(** [clock k] is the value read by the [k]-th [Date.now()] in the text of
    the class, [isoNow] that of [new Date().toISOString()]. *)
Variable clock : nat -> Z.
Variable isoNow : string.

Definition createNoAnswerResponse (query : string) (startTime : Z)
    : QueryResult :=
  {| result_query := query;
     answer := NO_ANSWER;
     citations := [];
     sources := [];
     retrievalResults := [];
     metrics :=
       {| totalTime := clock 4 - startTime; retrievalTime := 0;
          rerankingTime := 0; llmTime := 0; embeddingTime := 0;
          tokensUsed := zeroTokens; costEstimate := zeroCost |};
     result_timestamp := isoNow |}.

(** [generateAnswer(query, retrievalResults, includeMetrics)], paired with
    the requests it has sent to the generation service. *)
Definition generateAnswer (query : string) (results : list RetrievalResult)
    (includeMetrics : bool) : outcome QueryResult * list ChatRequest :=
  let startTime := clock 0 in
  match results with
  | [] => (Returned (createNoAnswerResponse query startTime), [])
  | _ =>
      let '(contextText, citations, sources) :=
        prepareContextWithCitations results in
      let userPrompt := createPrompt query contextText in
      let llmStartTime := clock 1 in
      let request :=
        {| system_message := systemPrompt; user_message := userPrompt |} in
      match chat_completion request with
      | None => (Thrown, [request])
      | Some completion =>
          let llmTime := (clock 2 - llmStartTime)%Z in
          let answer := JS.or_string (completion_content completion) NO_RESPONSE in
          let total := JS.or_nat (total_tokens completion) 0 in
          let metrics :=
            if includeMetrics then
              {| totalTime := clock 3 - startTime; retrievalTime := 0;
                 rerankingTime := 0; llmTime := llmTime; embeddingTime := 0;
                 tokensUsed :=
                   {| tokens_input := JS.or_nat (prompt_tokens completion) 0;
                      tokens_output := JS.or_nat (completion_tokens completion) 0;
                      tokens_total := total |};
                 costEstimate := calculateCost total |}
            else
              {| totalTime := 0; retrievalTime := 0; rerankingTime := 0;
                 llmTime := 0; embeddingTime := 0;
                 tokensUsed := zeroTokens; costEstimate := zeroCost |} in
          (Returned
             {| result_query := query; answer := answer;
                citations := citations; sources := sources;
                retrievalResults := results; metrics := metrics;
                result_timestamp := isoNow |},
           [request])
      end
  end.

Context {SS : StreamingService}.

(** The body of [for await (const chunk of stream)]: state is
    [(fullAnswer, tokenCount)] and the arguments passed to [onChunk] so
    far. *)
Definition streamStep (st : string * nat * list string) (delta : option string)
    : string * nat * list string :=
  let '(fullAnswer, tokenCount, delivered) := st in
  let content := JS.or_string delta "" in
  if decide (content = ""%string) then st
  else (fullAnswer +:+ content, tokenCount + 1, delivered ++ [content]).

(** [generateStreamingAnswer(query, retrievalResults, onChunk)], paired
    with the arguments of the calls of [onChunk], in order; [clock 5] and
    [clock 6] are the two readings of [Date.now()]. *)
Definition generateStreamingAnswer (query : string)
    (results : list RetrievalResult) : outcome QueryResult * list string :=
  let startTime := clock 5 in
  match results with
  | [] => (Returned (createNoAnswerResponse query startTime), [])
  | _ =>
      let '(contextText, citations, sources) :=
        prepareContextWithCitations results in
      let userPrompt := createPrompt query contextText in
      match chat_stream
              {| system_message := systemPrompt; user_message := userPrompt |} with
      | None => (Thrown, [])
      | Some (deltas, finished) =>
          let '(fullAnswer, tokenCount, delivered) :=
            foldl streamStep (EmptyString, 0, []) deltas in
          if finished then
            let totalTime := (clock 6 - startTime)%Z in
            (Returned
               {| result_query := query; answer := fullAnswer;
                  citations := citations; sources := sources;
                  retrievalResults := results;
                  metrics :=
                    {| totalTime := totalTime; retrievalTime := 0;
                       rerankingTime := 0; llmTime := totalTime;
                       embeddingTime := 0;
                       tokensUsed :=
                         {| tokens_input := 0; tokens_output := tokenCount;
                            tokens_total := tokenCount |};
                       costEstimate := calculateCost tokenCount |};
                  result_timestamp := isoNow |},
             delivered)
          else (Thrown, delivered)
      end
  end.

End Service.
End LLM.

(** ** Query pipeline (ragService.ts) *)

Record QueryOptions := {
  useMMR : option bool;
  useReranking : option bool;
  topK : option nat;
  opt_rerankedK : option nat;
  includeMetrics : option bool
}.

(** [Math.log]-based [RerankerService.getRerankingCost]. *)
Class CostModel := { getRerankingCost : nat -> Q }.

Module RAG.

Definition APOLOGY : string :=
  "I apologize, but I encountered an error while processing your query. Please try again.".

(** A destructuring default, [{ x = d } = options]. *)
Definition default {A} (d : A) (o : option A) : A :=
  match o with
  | Some a => a
  | None => d
  end.

Section Service.
Context {EP : EmbeddingProvider} {CK : CosineKernel} {VS : VectorSearch} {RS : RerankService}
        {GS : GenerationService} {CM : CostModel}.
Variable embeddingCfg : EmbeddingConfig.
Variable retrievalCfg : RetrievalConfig.
Variable rerankerTopN : nat.
Variable systemPrompt : string.
(** [clock k] is the value read by the [k]-th [Date.now()] in the text of
    [query]; [llmClock] is the clock of the answer synthesizer. *)
Variable clock : nat -> Z.
Variable llmClock : nat -> Z.
Variable isoNow : string.

(** Steps 1 to 3 of [query]: the list [finalResults]. *)
Definition finalResults (question : string) (options : QueryOptions)
    : outcome (list RetrievalResult * list RetrievalResult) :=
  let useMMR := default true (useMMR options) in
  let useReranking := default true (useReranking options) in
  let topK := default (retrieval_topK retrievalCfg) (topK options) in
  let rerankedK := default (rerankedK retrievalCfg) (opt_rerankedK options) in
  queryEmbedding ← await (Embeddings.generateEmbedding embeddingCfg question);
  retrievalResults ←
    (if useMMR
     then Retriever.retrieveWithMMR question topK (diversityLambda retrievalCfg)
     else await (retrieve question topK));
  final ←
    (if useReranking && (0 <? length retrievalResults)
     then Reranker.rerank rerankerTopN question retrievalResults (Some rerankedK)
     else if negb useReranking && (rerankedK <? length retrievalResults)
     then Returned (JS.slice 0 rerankedK retrievalResults)
     else Returned retrievalResults);
  Returned (retrievalResults, final).

(** [rerankingTime]: measured around the call of [rerank], [0] when the
    call is skipped. *)
Definition rerankingTimeOf (reranked : bool) : Z :=
  if reranked then (clock 6 - clock 5)%Z else 0%Z.

Definition noResultsResponse (question : string) (reranked : bool)
    : QueryResult :=
  {| result_query := question;
     answer := LLM.NO_ANSWER;
     citations := [];
     sources := [];
     retrievalResults := [];
     metrics :=
       {| totalTime := clock 7 - clock 0;
          retrievalTime := clock 4 - clock 3;
          rerankingTime := rerankingTimeOf reranked;
          llmTime := 0;
          embeddingTime := clock 2 - clock 1;
          tokensUsed := LLM.zeroTokens; costEstimate := LLM.zeroCost |};
     result_timestamp := isoNow |}.

Definition errorResponse (question : string) : QueryResult :=
  {| result_query := question;
     answer := APOLOGY;
     citations := [];
     sources := [];
     retrievalResults := [];
     metrics :=
       {| totalTime := clock 11 - clock 0; retrievalTime := 0;
          rerankingTime := 0; llmTime := 0; embeddingTime := 0;
          tokensUsed := LLM.zeroTokens; costEstimate := LLM.zeroCost |};
     result_timestamp := isoNow |}.

(** The metrics written back when [includeMetrics] holds. *)
Definition updateMetrics (useReranking reranked : bool) (retrieved : nat)
    (result : QueryResult) : QueryResult :=
  let m := metrics result in
  let embeddingCost := 0%Q in
  let rerankingCost := if useReranking then getRerankingCost retrieved else 0%Q in
  {| result_query := result_query result; answer := answer result;
     citations := citations result; sources := sources result;
     retrievalResults := retrievalResults result;
     metrics :=
       {| totalTime := clock 10 - clock 0;
          retrievalTime := clock 4 - clock 3;
          rerankingTime := rerankingTimeOf reranked;
          llmTime := clock 9 - clock 8;
          embeddingTime := clock 2 - clock 1;
          tokensUsed := tokensUsed m;
          costEstimate :=
            {| cost_embedding := embeddingCost;
               cost_llm := cost_llm (costEstimate m);
               cost_reranking := rerankingCost;
               cost_total :=
                 embeddingCost + cost_llm (costEstimate m) + rerankingCost |} |};
     result_timestamp := result_timestamp result |}.

(** [query(question, options)], paired with the requests sent to the
    generation service; the [catch] block answers every exception. *)
Definition query (question : string) (options : QueryOptions)
    : QueryResult * list ChatRequest :=
  let useReranking := default true (useReranking options) in
  let includeMetrics := default true (includeMetrics options) in
  match finalResults question options with
  | Returned (retrievalResults, final) =>
      let reranked := useReranking && (0 <? length retrievalResults) in
      match final with
      | [] => (noResultsResponse question reranked, [])
      | _ =>
          match LLM.generateAnswer systemPrompt llmClock isoNow question final
                  includeMetrics with
          | (Returned result, sent) =>
              (if includeMetrics
               then updateMetrics useReranking reranked
                      (length retrievalResults) result
               else result, sent)
          | (_, sent) => (errorResponse question, sent)
          end
      end
  | _ => (errorResponse question, [])
  end.

End Service.
End RAG.

(** ** Job orchestrator (backgroundProcessing.ts) *)

Inductive JobStatus :=
  | PENDING | UPLOADING | EXTRACTING | CHUNKING | EMBEDDING | INDEXING
  | COMPLETE | FAILED | CANCELLED.

#[global] Instance JobStatus_eq_dec : EqDecision JobStatus.
Proof. solve_decision. Defined.

Record JobMetadata := {
  filesProcessed : nat;
  totalFiles : nat;
  chunksCreated : nat;
  chunksEmbedded : nat;
  chunksIndexed : nat;
  tokensProcessed : nat;
  duplicatesSkipped : nat
}.

Record JobResult := {
  result_chunks : list DocumentChunk;
  result_totalTokens : nat;
  result_processingTime : Z;
  result_duplicatesSkipped : nat
}.

(** A job is identified by the rank of its uuid among the identifiers
    drawn by [createJob]: identifiers never repeat. *)
Record ProcessingJob := {
  job_id : nat;
  job_files : list UploadedFile;
  job_status : JobStatus;
  job_progress : nat;
  job_message : string;
  job_startTime : Z;
  job_endTime : option Z;
  job_error : option string;
  job_result : option JobResult;
  job_metadata : JobMetadata
}.

Record ProgressUpdate := {
  upd_jobId : nat;
  upd_status : JobStatus;
  upd_progress : nat;
  upd_message : string;
  upd_startTime : Z;
  upd_endTime : option Z;
  upd_error : option string;
  upd_metadata : JobMetadata
}.

Module Jobs.

Definition maxConcurrentJobs : nat := 2.
Definition MAX_JOBS_HISTORY : nat := 100.
Definition maxAge : Z := 24 * 60 * 60 * 1000.

(** The [await] at which a call of [processJob] is suspended, with the
    local variables its continuation reads. *)
Inductive AwaitPoint :=
  | AwaitInitialize
  | AwaitProcessFiles (uniqueFiles : list UploadedFile)
  | AwaitEmbeddings (uniqueFiles : list UploadedFile) (chunks : list DocumentChunk)
  | AwaitIndexing (uniqueFiles : list UploadedFile)
                  (embeddedChunks : list DocumentChunk).

(** How an awaited promise settles; a rejection carries [error.message]
    when the reason is an [Error]. *)
Inductive Settled :=
  | Rejected (message : option string)
  | Resolved
  | ResolvedChunks (chunks : list DocumentChunk).

(** The service object.  [objects] holds the job objects by identity;
    [jobs] lists the keys of the [Map] in insertion order; [suspended]
    holds the calls of [processJob] waiting at an [await]; [timers]
    counts the pending [setTimeout(() => this.processQueue(), 100)];
    [emitted] is the sequence of ['progress'] events; [documentCache] is
    the cache singleton. *)
Record Service := {
  objects : gmap nat ProcessingJob;
  jobs : list nat;
  jobQueue : list nat;
  isProcessing : bool;
  activeJobs : nat;
  uuidsDrawn : nat;
  suspended : list (nat * AwaitPoint);
  timers : nat;
  emitted : list ProgressUpdate;
  documentCache : DocumentCache
}.

Definition initial : Service :=
  {| objects := ∅; jobs := []; jobQueue := []; isProcessing := false;
     activeJobs := 0; uuidsDrawn := 0; suspended := []; timers := 0;
     emitted := []; documentCache := Cache.empty |}.

(** Field updates. *)
Definition set_objects (f : gmap nat ProcessingJob -> gmap nat ProcessingJob)
    (s : Service) : Service :=
  {| objects := f (objects s); jobs := jobs s; jobQueue := jobQueue s;
     isProcessing := isProcessing s; activeJobs := activeJobs s;
     uuidsDrawn := uuidsDrawn s; suspended := suspended s; timers := timers s;
     emitted := emitted s; documentCache := documentCache s |}.

Definition set_jobs (f : list nat -> list nat) (s : Service) : Service :=
  {| objects := objects s; jobs := f (jobs s); jobQueue := jobQueue s;
     isProcessing := isProcessing s; activeJobs := activeJobs s;
     uuidsDrawn := uuidsDrawn s; suspended := suspended s; timers := timers s;
     emitted := emitted s; documentCache := documentCache s |}.

Definition set_jobQueue (f : list nat -> list nat) (s : Service) : Service :=
  {| objects := objects s; jobs := jobs s; jobQueue := f (jobQueue s);
     isProcessing := isProcessing s; activeJobs := activeJobs s;
     uuidsDrawn := uuidsDrawn s; suspended := suspended s; timers := timers s;
     emitted := emitted s; documentCache := documentCache s |}.

Definition set_running (processing : bool) (active : nat) (s : Service)
    : Service :=
  {| objects := objects s; jobs := jobs s; jobQueue := jobQueue s;
     isProcessing := processing; activeJobs := active;
     uuidsDrawn := uuidsDrawn s; suspended := suspended s; timers := timers s;
     emitted := emitted s; documentCache := documentCache s |}.

Definition set_uuidsDrawn (n : nat) (s : Service) : Service :=
  {| objects := objects s; jobs := jobs s; jobQueue := jobQueue s;
     isProcessing := isProcessing s; activeJobs := activeJobs s;
     uuidsDrawn := n; suspended := suspended s; timers := timers s;
     emitted := emitted s; documentCache := documentCache s |}.

Definition set_suspended
    (f : list (nat * AwaitPoint) -> list (nat * AwaitPoint)) (s : Service)
    : Service :=
  {| objects := objects s; jobs := jobs s; jobQueue := jobQueue s;
     isProcessing := isProcessing s; activeJobs := activeJobs s;
     uuidsDrawn := uuidsDrawn s; suspended := f (suspended s);
     timers := timers s; emitted := emitted s;
     documentCache := documentCache s |}.

Definition set_timers (n : nat) (s : Service) : Service :=
  {| objects := objects s; jobs := jobs s; jobQueue := jobQueue s;
     isProcessing := isProcessing s; activeJobs := activeJobs s;
     uuidsDrawn := uuidsDrawn s; suspended := suspended s; timers := n;
     emitted := emitted s; documentCache := documentCache s |}.

Definition set_emitted (f : list ProgressUpdate -> list ProgressUpdate)
    (s : Service) : Service :=
  {| objects := objects s; jobs := jobs s; jobQueue := jobQueue s;
     isProcessing := isProcessing s; activeJobs := activeJobs s;
     uuidsDrawn := uuidsDrawn s; suspended := suspended s; timers := timers s;
     emitted := f (emitted s); documentCache := documentCache s |}.

Definition set_documentCache (c : DocumentCache) (s : Service) : Service :=
  {| objects := objects s; jobs := jobs s; jobQueue := jobQueue s;
     isProcessing := isProcessing s; activeJobs := activeJobs s;
     uuidsDrawn := uuidsDrawn s; suspended := suspended s; timers := timers s;
     emitted := emitted s; documentCache := c |}.

(** Assignments to the fields of a job object. *)
Definition assign (st : JobStatus) (progress : nat) (message : string)
    (job : ProcessingJob) : ProcessingJob :=
  {| job_id := job_id job; job_files := job_files job; job_status := st;
     job_progress := progress; job_message := message;
     job_startTime := job_startTime job; job_endTime := job_endTime job;
     job_error := job_error job; job_result := job_result job;
     job_metadata := job_metadata job |}.

Definition assign_endTime (t : Z) (job : ProcessingJob) : ProcessingJob :=
  {| job_id := job_id job; job_files := job_files job;
     job_status := job_status job; job_progress := job_progress job;
     job_message := job_message job; job_startTime := job_startTime job;
     job_endTime := Some t; job_error := job_error job;
     job_result := job_result job; job_metadata := job_metadata job |}.

Definition assign_error (e : string) (job : ProcessingJob) : ProcessingJob :=
  {| job_id := job_id job; job_files := job_files job;
     job_status := job_status job; job_progress := job_progress job;
     job_message := job_message job; job_startTime := job_startTime job;
     job_endTime := job_endTime job; job_error := Some e;
     job_result := job_result job; job_metadata := job_metadata job |}.

Definition assign_result (r : JobResult) (job : ProcessingJob) : ProcessingJob :=
  {| job_id := job_id job; job_files := job_files job;
     job_status := job_status job; job_progress := job_progress job;
     job_message := job_message job; job_startTime := job_startTime job;
     job_endTime := job_endTime job; job_error := job_error job;
     job_result := Some r; job_metadata := job_metadata job |}.

Definition assign_metadata (f : JobMetadata -> JobMetadata)
    (job : ProcessingJob) : ProcessingJob :=
  {| job_id := job_id job; job_files := job_files job;
     job_status := job_status job; job_progress := job_progress job;
     job_message := job_message job; job_startTime := job_startTime job;
     job_endTime := job_endTime job; job_error := job_error job;
     job_result := job_result job; job_metadata := f (job_metadata job) |}.

(** [this.jobs.get(jobId)] *)
Definition getJob (jobId : nat) (s : Service) : option ProcessingJob :=
  if decide (jobId ∈ jobs s) then objects s !! jobId else None.

(** A write through the reference [job] held by a caller. *)
Definition update (jobId : nat) (f : ProcessingJob -> ProcessingJob)
    (s : Service) : Service :=
  set_objects (alter f jobId) s.

Definition progressOf (job : ProcessingJob) : ProgressUpdate :=
  {| upd_jobId := job_id job; upd_status := job_status job;
     upd_progress := job_progress job; upd_message := job_message job;
     upd_startTime := job_startTime job; upd_endTime := job_endTime job;
     upd_error := job_error job; upd_metadata := job_metadata job |}.

(** [this.emitProgress(job)] *)
Definition emitProgress (jobId : nat) (s : Service) : Service :=
  set_emitted
    (fun l => l ++ match objects s !! jobId with
                   | Some job => [progressOf job]
                   | None => [] (* not reached: objects are never freed *)
                   end)
    s.

(** [indexOf] followed by [splice(queueIndex, 1)]. *)
Fixpoint removeFirst (jobId : nat) (queue : list nat) : list nat :=
  match queue with
  | [] => []
  | x :: rest => if decide (x = jobId) then rest else x :: removeFirst jobId rest
  end.

Definition is_finished (st : JobStatus) : bool :=
  bool_decide (st = COMPLETE) || bool_decide (st = FAILED).

(** [cancelJob(jobId)] *)
Definition cancelJob (jobId : nat) (now : Z) (s : Service) : bool * Service :=
  match getJob jobId s with
  | None => (false, s)
  | Some job =>
      if is_finished (job_status job) then (false, s)
      else
        let s1 :=
          update jobId
            (fun j => assign CANCELLED 0 "Job cancelled by user"
                        (assign_endTime now j))
            s in
        let s2 := set_jobQueue (removeFirst jobId) s1 in
        (true, emitProgress jobId s2)
  end.

(** The part of [processJob] that runs before its first [await]. *)
Definition startJob (jobId : nat) (s : Service) : Service :=
  let s1 := update jobId (assign UPLOADING 5 "Initializing processing...") s in
  set_suspended (fun l => l ++ [(jobId, AwaitInitialize)]) (emitProgress jobId s1).

(** The part of [processQueue] that runs before its [await]. *)
Definition processQueue (s : Service) : Service :=
  if isProcessing s || (maxConcurrentJobs <=? activeJobs s) then s
  else
    match jobQueue s with
    | [] => s
    | jobId :: rest =>
        let s1 := set_jobQueue (fun _ => rest) s in
        match getJob jobId s1 with
        | None => s1
        | Some _ => startJob jobId (set_running true (activeJobs s1 + 1) s1)
        end
    end.

Definition emptyMetadata (files : nat) : JobMetadata :=
  {| filesProcessed := 0; totalFiles := files; chunksCreated := 0;
     chunksEmbedded := 0; chunksIndexed := 0; tokensProcessed := 0;
     duplicatesSkipped := 0 |}.

(** [createJob(files)]; the result is the new job id. *)
Definition createJob (files : list UploadedFile) (now : Z) (s : Service)
    : nat * Service :=
  let jobId := uuidsDrawn s in
  let job :=
    {| job_id := jobId; job_files := files; job_status := PENDING;
       job_progress := 0; job_message := "Job created, waiting to start...";
       job_startTime := now; job_endTime := None; job_error := None;
       job_result := None; job_metadata := emptyMetadata (length files) |} in
  let s1 := set_uuidsDrawn (jobId + 1) s in
  let s2 := set_objects (insert jobId job) s1 in
  let s3 := set_jobs (fun l => if decide (jobId ∈ l) then l else l ++ [jobId]) s2 in
  let s4 := set_jobQueue (fun q => q ++ [jobId]) s3 in
  (jobId, processQueue s4).

(** The [finally] block of [processQueue]. *)
Definition finishProcessing (s : Service) : Service :=
  let s1 := set_running false (Nat.pred (activeJobs s)) s in
  set_timers
    (if (0 <? length (jobQueue s1)) && (activeJobs s1 <? maxConcurrentJobs)
     then timers s1 + 1
     else timers s1)
    s1.

(** The [catch] block of [processQueue], followed by [finally]. *)
Definition failJob (jobId : nat) (message : option string) (now : Z)
    (s : Service) : Service :=
  let err :=
    match message with
    | Some m => m
    | None => "Unknown error"%string
    end in
  let s1 :=
    update jobId
      (fun j => assign_endTime now
                  (assign FAILED (job_progress j) ("Job failed: " +:+ err)
                     (assign_error err j)))
      s in
  finishProcessing (emitProgress jobId s1).

(** [Math.round(base + (current / total) * span)] for [total > 0]. *)
Definition roundedProgress (base span current total : nat) : nat :=
  (2 * base * total + 2 * span * current + total) / (2 * total).

Definition sumTokens (chunks : list DocumentChunk) : nat :=
  foldl (fun sum c => sum + tokens (metadata c)) 0 chunks.

Section Continuations.
Context {SHA : Sha256}.

(** Step 2 and the start of step 3 of [processJob]. *)
Definition afterInitialize (jobId : nat) (now : Z) (s : Service) : Service :=
  let s1 :=
    emitProgress jobId
      (update jobId (assign EXTRACTING 10 "Checking for duplicate files...") s) in
  let files :=
    match objects s1 !! jobId with
    | Some job => job_files job
    | None => []
    end in
  let filtered := Cache.filterDuplicateFiles now files (documentCache s1) in
  let cache' := filtered.2 in
  let unique := uniqueFiles filtered.1 in
  let skipped := length (duplicates filtered.1) in
  let s2 :=
    update jobId
      (assign_metadata (fun m =>
         {| filesProcessed := filesProcessed m; totalFiles := totalFiles m;
            chunksCreated := chunksCreated m; chunksEmbedded := chunksEmbedded m;
            chunksIndexed := chunksIndexed m; tokensProcessed := tokensProcessed m;
            duplicatesSkipped := skipped |}))
      (set_documentCache cache' s1) in
  match unique with
  | [] =>
      let s3 :=
        update jobId
          (fun j =>
             assign_result
               {| result_chunks := []; result_totalTokens := 0;
                  result_processingTime := now - job_startTime j;
                  result_duplicatesSkipped := skipped |}
               (assign_endTime now
                  (assign COMPLETE 100
                     "All files were duplicates - no processing needed" j)))
          s2 in
      finishProcessing (emitProgress jobId s3)
  | _ =>
      let s3 :=
        update jobId
          (assign CHUNKING 20
             ("Processing " +:+ JS.number_to_string (length unique)
              +:+ " unique files into chunks..."))
          s2 in
      set_suspended (fun l => l ++ [(jobId, AwaitProcessFiles unique)])
        (emitProgress jobId s3)
  end.

(** The start of step 4. *)
Definition afterProcessFiles (jobId : nat) (unique : list UploadedFile)
    (chunks : list DocumentChunk) (s : Service) : Service :=
  let s1 :=
    update jobId
      (fun j =>
         assign EMBEDDING 40
           ("Generating embeddings for " +:+ JS.number_to_string (length chunks)
            +:+ " chunks...")
           (assign_metadata (fun m =>
              {| filesProcessed := filesProcessed m; totalFiles := totalFiles m;
                 chunksCreated := length chunks;
                 chunksEmbedded := chunksEmbedded m;
                 chunksIndexed := chunksIndexed m;
                 tokensProcessed := sumTokens chunks;
                 duplicatesSkipped := duplicatesSkipped m |}) j))
      s in
  set_suspended (fun l => l ++ [(jobId, AwaitEmbeddings unique chunks)])
    (emitProgress jobId s1).

(** The start of step 5. *)
Definition afterEmbeddings (jobId : nat) (unique : list UploadedFile)
    (embedded : list DocumentChunk) (s : Service) : Service :=
  let s1 :=
    update jobId
      (assign INDEXING 70
         ("Indexing " +:+ JS.number_to_string (length embedded)
          +:+ " chunks in vector database..."))
      s in
  set_suspended (fun l => l ++ [(jobId, AwaitIndexing unique embedded)])
    (emitProgress jobId s1).

(** Steps 6 and 7. *)
Definition afterIndexing (jobId : nat) (unique : list UploadedFile)
    (embedded : list DocumentChunk) (now : Z) (s : Service) : Service :=
  let s1 :=
    emitProgress jobId
      (update jobId
         (fun j => assign (job_status j) 95 "Caching processed documents..." j) s) in
  let cache' :=
    foldl (fun cache file =>
             Cache.registerProcessedDocument now file
               (filter (fun c => source (metadata c) = name file) embedded) cache)
          (documentCache s1) unique in
  let s2 :=
    update jobId
      (fun j =>
         let m := job_metadata j in
         assign_result
           {| result_chunks := embedded;
              result_totalTokens := tokensProcessed m;
              result_processingTime := now - job_startTime j;
              result_duplicatesSkipped := duplicatesSkipped m |}
           (assign_metadata (fun m =>
              {| filesProcessed := length unique; totalFiles := totalFiles m;
                 chunksCreated := chunksCreated m;
                 chunksEmbedded := chunksEmbedded m;
                 chunksIndexed := chunksIndexed m;
                 tokensProcessed := tokensProcessed m;
                 duplicatesSkipped := duplicatesSkipped m |})
              (assign_endTime now
                 (assign COMPLETE 100
                    ("Successfully processed "
                     +:+ JS.number_to_string (length unique) +:+ " files ("
                     +:+ JS.number_to_string (length embedded) +:+ " chunks)")
                    j))))
      (set_documentCache cache' s1) in
  finishProcessing (emitProgress jobId s2).

(** The continuation of a suspended [processJob] once its promise has
    settled; a settlement of the wrong kind leaves the call suspended. *)
Definition continue (jobId : nat) (point : AwaitPoint) (r : Settled) (now : Z)
    (s : Service) : option Service :=
  match r, point with
  | Rejected message, _ => Some (failJob jobId message now s)
  | Resolved, AwaitInitialize => Some (afterInitialize jobId now s)
  | ResolvedChunks chunks, AwaitProcessFiles unique =>
      Some (afterProcessFiles jobId unique chunks s)
  | ResolvedChunks embedded, AwaitEmbeddings unique _ =>
      Some (afterEmbeddings jobId unique embedded s)
  | Resolved, AwaitIndexing unique embedded =>
      Some (afterIndexing jobId unique embedded now s)
  | _, _ => None
  end.

Fixpoint lookupSuspended (jobId : nat) (l : list (nat * AwaitPoint))
    : option (AwaitPoint * list (nat * AwaitPoint)) :=
  match l with
  | [] => None
  | (j, p) :: rest =>
      if decide (j = jobId) then Some (p, rest)
      else
        '(q, rest') ← lookupSuspended jobId rest;
        Some (q, (j, p) :: rest')
  end.

Definition settle (jobId : nat) (r : Settled) (now : Z) (s : Service) : Service :=
  match lookupSuspended jobId (suspended s) with
  | Some (point, rest) =>
      match continue jobId point r now (set_suspended (fun _ => rest) s) with
      | Some s' => s'
      | None => s
      end
  | None => s
  end.

(** The progress callback passed to [generateChunkEmbeddings]. *)
Definition embeddingProgress (jobId current total failed : nat) (s : Service)
    : Service :=
  match lookupSuspended jobId (suspended s) with
  | Some (AwaitEmbeddings _ _, _) =>
      emitProgress jobId
        (update jobId
           (fun j =>
              assign (job_status j) (roundedProgress 40 30 current total)
                ("Generating embeddings: " +:+ JS.number_to_string current
                 +:+ "/" +:+ JS.number_to_string total +:+ " ("
                 +:+ JS.number_to_string failed +:+ " failed)")
                (assign_metadata (fun m =>
                   {| filesProcessed := filesProcessed m;
                      totalFiles := totalFiles m;
                      chunksCreated := chunksCreated m;
                      chunksEmbedded := current;
                      chunksIndexed := chunksIndexed m;
                      tokensProcessed := tokensProcessed m;
                      duplicatesSkipped := duplicatesSkipped m |}) j))
           s)
  | _ => s
  end.

(** The progress callback passed to [indexChunks]. *)
Definition indexingProgress (jobId indexed total : nat) (s : Service) : Service :=
  match lookupSuspended jobId (suspended s) with
  | Some (AwaitIndexing _ _, _) =>
      emitProgress jobId
        (update jobId
           (fun j =>
              assign (job_status j) (roundedProgress 70 25 indexed total)
                ("Indexing: " +:+ JS.number_to_string indexed +:+ "/"
                 +:+ JS.number_to_string total +:+ " chunks")
                (assign_metadata (fun m =>
                   {| filesProcessed := filesProcessed m;
                      totalFiles := totalFiles m;
                      chunksCreated := chunksCreated m;
                      chunksEmbedded := chunksEmbedded m;
                      chunksIndexed := indexed;
                      tokensProcessed := tokensProcessed m;
                      duplicatesSkipped := duplicatesSkipped m |}) j))
           s)
  | _ => s
  end.

(** [sort(([, a], [, b]) => a.startTime - b.startTime)] on the entries. *)
Definition startTimeOf (s : Service) (jobId : nat) : Z :=
  match objects s !! jobId with
  | Some job => job_startTime job
  | None => 0
  end.

Fixpoint insertByStart (s : Service) (x : nat) (l : list nat) : list nat :=
  match l with
  | [] => [x]
  | y :: rest =>
      if (startTimeOf s y <? startTimeOf s x)%Z
      then y :: insertByStart s x rest
      else x :: l
  end.

(** [cleanupOldJobs()] *)
Definition cleanupOldJobs (now : Z) (s : Service) : Service :=
  let expired jobId :=
    match objects s !! jobId with
    | Some job =>
        is_finished (job_status job) && (maxAge <? now - job_startTime job)%Z
    | None => false
    end in
  let kept := filter (fun jobId => expired jobId = false) (jobs s) in
  if MAX_JOBS_HISTORY <? length kept then
    let sortedJobs := foldr (insertByStart s) [] kept in
    let toRemove := JS.slice 0 (length sortedJobs - MAX_JOBS_HISTORY) sortedJobs in
    set_jobs (fun _ => filter (fun jobId => jobId ∉ toRemove) kept) s
  else set_jobs (fun _ => kept) s.

(** What can happen to the service: calls of its public methods, timers
    that fire and promises that settle. *)
Inductive Action :=
  | CreateJob (files : list UploadedFile) (now : Z)
  | CancelJob (jobId : nat) (now : Z)
  | QueueTimer
  | Settle (jobId : nat) (r : Settled) (now : Z)
  | EmbeddingProgress (jobId current total failed : nat)
  | IndexingProgress (jobId indexed total : nat)
  | CleanupTimer (now : Z).

Definition step (a : Action) (s : Service) : Service :=
  match a with
  | CreateJob files now => (createJob files now s).2
  | CancelJob jobId now => (cancelJob jobId now s).2
  | QueueTimer =>
      match timers s with
      | 0 => s
      | S n => processQueue (set_timers n s)
      end
  | Settle jobId r now => settle jobId r now s
  | EmbeddingProgress jobId current total failed =>
      embeddingProgress jobId current total failed s
  | IndexingProgress jobId indexed total => indexingProgress jobId indexed total s
  | CleanupTimer now => cleanupOldJobs now s
  end.

Definition run (actions : list Action) (s : Service) : Service :=
  foldl (fun s a => step a s) s actions.

End Continuations.
End Jobs.

(** ** Retries and circuit breaker (utilities of backgroundProcessing.ts) *)

(** [retry(fn, attempts, baseDelay)] *)
Module Retry.
Section Retry.
Context {E A : Type}.
(** [fn k] is how the [k]-th call of [fn] settles: [inl err] is a
    rejection with reason [err]. *)
Variable fn : nat -> E + A.
Variable baseDelay : nat.

Record Run := {
  result : option E + A;
  calls : nat;
  sleeps : list nat
}.

(** [for (let i = 0; i < attempts; i++)], with [remaining = attempts - i];
    the test [i < attempts - 1] is [0 < remaining - 1].  A loop that ends
    throws [lastError], which is [undefined] when [fn] was never
    called. *)
Fixpoint retryLoop (remaining i : nat) (lastError : option E)
    (slept : list nat) : Run :=
  match remaining with
  | 0 => {| result := inl lastError; calls := i; sleeps := slept |}
  | S r =>
      match fn i with
      | inr value => {| result := inr value; calls := i + 1; sleeps := slept |}
      | inl err =>
          retryLoop r (i + 1) (Some err)
            (if 0 <? r then slept ++ [baseDelay * 2 ^ i] else slept)
      end
  end.

Definition retry (attempts : nat) : Run := retryLoop attempts 0 None [].

End Retry.
End Retry.

(** A thrown value: a [RAGError] or another [Error]. *)
Inductive Failure :=
  | RAGError (message code : string) (statusCode : nat)
  | OtherError (message : string).

Definition INVALID_API_KEY : string := "INVALID_API_KEY".
Definition SERVICE_UNAVAILABLE : string := "SERVICE_UNAVAILABLE".

Module RetryHandler.
Section WithRetry.
Context {A : Type}.
(** [operation k] is how the [k]-th call of [operation] settles. *)
Variable operation : nat -> Failure + A.
Variable errorHandler : option (Failure -> Failure).

(** The errors that are thrown again at once. *)
Definition notRetried (error : Failure) : bool :=
  match error with
  | RAGError _ code statusCode =>
      bool_decide (code = INVALID_API_KEY) || (statusCode <? 500)
  | OtherError _ => false
  end.

(** [for (let attempt = 0; attempt <= maxRetries; attempt++)], with
    [remaining = maxRetries - attempt]; the result is paired with the
    number of calls of [operation].  The delays, which are random, are
    left out. *)
Fixpoint withRetryLoop (remaining attempt : nat) : (Failure + A) * nat :=
  match operation attempt with
  | inr value => (inr value, attempt + 1)
  | inl error =>
      if notRetried error then (inl error, attempt + 1)
      else
        match remaining with
        | 0 =>
            (inl (match errorHandler with
                  | Some handler => handler error
                  | None => error
                  end), attempt + 1)
        | S r => withRetryLoop r (attempt + 1)
        end
  end.

Definition withRetry (maxRetries : nat) : (Failure + A) * nat :=
  withRetryLoop maxRetries 0.

End WithRetry.
End RetryHandler.

Inductive BreakerState := CLOSED | OPEN | HALF_OPEN.

#[global] Instance BreakerState_eq_dec : EqDecision BreakerState.
Proof. solve_decision. Defined.

Record Breaker := {
  failures : nat;
  lastFailureTime : Z;
  state : BreakerState
}.

Module CircuitBreaker.

Definition initial : Breaker :=
  {| failures := 0; lastFailureTime := 0; state := CLOSED |}.

Section Breaker.
Variable threshold : nat.
Variable timeout : Z.

(** The start of [execute], up to the call of [operation]: [None] when
    the breaker throws the [SERVICE_UNAVAILABLE] error instead of calling
    it; [now] is the value of [Date.now()]. *)
Definition enter (now : Z) (b : Breaker) : option Breaker :=
  match state b with
  | OPEN =>
      if (timeout <? now - lastFailureTime b)%Z
      then Some {| failures := failures b;
                   lastFailureTime := lastFailureTime b;
                   state := HALF_OPEN |}
      else None
  | _ => Some b
  end.

Definition onSuccess (b : Breaker) : Breaker :=
  {| failures := 0; lastFailureTime := lastFailureTime b; state := CLOSED |}.

Definition onFailure (now : Z) (b : Breaker) : Breaker :=
  let count := failures b + 1 in
  {| failures := count; lastFailureTime := now;
     state := if threshold <=? count then OPEN else state b |}.

(** [execute(operation)] for an operation that settles before the next
    call: [operation] is its settlement, [inl error] a rejection; [now]
    and [later] are the readings of [Date.now()] at the start and in
    [onFailure].  The result tells whether the operation was called. *)
Definition execute {A} (now later : Z) (operation : Failure + A) (b : Breaker)
    : (Failure + A) * bool * Breaker :=
  match enter now b with
  | None =>
      (inl (RAGError "Service temporarily unavailable (circuit breaker open)"
              SERVICE_UNAVAILABLE 503), false, b)
  | Some entered =>
      match operation with
      | inr value => (inr value, true, onSuccess entered)
      | inl error => (inl error, true, onFailure later entered)
      end
  end.

(** What happens to a breaker shared by calls that may overlap: a call
    starts, or the operation of a call that was let through settles. *)
Inductive Event :=
  | Start (now : Z)
  | Succeed
  | Fail (now : Z).

Definition step (b : Breaker) (e : Event) : Breaker :=
  match e with
  | Start now => default b (enter now b)
  | Succeed => onSuccess b
  | Fail now => onFailure now b
  end.

End Breaker.
End CircuitBreaker.

(** * Vocabulary of the properties *)

(** ** Chunks *)

Definition indexOf (c : DocumentChunk) : nat := chunkIndex (metadata c).
Definition totalOf (c : DocumentChunk) : nat := totalChunks (metadata c).

(** The chunks built so far are numbered from [start] on, and [loopIndex]
    is the next number. *)
Definition numbered (start : nat) (st : Chunker.LoopState) : Prop :=
  indexOf <$> Chunker.chunks st = seq start (length (Chunker.chunks st))
  /\ Chunker.loopIndex st = start + length (Chunker.chunks st).

(** ** Cache *)

(** The key under which a file is tracked and registered. *)
Definition hashKey {SHA : Sha256} (f : UploadedFile) : string :=
  JS.or_string (contentHash f) (Cache.calculateContentHash (file_content f)).

(** ** Retrieval *)

(** Results in score-descending order: every result scores at least as
    much as those after it. *)
Definition descending (l : list RetrievalResult) : Prop :=
  StronglySorted (fun a b => (score b <= score a)%Q) l.

(** Every call of the provider for [text] returns a vector of dimension
    [D] that has a component other than 0. *)
Definition embeds {EP : EmbeddingProvider} (D : nat) (text : string) : Prop :=
  forall call,
    exists e, embedContent (JS.newlines_to_spaces text) call = Some e
              /\ length e = D
              /\ Exists (fun x => ~ (x == 0)%Q) e.

Definition embeddable {EP : EmbeddingProvider} (D : nat)
    (l : list RetrievalResult) : Prop :=
  Forall (fun r => embeds D (content (chunk r))) l.

(** ** Citations *)

Definition docIdOf (r : RetrievalResult) : string := documentId (metadata (chunk r)).

(** The citation of the result of rank [citationId]. *)
Definition citationOf (citationId : nat) (r : RetrievalResult) : Citation :=
  {| cit_id := citationId; cit_text := content (chunk r);
     cit_source := source (metadata (chunk r));
     cit_section := section (metadata (chunk r));
     cit_position := position (metadata (chunk r)) |}.

(** The citations and the context entries of the results ranked
    [k + 1, k + 2, ...]. *)
Fixpoint citationsFrom (k : nat) (results : list RetrievalResult) : list Citation :=
  match results with
  | [] => []
  | r :: rest => citationOf (k + 1) r :: citationsFrom (k + 1) rest
  end.

(** The decimal numeral of [n], as the standard library writes it. *)
Definition decimal (n : nat) : string :=
  DecimalString.NilEmpty.string_of_uint (Nat.to_uint n).

(** Two line feeds: the end of a line followed by an empty line. *)
Definition blankLine : string := String "010" (String "010" EmptyString).

(** The context entry of the result of rank [i]: the tag [[i]], a space,
    the text of the result and an empty line. *)
Definition taggedEntry (i : nat) (text : string) : string :=
  "[" +:+ decimal i +:+ "] " +:+ text +:+ blankLine.

Fixpoint entriesFrom (k : nat) (results : list RetrievalResult) : string :=
  match results with
  | [] => EmptyString
  | r :: rest =>
      taggedEntry (k + 1) (content (chunk r)) +:+ entriesFrom (k + 1) rest
  end.

Definition chunkIds (m : list (string * SourceDocument)) : list nat :=
  concat ((fun kv => relevantChunks kv.2) <$> m).

(** What the loop has built after the results of rank [1 .. k]: the keys
    of the source map are distinct, each source is filed under its own
    id, and lists ranks of results of that document only. *)
Definition grouped (all : list RetrievalResult)
    (m : list (string * SourceDocument)) : Prop :=
  NoDup m.*1
  /\ Forall (fun kv =>
       src_id kv.2 = kv.1
       /\ Forall (fun cid =>
            1 <= cid /\ docIdOf <$> all !! (cid - 1) = Some kv.1)
            (relevantChunks kv.2)) m.

(** A response is the fixed no-answer response when it carries the fixed
    message and neither citations nor sources. *)
Definition insufficient (r : QueryResult) : Prop :=
  answer r = LLM.NO_ANSWER /\ citations r = [] /\ sources r = [].

(** ** Jobs *)

(** The jobs whose processing is suspended at an [await]. *)
Definition suspendedIds (s : Jobs.Service) : list nat := (Jobs.suspended s).*1.

Definition statusOf (s : Jobs.Service) (jobId : nat) : option JobStatus :=
  job_status <$> Jobs.objects s !! jobId.

(** What holds of every state of the service: queued and suspended jobs
    have been created, no job is queued twice, a suspended job is past
    [PENDING], and a job object carries the id it is stored under. *)
Record consistent (s : Jobs.Service) : Prop := {
  queue_created : Forall (fun j => j < Jobs.uuidsDrawn s) (Jobs.jobQueue s);
  queue_NoDup : NoDup (Jobs.jobQueue s);
  suspended_started :
    Forall (fun j => j < Jobs.uuidsDrawn s /\ statusOf s j <> Some PENDING)
           (suspendedIds s);
  objects_created :
    forall j job, Jobs.objects s !! j = Some job ->
                  job_id job = j /\ j < Jobs.uuidsDrawn s
}.

(** [s'] differs from [s] by writes to the job object [i] that keep its id
    and do not make it [PENDING], by events about it, by its suspension,
    and in the fields that no property below reads. *)
Definition advances (i : nat) (s s' : Jobs.Service) : Prop :=
  Jobs.jobQueue s' = Jobs.jobQueue s
  /\ Jobs.jobs s' = Jobs.jobs s
  /\ Jobs.uuidsDrawn s' = Jobs.uuidsDrawn s
  /\ (forall x, x <> i -> Jobs.objects s' !! x = Jobs.objects s !! x)
  /\ (forall job', Jobs.objects s' !! i = Some job' ->
        exists job, Jobs.objects s !! i = Some job
                    /\ job_id job' = job_id job
                    /\ (job_status job' = PENDING -> job_status job = PENDING))
  /\ (forall x, x ∈ suspendedIds s' -> x ∈ suspendedIds s \/ x = i)
  /\ exists new, Jobs.emitted s' = Jobs.emitted s ++ new
                 /\ ((forall job, Jobs.objects s !! i = Some job -> job_id job = i) ->
                     Forall (fun e => upd_jobId e = i) new).

(** A [PENDING] job of the map is in the queue. *)
Definition pending_queued (s : Jobs.Service) : Prop :=
  forall x job,
    Jobs.getJob x s = Some job -> job_status job = PENDING ->
    x ∈ Jobs.jobQueue s.

(** Job [j] is cancelled and neither queued nor suspended. *)
Definition retired (j : nat) (s : Jobs.Service) : Prop :=
  (j ∉ Jobs.jobQueue s) /\ (j ∉ suspendedIds s) /\ j < Jobs.uuidsDrawn s
  /\ statusOf s j = Some CANCELLED.

(** The events about job [j] among [events] only report the
    cancellation. *)
Definition only_cancelled (j : nat) (events : list ProgressUpdate) : Prop :=
  Forall (fun e => upd_jobId e = j -> upd_status e = CANCELLED) events.

Definition quiet_after (j : nat) (s s' : Jobs.Service) : Prop :=
  retired j s'
  /\ exists later, Jobs.emitted s' = Jobs.emitted s ++ later
                   /\ only_cancelled j later.

(** ** Embeddings *)

(** What the provider returns for [text] at the first attempt. *)
Definition embedOnce {EP : EmbeddingProvider} (text : string) : option Embedding :=
  embedContent (JS.newlines_to_spaces text) 0.

(** ** Chunks of a file *)

(** What [createTokenBasedChunks] guarantees of a chunk it builds from
    [base]: a text that is not empty, counted by the tokenizer, of at
    least [minChunkLength] tokens, and the metadata of [base]. *)
Definition chunkOfBase {TK : Tokenizer} (cfg : ChunkingConfig)
    (base : Chunker.BaseMetadata) (c : DocumentChunk) : Prop :=
  content c <> ""%string
  /\ tokens (metadata c) = countTokens (content c)
  /\ minChunkLength cfg <= tokens (metadata c)
  /\ source (metadata c) = Chunker.base_source base
  /\ documentId (metadata c) = Chunker.base_documentId base
  /\ section (metadata c) = Some (Chunker.base_section base)
  /\ embedding c = None.

(** The invariant of the chunking loop started with [first] identifiers
    drawn and no chunk: the chunks are well formed, carry the
    identifiers drawn since, and are at most [maxChunksPerDocument]. *)
Definition loopInvariant {TK : Tokenizer} {US : UuidSource}
    (cfg : ChunkingConfig) (base : Chunker.BaseMetadata) (first : nat)
    (st : Chunker.LoopState) : Prop :=
  Forall (chunkOfBase cfg base) (Chunker.chunks st)
  /\ id <$> Chunker.chunks st
     = (fun k => uuidv4 (first + k)) <$> seq 0 (length (Chunker.chunks st))
  /\ Chunker.uuids st = first + length (Chunker.chunks st)
  /\ length (Chunker.chunks st) <= maxChunksPerDocument cfg.

(** The metadata that [processFile] hands to the chunking of a section. *)
Definition baseOf {TH : TextHelpers} (file : UploadedFile) (docId stamp : string)
    (sec : DocSection) : Chunker.BaseMetadata :=
  {| Chunker.base_source := name file;
     Chunker.base_title := extractTitle (name file);
     Chunker.base_section := sec_title sec;
     Chunker.base_documentId := docId;
     Chunker.base_timestamp := stamp;
     Chunker.base_fileType := getFileType (name file);
     Chunker.base_position := sec_position sec |}.

(** What [processFile] guarantees of a chunk of [file] when [docId] is the
    identifier drawn for the document. *)
Definition chunkOfFile {TK : Tokenizer} (cfg : ChunkingConfig)
    (file : UploadedFile) (docId : string) (c : DocumentChunk) : Prop :=
  content c <> ""%string
  /\ tokens (metadata c) = countTokens (content c)
  /\ minChunkLength cfg <= tokens (metadata c)
  /\ source (metadata c) = name file
  /\ documentId (metadata c) = docId
  /\ embedding c = None.


(** ** Cache entries *)

(** Every entry of the cache is stored under its own hash. *)
Definition keyed (cache : DocumentCache) : Prop :=
  forall h entry, documentHashes cache !! h = Some entry -> entry_hash entry = h.

(** The hash of the content of a chunk. *)
Definition chunkHashOf {SHA : Sha256} (c : DocumentChunk) : string :=
  Cache.calculateContentHash (content c).

(** Position [i] of [chunks] holds a chunk whose digest the cache does
    not know and that no earlier chunk carries. *)
Definition firstUncached {SHA : Sha256} (cache : DocumentCache)
    (chunks : list DocumentChunk) (i : nat) : Prop :=
  exists c, chunks !! i = Some c
            /\ (chunkHashOf c ∉ chunkHashes cache)
            /\ forall j c', j < i -> chunks !! j = Some c' ->
                            chunkHashOf c' <> chunkHashOf c.

(** ** Reranked results *)

(** Results in descending order of their reranked score. *)
Definition rerankedDescending (l : list RetrievalResult) : Prop :=
  StronglySorted
    (fun a b => (Reranker.rerankedOrZero b <= Reranker.rerankedOrZero a)%Q) l.

(** The results of document [d] among [l]. *)
Definition ofDocument (d : string) (l : list RetrievalResult)
    : list RetrievalResult :=
  filter (fun r => docIdOf r = d) l.

(** ** Streamed answers *)

(** The text of a streamed chunk, [delta.content || '']. *)
Definition deltaText (delta : option string) : string := JS.or_string delta "".

(** The concatenation of the pieces of a streamed answer. *)
Definition joined (pieces : list string) : string :=
  foldr String.append EmptyString pieces.

(** ** Jobs in progress *)

(** At most one job is being processed: the calls of [processJob] that
    are suspended are as many as [activeJobs] counts, and that is 1 while
    [isProcessing] holds and 0 otherwise. *)
Definition exclusive (s : Jobs.Service) : Prop :=
  length (Jobs.suspended s) = Jobs.activeJobs s
  /\ Jobs.activeJobs s = (if Jobs.isProcessing s then 1 else 0).

(** Queued jobs are [PENDING], and no job that is being processed is
    [COMPLETE] or [FAILED]. *)
Definition orderly (s : Jobs.Service) : Prop :=
  Forall (fun j => statusOf s j = Some PENDING) (Jobs.jobQueue s)
  /\ Forall (fun j => forall st, statusOf s j = Some st ->
                                 Jobs.is_finished st = false) (suspendedIds s).

(** ** Job orchestrator: one job at a time *)
(** Job [jobId] is finished and was started more than [maxAge] before
    [now]. *)
Definition expiredAt (now : Z) (s : Jobs.Service) (jobId : nat) : Prop :=
  exists job, Jobs.objects s !! jobId = Some job
              /\ Jobs.is_finished (job_status job) = true
              /\ (Jobs.maxAge < now - job_startTime job)%Z.

(** ** Retries and circuit breaker *)

(** The delays slept after the failures [0 .. n - 1]. *)
Definition backoff (baseDelay : nat) (n : nat) : list nat :=
  (fun i => baseDelay * 2 ^ i) <$> seq 0 n.

(** The failures reported to a circuit breaker since the last success. *)
Definition failuresSinceSuccess (events : list CircuitBreaker.Event) : nat :=
  foldl (fun n e =>
           match e with
           | CircuitBreaker.Succeed => 0
           | CircuitBreaker.Fail _ => n + 1
           | CircuitBreaker.Start _ => n
           end) 0 events.

(** * Example inputs *)

(** A batch of 100 one-character texts; the provider fails on the texts of
    indices 10 and 55 at every attempt and returns a one-component vector
    holding the character code otherwise. *)
Module Batch100.

Definition textOf (i : nat) : string := String (ascii_of_nat (100 + i)) EmptyString.

Definition vectorOf (i : nat) : Embedding := [inject_Z (Z.of_nat (100 + i))].

Definition chunkOf (i : nat) : DocumentChunk :=
  {| id := textOf i; content := textOf i;
     metadata :=
       {| source := "a.txt"; title := "a"; section := None; position := i;
          chunkIndex := i; totalChunks := 100; documentId := "doc";
          timestamp := ""; fileType := "text"; tokens := 1 |};
     embedding := None |}.

Definition chunks : list DocumentChunk := chunkOf <$> seq 0 100.

Definition provider : EmbeddingProvider :=
  {| embedContent text attempt :=
       match text with
       | String c EmptyString =>
           let n := nat_of_ascii c in
           if (n =? 110) || (n =? 155) then None
           else Some [inject_Z (Z.of_nat n)]
       | _ => None
       end |}.

(** [config.embeddings] of config.ts. *)
Definition cfg : EmbeddingConfig :=
  {| batchSize := 30; parallelBatches := 8; maxRetries := 1 |}.

Definition run : option Embeddings.EmbeddingsRun :=
  Embeddings.generateEmbeddings_run (EP := provider) cfg 100 (content <$> chunks).

Definition out : option (list DocumentChunk) :=
  Embeddings.generateChunkEmbeddings (EP := provider) cfg 100 chunks.

Definition embeddingOf (i : nat) : option Embedding :=
  Embeddings.generateEmbedding (EP := provider) cfg (textOf i).

End Batch100.

(** A markdown file with two headings and nothing else: its sections are
    the two heading lines, each of 202 characters. *)
Module TwoSections.

Fixpoint repeat_char (c : ascii) (n : nat) : string :=
  match n with
  | 0 => EmptyString
  | S n' => String c (repeat_char c n')
  end.

Definition heading (c : ascii) : string := "# " +:+ repeat_char c 200.

Definition document : string := heading "a" +:+ newline +:+ heading "b".

Definition file : UploadedFile :=
  {| name := "notes.md"; size := 405; type := "text/markdown";
     file_content := document; lastModified := 0; contentHash := None |}.

(** The tokenizer is the approximation of [countTokens]. *)
Definition tokenizer : Tokenizer :=
  {| countTokens := Chunker.approximateTokens |}.

Definition uuidSource : UuidSource :=
  {| uuidv4 n := "uuid-" +:+ JS.number_to_string n |}.

(** What the helpers return on [file]: the text is already normalized;
    the markdown pattern matches at offsets 0 and 203, so the sections are
    the trimmed slices [0, 203) and [203, 405), titled by the heading
    text. *)
Definition helpers : TextHelpers :=
  {| cleanText s := s;
     extractSections content fileName :=
       [ {| sec_title := repeat_char "a" 200; sec_content := heading "a";
            sec_position := 0 |};
         {| sec_title := repeat_char "b" 200; sec_content := heading "b";
            sec_position := 1 |} ];
     extractTitle fileName := "notes";
     getFileType fileName := "markdown" |}.

Definition result : option (list DocumentChunk * nat) :=
  Chunker.processFile (TK := tokenizer) (US := uuidSource) (TH := helpers)
    config_chunking file "2025-01-01T00:00:00.000Z" 0.

End TwoSections.

(** A stand-in for the digest: injective, and of non-empty value. *)
Module DemoDigest.

Definition sha : Sha256 := {| sha256_hex s := "sha256:" +:+ s |}.

Definition hello : UploadedFile :=
  {| name := "a.txt"; size := 5; type := "text/plain";
     file_content := "hello"; lastModified := 0; contentHash := None |}.

(** The file built by the upload route from the pasted text
    ["hello" + newline]: the content is trimmed, the hash is not. *)
Definition pasted : UploadedFile :=
  {| name := "pasted-text.txt"; size := 6; type := "text/plain";
     file_content := "hello"; lastModified := 0;
     contentHash := Some (sha256_hex (Sha256 := sha) ("hello" +:+ newline)) |}.

End DemoDigest.

Module MMRExample.

Definition resultOf (text : string) (s : Q) : RetrievalResult :=
  {| chunk :=
       {| id := text; content := text;
          metadata :=
            {| source := "a.txt"; title := "a"; section := None; position := 0;
               chunkIndex := 0; totalChunks := 1; documentId := "doc";
               timestamp := ""; fileType := "text"; tokens := 1 |};
          embedding := None |};
     score := s; rerankedScore := None |}.

(** Four candidates in descending order, two of them with equal scores. *)
Definition candidates : list RetrievalResult :=
  [resultOf "A" (9 # 10); resultOf "B" (8 # 10); resultOf "C" (8 # 10);
   resultOf "D" (5 # 10)].

Definition provider : EmbeddingProvider :=
  {| embedContent text attempt := Some [inject_Z (Z.of_nat (String.length text)); 1%Q] |}.

Definition kernel : CosineKernel := {| cosine e1 e2 := 1%Q |}.

Definition search : VectorSearch :=
  {| retrieve query topK := Some (take topK candidates) |}.

End MMRExample.

(** Two providers that break the embedding of candidate ["B"]: with the
    first every call for it throws, with the second every call for it
    returns the zero vector. *)
Module MMRBroken.

Definition throwing : EmbeddingProvider :=
  {| embedContent text attempt :=
       if String.eqb text "B" then None
       else Some [inject_Z (Z.of_nat (String.length text)); 1%Q] |}.

Definition zero : EmbeddingProvider :=
  {| embedContent text attempt :=
       if String.eqb text "B" then Some [0%Q; 0%Q]
       else Some [inject_Z (Z.of_nat (String.length text)); 1%Q] |}.

End MMRBroken.

Module RerankExample.

(** A reranking service that rejects every call. *)
Definition failing : RerankService := {| cohere_rerank query documents topN := None |}.

End RerankExample.

Module QueryExample.

(** A vector index without matches. *)
Definition emptyIndex : VectorSearch := {| retrieve query topK := Some [] |}.

Definition generation : GenerationService :=
  {| chat_completion request :=
       Some {| completion_content := Some "answer [1]"%string;
               prompt_tokens := Some 10; completion_tokens := Some 3;
               total_tokens := Some 13 |} |}.

Definition costs : CostModel := {| getRerankingCost n := 0%Q |}.

Definition noOptions : QueryOptions :=
  {| useMMR := None; useReranking := None; topK := None;
     opt_rerankedK := None; includeMetrics := None |}.

End QueryExample.

Module JobsExample.

Definition fileOf (text : string) : UploadedFile :=
  {| name := text; size := 1; type := "text/plain"; file_content := text;
     lastModified := 0; contentHash := None |}.

(** Two uploads: job 0 is started at once, job 1 waits in the queue. *)
Definition before : list Jobs.Action :=
  [Jobs.CreateJob [fileOf "a"] 10; Jobs.CreateJob [fileOf "b"] 20].

(** Job 0 runs to completion, the queue timer fires, a third upload
    arrives and the clean-up runs. *)
Definition after : list Jobs.Action :=
  [Jobs.Settle 0 Jobs.Resolved 40; Jobs.Settle 0 (Jobs.ResolvedChunks []) 50;
   Jobs.Settle 0 (Jobs.ResolvedChunks []) 60; Jobs.Settle 0 Jobs.Resolved 70;
   Jobs.QueueTimer; Jobs.CreateJob [fileOf "c"] 80; Jobs.Settle 1 Jobs.Resolved 90;
   Jobs.CleanupTimer 100].

Definition queued : Jobs.Service :=
  Jobs.run (SHA := DemoDigest.sha) before Jobs.initial.

Definition cancelled : Jobs.Service := (Jobs.cancelJob 1 30 queued).2.

Definition final : Jobs.Service :=
  Jobs.run (SHA := DemoDigest.sha) after cancelled.

End JobsExample.

(** The chunks of the two-section file, alone and as a batch of one
    file. *)
Module ChunkedExample.

Definition stamp (k : nat) : string := "2025-01-01T00:00:00.000Z".

Definition chunks : list DocumentChunk := default [] (fst <$> TwoSections.result).

Definition uuids : nat := default 0 (snd <$> TwoSections.result).

Definition batch : option (list DocumentChunk * nat) :=
  Chunker.processFiles (TK := TwoSections.tokenizer) (US := TwoSections.uuidSource)
    (TH := TwoSections.helpers) config_chunking [TwoSections.file] stamp 0.

Definition batchChunks : list DocumentChunk := default [] (fst <$> batch).

Definition batchUuids : nat := default 0 (snd <$> batch).

End ChunkedExample.

(** A cache that holds one document. *)
Module CacheExample.

Definition cache : DocumentCache :=
  Cache.registerProcessedDocument (SHA := DemoDigest.sha) 0 DemoDigest.hello []
    Cache.empty.

End CacheExample.

(** A reranking service that prefers the second document to the first. *)
Module RerankAnswer.

Definition hits : list RerankHit :=
  [ {| hit_index := 1; relevanceScore := 9 # 10 |};
    {| hit_index := 0; relevanceScore := 4 # 10 |} ].

Definition service : RerankService :=
  {| cohere_rerank query documents topN := Some (take topN hits) |}.

End RerankAnswer.

(** A stream of four chunks, one without content and one with an empty
    content, that ends normally. *)
Module StreamExample.

Definition deltas : list (option string) :=
  [Some "Hello"; None; Some ""; Some " world"]%string.

Definition service : StreamingService :=
  {| chat_stream request := Some (deltas, true) |}.

End StreamExample.

(** Job 0 runs to completion while job 1 waits; afterwards the queue
    timer fires, job 0 is cancelled and settled again, and the clean-up
    runs. *)
Module FinishedExample.

Definition before : list Jobs.Action :=
  JobsExample.before
  ++ [Jobs.Settle 0 Jobs.Resolved 40; Jobs.Settle 0 (Jobs.ResolvedChunks []) 50;
      Jobs.Settle 0 (Jobs.ResolvedChunks []) 60; Jobs.Settle 0 Jobs.Resolved 70].

Definition after : list Jobs.Action :=
  [Jobs.QueueTimer; Jobs.CancelJob 0 80; Jobs.Settle 0 Jobs.Resolved 90;
   Jobs.CleanupTimer 100].

End FinishedExample.

(** The job that is being processed after the two uploads. *)
Module RunningExample.

Definition job : ProcessingJob :=
  default
    {| job_id := 0; job_files := []; job_status := PENDING; job_progress := 0;
       job_message := ""; job_startTime := 0; job_endTime := None;
       job_error := None; job_result := None;
       job_metadata := Jobs.emptyMetadata 0 |}
    (Jobs.getJob 0 JobsExample.queued).

End RunningExample.

(** A breaker with the default threshold and timeout after five calls
    that failed. *)
Module BreakerExample.

Definition threshold : nat := 5.
Definition timeout : Z := 60000.

Definition events : list CircuitBreaker.Event :=
  [CircuitBreaker.Start 0; CircuitBreaker.Fail 10;
   CircuitBreaker.Start 20; CircuitBreaker.Fail 30;
   CircuitBreaker.Start 40; CircuitBreaker.Fail 50;
   CircuitBreaker.Start 60; CircuitBreaker.Fail 70;
   CircuitBreaker.Start 80; CircuitBreaker.Fail 90].

End BreakerExample.

(** * Properties *)

(** ** Embedding batch manager *)

Section EmbeddingFacts.
Context {EP : EmbeddingProvider}.
Variable cfg : EmbeddingConfig.

(** Storing the settled items of a batch fills the slots of the batch, in
    order, with the outcome of each item. *)
Lemma storeResults_fills (txts : list string) (pre : list (option Embedding))
    (k : nat) :
  foldl Embeddings.storeResult (pre ++ replicate (length txts + k) None)
    (imap (fun idx text =>
             (length pre + idx, Embeddings.generateEmbedding cfg text)) txts)
  = pre ++ (Embeddings.generateEmbedding cfg <$> txts) ++ replicate k None.
Proof.
  revert pre. induction txts as [|t txts IH]; intros pre; [done|].
  cbn [imap foldl length]. rewrite Nat.add_0_r.
  assert (Embeddings.storeResult (pre ++ replicate (S (length txts) + k) None)
            (length pre, Embeddings.generateEmbedding cfg t)
          = (pre ++ [Embeddings.generateEmbedding cfg t])
            ++ replicate (length txts + k) None) as ->.
  { unfold Embeddings.storeResult. cbn [fst snd replicate Nat.add].
    destruct (Embeddings.generateEmbedding cfg t) as [e|].
    - rewrite insert_app_r_alt by done. rewrite Nat.sub_diag. cbn.
      by rewrite <- app_assoc.
    - by rewrite <- app_assoc. }
  transitivity ((pre ++ [Embeddings.generateEmbedding cfg t])
                ++ (Embeddings.generateEmbedding cfg <$> txts)
                ++ replicate k None); [|by rewrite <- app_assoc].
  rewrite <- (IH (pre ++ [Embeddings.generateEmbedding cfg t])).
  f_equal. apply imap_ext. intros idx text _. cbn.
  rewrite length_app. cbn. f_equal. lia.
Qed.

Lemma processBatch_fills (i : nat) (txts : list string)
    (pre : list (option Embedding)) (k : nat) :
  length pre = i ->
  Embeddings.processBatch cfg (pre ++ replicate (length txts + k) None)
    {| Embeddings.texts := txts;
       Embeddings.indices := (fun idx => i + idx) <$> seq 0 (length txts) |}
  = pre ++ (Embeddings.generateEmbedding cfg <$> txts) ++ replicate k None.
Proof.
  intros <-. unfold Embeddings.processBatch, Embeddings.settleBatch. cbn.
  rewrite <- storeResults_fills. f_equal. apply imap_ext.
  intros idx text Hidx. cbn. f_equal.
  apply lookup_lt_Some in Hidx.
  apply nth_lookup_Some. by rewrite list_lookup_fmap, lookup_seq_lt.
Qed.

(** The batches cover the texts from offset [i] on; processing them in
    order completes a table whose first [i] slots are filled. *)
Lemma splitBatches_fills (all : list string) (fuel i : nat) :
  0 < batchSize cfg ->
  length all - i <= fuel ->
  exists batches,
    Embeddings.splitBatches cfg fuel all i = Some batches
    /\ length batches <= length all - i
    /\ foldl (Embeddings.processBatch cfg)
         ((Embeddings.generateEmbedding cfg <$> take i all)
          ++ replicate (length all - i) None) batches
       = Embeddings.generateEmbedding cfg <$> all.
Proof.
  intros Hbs. revert i. induction fuel as [|fuel IH]; intros i Hfuel.
  - cbn [Embeddings.splitBatches]. destruct (i <? length all) eqn:Hi.
    { apply Nat.ltb_lt in Hi. lia. }
    apply Nat.ltb_ge in Hi. exists []. split; [done|]. split; [cbn; lia|].
    cbn. rewrite take_ge by done.
    replace (length all - i) with 0 by lia. by rewrite app_nil_r.
  - cbn [Embeddings.splitBatches]. destruct (i <? length all) eqn:Hi.
    2:{ apply Nat.ltb_ge in Hi. exists []. split; [done|]. split; [cbn; lia|].
        cbn. rewrite take_ge by done.
        replace (length all - i) with 0 by lia. by rewrite app_nil_r. }
    apply Nat.ltb_lt in Hi.
    destruct (IH (i + batchSize cfg)) as (batches & -> & Hlen & Hfold); [lia|].
    eexists. split; [reflexivity|]. split; [cbn; lia|].
    cbn [foldl]. unfold JS.slice.
    set (txts := take (i + batchSize cfg - i) (drop i all)).
    assert (length txts = Nat.min (batchSize cfg) (length all - i)) as Hlt.
    { unfold txts. rewrite length_take, length_drop. lia. }
    assert (take (i + batchSize cfg) all = take i all ++ txts) as Htake.
    { unfold txts. replace (i + batchSize cfg - i) with (batchSize cfg) by lia.
      by rewrite take_take_drop. }
    replace (length all - i)
      with (length txts + (length all - (i + batchSize cfg))) by lia.
    rewrite (processBatch_fills i); [|rewrite length_fmap, length_take; lia].
    rewrite app_assoc, <- fmap_app, <- Htake. exact Hfold.
Qed.

Lemma processGroups_foldl (batches : list Embeddings.Batch) (fuel i : nat)
    (table : list (option Embedding)) :
  0 < parallelBatches cfg ->
  length batches - i <= fuel ->
  Embeddings.processGroups cfg fuel batches i table
  = Some (foldl (Embeddings.processBatch cfg) table (drop i batches)).
Proof.
  intros Hpb. revert i table. induction fuel as [|fuel IH]; intros i table Hfuel.
  - cbn [Embeddings.processGroups]. destruct (i <? length batches) eqn:Hi.
    { apply Nat.ltb_lt in Hi. lia. }
    apply Nat.ltb_ge in Hi. by rewrite drop_ge.
  - cbn [Embeddings.processGroups]. destruct (i <? length batches) eqn:Hi.
    2:{ apply Nat.ltb_ge in Hi. by rewrite drop_ge. }
    apply Nat.ltb_lt in Hi. rewrite IH by lia. unfold JS.slice.
    replace (i + parallelBatches cfg - i) with (parallelBatches cfg) by lia.
    rewrite <- foldl_app, <- drop_drop.
    by rewrite take_drop.
Qed.

Lemma omap_outcomes {A B} (f : A -> option B) (l : list A) :
  omap (fun e => e) (f <$> l) = omap f l.
Proof.
  induction l as [|a l IH]; [done|]. cbn. destruct (f a); cbn; by rewrite IH.
Qed.

(** [generateEmbeddings] returns the successful embeddings in the order
    of their texts: each slot of the table receives the outcome of its
    own text, whatever the batch and the group it is processed in. *)
Lemma generateEmbeddings_successes (fuel : nat) (all : list string) :
  0 < batchSize cfg -> 0 < parallelBatches cfg -> length all <= fuel ->
  Embeddings.generateEmbeddings cfg fuel all
  = Some (omap (Embeddings.generateEmbedding cfg) all).
Proof.
  intros Hbs Hpb Hfuel.
  unfold Embeddings.generateEmbeddings, Embeddings.generateEmbeddings_run.
  destruct all as [|t all]; [done|].
  destruct (splitBatches_fills (t :: all) fuel 0 Hbs) as (batches & -> & Hlen & Hfold);
    [lia|].
  cbn [mbind option_bind]. rewrite processGroups_foldl by lia.
  rewrite drop_0. rewrite take_0, Nat.sub_0_r in Hfold. cbn [fmap list_fmap app] in Hfold.
  rewrite Hfold. cbn [mbind option_bind fmap option_fmap option_map Embeddings.collect
                        Embeddings.successfulEmbeddings].
  f_equal. exact (omap_outcomes (Embeddings.generateEmbedding cfg) (t :: all)).
Qed.

(** The pairing loop gives the [k] embeddings it received to the first
    [k] chunks, whatever the indices they were computed from. *)
Lemma pairStep_foldl (embs : list Embedding) (chunks acc : list DocumentChunk) :
  foldl (Embeddings.pairStep embs) (acc, length acc) chunks
  = (acc ++ zip_with with_embedding
              (take (length embs - length acc) chunks) (drop (length acc) embs),
     Nat.min (length embs) (length acc + length chunks))
    \/ length embs < length acc.
Proof.
  revert acc. induction chunks as [|c chunks IH]; intros acc.
  - destruct (decide (length embs < length acc)) as [Hlt|Hge]; [by right|left].
    cbn. rewrite take_nil, app_nil_r. f_equal. lia.
  - destruct (decide (length embs < length acc)) as [Hlt|Hge]; [by right|left].
    cbn [foldl Embeddings.pairStep].
    destruct (embs !! length acc) as [e|] eqn:He.
    + pose proof (lookup_lt_Some _ _ _ He) as Hlt.
      specialize (IH (acc ++ [with_embedding c e])).
      rewrite length_app in IH. cbn [length] in IH.
      destruct IH as [IH|IH]; [|lia].
      rewrite IH.
      replace (length embs - length acc) with (S (length embs - (length acc + 1))) by lia.
      rewrite (drop_S _ _ _ He). cbn. rewrite <- app_assoc. cbn.
      rewrite !Nat.add_1_r. f_equal. lia.
    + pose proof (lookup_ge_None_1 _ _ He) as Hle.
      assert (length embs = length acc) as Heq by lia.
      clear IH.
      assert (forall l, foldl (Embeddings.pairStep embs) (acc, length acc) l
                        = (acc, length acc)) as Hfix.
      { induction l as [|x l IHl]; [done|]. cbn. by rewrite He. }
      rewrite Hfix, Heq, Nat.sub_diag. cbn. rewrite app_nil_r.
      f_equal. lia.
Qed.

Lemma generateChunkEmbeddings_pairs_prefix (fuel : nat)
    (chunks : list DocumentChunk) (embs : list Embedding) :
  chunks <> [] ->
  Embeddings.generateEmbeddings cfg fuel (content <$> chunks) = Some embs ->
  Embeddings.generateChunkEmbeddings cfg fuel chunks
  = Some (zip_with with_embedding (take (length embs) chunks) embs).
Proof.
  intros Hne Hembs. unfold Embeddings.generateChunkEmbeddings.
  destruct chunks as [|c0 chunks]; [done|].
  rewrite Hembs. cbn [mbind option_bind].
  destruct (pairStep_foldl embs (c0 :: chunks) []) as [Hp|Hp]; [|cbn in Hp; lia].
  cbn [length] in Hp. rewrite Hp. cbn [fst]. by rewrite Nat.sub_0_r, drop_0.
Qed.

(** With positive batch and group sizes, [generateChunkEmbeddings] returns
    the first [k] chunks paired in order with the [k] successful
    embeddings. *)
Lemma generateChunkEmbeddings_positional (fuel : nat)
    (chunks : list DocumentChunk) :
  0 < batchSize cfg -> 0 < parallelBatches cfg -> length chunks <= fuel ->
  let successes :=
    omap (Embeddings.generateEmbedding cfg) (content <$> chunks) in
  Embeddings.generateChunkEmbeddings cfg fuel chunks
  = Some (zip_with with_embedding (take (length successes) chunks) successes).
Proof.
  intros Hbs Hpb Hfuel successes. destruct chunks as [|c chunks]; [done|].
  apply generateChunkEmbeddings_pairs_prefix; [done|].
  apply generateEmbeddings_successes; [done..|]. by rewrite length_fmap.
Qed.

End EmbeddingFacts.

(** C1 (as the code behaves).  On the batch of 100 texts with failures at
    indices 10 and 55, [generateEmbeddings] keeps the 98 successful vectors
    and logs the failed indices [10; 55], but [generateChunkEmbeddings]
    pairs them with the first 98 chunks: chunk 10, whose embedding failed,
    is returned with the vector of chunk 11, chunk 97 with the vector of
    chunk 99, and chunks 98 and 99, whose embeddings succeeded, are
    dropped. *)
Theorem generateChunkEmbeddings_batch100_misaligned :
  (Embeddings.failedIndices <$> Batch100.run) = Some [10; 55]
  /\ (length <$> Batch100.out) = Some 98
  /\ Batch100.embeddingOf 10 = None
  /\ (Batch100.out ≫= (fun l => l !! 10))
     = Some (with_embedding (Batch100.chunkOf 10) (Batch100.vectorOf 11))
  /\ (Batch100.out ≫= (fun l => l !! 97))
     = Some (with_embedding (Batch100.chunkOf 97) (Batch100.vectorOf 99))
  /\ Batch100.embeddingOf 98 = Some (Batch100.vectorOf 98)
  /\ Batch100.embeddingOf 99 = Some (Batch100.vectorOf 99)
  /\ (Batch100.out
      ≫= (fun l => Some (filter (fun c => content c = Batch100.textOf 98
                                         \/ content c = Batch100.textOf 99) l)))
     = Some [].
Proof. vm_compute. repeat split; reflexivity. Qed.

(** ** Chunker *)

Section SplitPoint.

Lemma trySeparators_after_start (text : string) (start end_ : nat)
    (seps : list string) (p : nat) :
  Chunker.trySeparators text start end_ seps = Some p -> start < p.
Proof.
  induction seps as [|sep seps IH]; cbn [Chunker.trySeparators]; [done|].
  destruct (JS.lastIndexOf sep text end_) as [k|]; [|exact IH].
  destruct (start <? k) eqn:Hk; cbn [andb]; [|exact IH].
  destruct (k <? end_); [|exact IH].
  intros [= <-]. apply Nat.ltb_lt in Hk. lia.
Qed.

Lemma wordBoundary_after_start (text : string) (start i k : nat) :
  Chunker.wordBoundary text start i = Some k -> start < k.
Proof.
  induction i as [|i IH]; cbn [Chunker.wordBoundary].
  - destruct (start <? 0) eqn:H0; [|done].
    apply Nat.ltb_lt in H0. lia.
  - destruct (start <? S i) eqn:Hi; [|done].
    destruct (Chunker.is_word_break _); [|exact IH].
    intros [= <-]. by apply Nat.ltb_lt in Hi.
Qed.

Lemma findBestSplitPoint_after_start (text : string) (start end_ : nat)
    (seps : list string) :
  start < Nat.min end_ (String.length text) ->
  start < Chunker.findBestSplitPoint text start end_ seps.
Proof.
  intros Hlt. unfold Chunker.findBestSplitPoint.
  destruct (Chunker.trySeparators _ _ _ _) as [p|] eqn:Hs.
  - by apply trySeparators_after_start in Hs.
  - destruct (Chunker.wordBoundary _ _ _) as [k|] eqn:Hw; [|done].
    by apply wordBoundary_after_start in Hw.
Qed.

End SplitPoint.

Section ChunkingLoop.
Context {TK : Tokenizer} {US : UuidSource} {TH : TextHelpers}.
Variable cfg : ChunkingConfig.
Hypothesis chunkSize_pos : 0 < Chunker.tokensToChars (chunkSize cfg).

(** Every iteration moves the window start to a split point past it, or to
    [max(start + 1, splitPoint - overlapChars)]. *)
Lemma loopBody_next (text : string) (base : Chunker.BaseMetadata)
    (st : Chunker.LoopState) :
  Chunker.loopCond cfg text st = true ->
  exists splitPoint,
    Chunker.currentPosition st < splitPoint
    /\ (Chunker.currentPosition (Chunker.loopBody cfg text base st) = splitPoint
        \/ Chunker.currentPosition (Chunker.loopBody cfg text base st)
           = Nat.max (Chunker.currentPosition st + 1)
                     (splitPoint - Chunker.tokensToChars (chunkOverlap cfg))).
Proof.
  intros Hc. unfold Chunker.loopCond in Hc.
  apply andb_true_iff in Hc as [Hpos _]. apply Nat.ltb_lt in Hpos.
  set (start := Chunker.currentPosition st) in *.
  assert (forall e, start < e ->
            start < Chunker.findBestSplitPoint text start e (separators cfg))
    as Hsplit.
  { intros e He. apply findBestSplitPoint_after_start. lia. }
  unfold Chunker.loopBody. fold start.
  set (e1 := Chunker.findBestSplitPoint text start
               (Nat.min (start + Chunker.tokensToChars (chunkSize cfg))
                        (String.length text)) (separators cfg)).
  set (e2 := Chunker.findBestSplitPoint text start
               (start + Chunker.tokensToChars (chunkSize cfg)) (separators cfg)).
  assert (start < e1) as H1 by (apply Hsplit; lia).
  assert (start < e2) as H2 by (apply Hsplit; lia).
  repeat match goal with
         | |- context [if ?b then _ else _] => destruct b
         end; cbn [Chunker.skipTo Chunker.accept Chunker.currentPosition];
    first [ exists e1; split; [exact H1|]; (by left) || (by right)
          | exists e2; split; [exact H2|]; (by left) || (by right) ].
Qed.

(** [findBestSplitPoint] clamps its [end] to the text itself, so the
    second search of the oversize branch finds the split point of the
    first. *)
Lemma findBestSplitPoint_clamped (text : string) (start end_ : nat)
    (seps : list string) :
  Chunker.findBestSplitPoint text start (Nat.min end_ (String.length text)) seps
  = Chunker.findBestSplitPoint text start end_ seps.
Proof.
  unfold Chunker.findBestSplitPoint. by rewrite <- Nat.min_assoc, Nat.min_id.
Qed.

(** Where an iteration moves the window start: to the split point when
    the chunk is skipped, and to [max(start + 1, end - overlapChars)]
    when a chunk is added. *)
Lemma loopBody_position (text : string) (base : Chunker.BaseMetadata)
    (st : Chunker.LoopState) :
  let start := Chunker.currentPosition st in
  let end_ :=
    Chunker.findBestSplitPoint text start
      (Nat.min (start + Chunker.tokensToChars (chunkSize cfg)) (String.length text))
      (separators cfg) in
  let chunkText := JS.trim (JS.str_slice start end_ text) in
  Chunker.currentPosition (Chunker.loopBody cfg text base st)
  = if (String.length chunkText =? 0) || (countTokens chunkText <? minChunkLength cfg)
    then end_
    else Nat.max (start + 1) (end_ - Chunker.tokensToChars (chunkOverlap cfg)).
Proof.
  cbv zeta. unfold Chunker.loopBody.
  rewrite <- (findBestSplitPoint_clamped text _
                (Chunker.currentPosition st + Chunker.tokensToChars (chunkSize cfg))).
  destruct (String.length _ =? 0); cbn [orb]; [reflexivity|].
  destruct (countTokens _ <? minChunkLength cfg); [reflexivity|].
  repeat match goal with
         | |- context [if ?b then _ else _] => destruct b
         end; reflexivity.
Qed.

Lemma loopBody_progress (text : string) (base : Chunker.BaseMetadata)
    (st : Chunker.LoopState) :
  Chunker.loopCond cfg text st = true ->
  Chunker.currentPosition st + 1
  <= Chunker.currentPosition (Chunker.loopBody cfg text base st).
Proof.
  intros Hc. destruct (loopBody_next text base st Hc) as (p & Hp & [-> | ->]); lia.
Qed.

(** The loop ends within [length text - currentPosition] iterations. *)
Lemma runLoop_terminates (text : string) (base : Chunker.BaseMetadata)
    (fuel : nat) (st : Chunker.LoopState) :
  String.length text - Chunker.currentPosition st <= fuel ->
  exists st',
    Chunker.runLoop cfg fuel text base st = Some st'
    /\ Chunker.loopCond cfg text st' = false.
Proof.
  revert st. induction fuel as [|fuel IH]; intros st Hfuel.
  - cbn. destruct (Chunker.loopCond cfg text st) eqn:Hc; [|by eauto].
    unfold Chunker.loopCond in Hc. apply andb_true_iff in Hc as [Hpos _].
    apply Nat.ltb_lt in Hpos. lia.
  - cbn. destruct (Chunker.loopCond cfg text st) eqn:Hc; [|by eauto].
    apply IH. pose proof (loopBody_progress text base st Hc). lia.
Qed.

(** More fuel does not change the result. *)
Lemma runLoop_fuel_mono (text : string) (base : Chunker.BaseMetadata)
    (fuel fuel' : nat) (st st' : Chunker.LoopState) :
  fuel <= fuel' ->
  Chunker.runLoop cfg fuel text base st = Some st' ->
  Chunker.runLoop cfg fuel' text base st = Some st'.
Proof.
  clear chunkSize_pos.
  revert fuel' st. induction fuel as [|fuel IH]; intros fuel' st Hle; cbn.
  - destruct (Chunker.loopCond cfg text st) eqn:Hc; [done|].
    intros [= <-]. destruct fuel'; cbn; by rewrite Hc.
  - destruct (Chunker.loopCond cfg text st) eqn:Hc.
    + destruct fuel' as [|fuel']; [lia|]. cbn. rewrite Hc.
      apply IH. lia.
    + intros [= <-]. destruct fuel'; cbn; by rewrite Hc.
Qed.

Lemma createTokenBasedChunks_terminates (text : string)
    (base : Chunker.BaseMetadata) (startingIndex uuid0 fuel : nat) :
  String.length text <= fuel ->
  exists r, Chunker.createTokenBasedChunks cfg fuel text base startingIndex uuid0
            = Some r.
Proof.
  intros Hfuel. unfold Chunker.createTokenBasedChunks.
  edestruct (runLoop_terminates text base fuel) as (st' & -> & _);
    [|cbn; eauto].
  cbn. lia.
Qed.

End ChunkingLoop.

Lemma config_chunking_window_pos :
  0 < Chunker.tokensToChars (chunkSize config_chunking).
Proof. vm_compute. lia. Qed.

(** C5.  With the chunking constants of config.ts, where the overlap of
    30 tokens is 105 characters, every iteration of the loop of
    [createTokenBasedChunks] finds its split point [end] strictly past
    the window start and moves the start to [end] when it skips the
    chunk (empty, or below [minChunkLength] tokens) and to
    [max(start + 1, end - overlapChars)] when it adds one: in both cases
    forward by at least one character.  Hence the loop ends within
    [length text] iterations and the function returns, for every text,
    tokenizer, metadata and starting index. *)
Theorem createTokenBasedChunks_progress_and_termination
    (TK : Tokenizer) (US : UuidSource) (text : string)
    (base : Chunker.BaseMetadata) (startingIndex uuid0 : nat) :
  Chunker.tokensToChars (chunkOverlap config_chunking) = 105
  /\ (forall st,
        Chunker.loopCond config_chunking text st = true ->
        let start := Chunker.currentPosition st in
        let end_ :=
          Chunker.findBestSplitPoint text start
            (Nat.min (start + Chunker.tokensToChars (chunkSize config_chunking))
                     (String.length text))
            (separators config_chunking) in
        let chunkText := JS.trim (JS.str_slice start end_ text) in
        let overlapChars := Chunker.tokensToChars (chunkOverlap config_chunking) in
        let next := Chunker.currentPosition
                      (Chunker.loopBody config_chunking text base st) in
        start < end_
        /\ (chunkText = ""%string
            \/ countTokens chunkText < minChunkLength config_chunking ->
            next = end_)
        /\ (chunkText <> ""%string ->
            minChunkLength config_chunking <= countTokens chunkText ->
            next = Nat.max (start + 1) (end_ - overlapChars))
        /\ start + 1 <= next)
  /\ (forall fuel,
        String.length text <= fuel ->
        exists r,
          Chunker.createTokenBasedChunks config_chunking fuel text base
            startingIndex uuid0 = Some r
          /\ Chunker.createTokenBasedChunks config_chunking
               (String.length text) text base startingIndex uuid0 = Some r).
Proof.
  split; [reflexivity|]. split.
  - intros st Hc. cbv zeta.
    rewrite (loopBody_position config_chunking text base st). cbv zeta.
    set (start := Chunker.currentPosition st).
    set (end_ := Chunker.findBestSplitPoint text start _ _).
    set (chunkText := JS.trim (JS.str_slice start end_ text)).
    assert (start < end_) as Hend.
    { apply findBestSplitPoint_after_start.
      unfold Chunker.loopCond in Hc. apply andb_true_iff in Hc as [Hpos _].
      apply Nat.ltb_lt in Hpos. fold start in Hpos.
      pose proof config_chunking_window_pos. lia. }
    assert ((String.length chunkText =? 0) = true <-> chunkText = ""%string)
      as Hempty.
    { rewrite Nat.eqb_eq. by destruct chunkText. }
    split; [exact Hend|]. split; [|split].
    + intros [He|Hlt].
      * apply Hempty in He. by rewrite He.
      * apply Nat.ltb_lt in Hlt. by rewrite Hlt, orb_true_r.
    + intros Hne Hge.
      assert ((String.length chunkText =? 0) = false) as ->.
      { apply not_true_iff_false. intros E. by apply Hne, Hempty. }
      apply Nat.ltb_ge in Hge. by rewrite Hge.
    + destruct (_ || _); lia.
  - intros fuel Hfuel.
    destruct (createTokenBasedChunks_terminates config_chunking
                config_chunking_window_pos text base startingIndex uuid0
                (String.length text)) as [r Hr]; [done|].
    exists r. split; [|exact Hr].
    unfold Chunker.createTokenBasedChunks in *.
    destruct (Chunker.runLoop config_chunking (String.length text) _ _ _)
      as [st'|] eqn:Hrun; [|done].
    by rewrite (runLoop_fuel_mono config_chunking text base _ fuel _ _ Hfuel Hrun).
Qed.

Section ChunkIndices.
Context {TK : Tokenizer} {US : UuidSource} {TH : TextHelpers}.
Variable cfg : ChunkingConfig.

Lemma accept_numbered (start : nat) (st : Chunker.LoopState)
    (base : Chunker.BaseMetadata) (text : string) (n e : nat) :
  numbered start st -> numbered start (Chunker.accept cfg st base text n e).
Proof.
  intros [Hidx Hnext]. unfold numbered, Chunker.accept. cbn.
  rewrite fmap_app, length_app, Hidx, seq_app. cbn.
  split; [by rewrite Hnext | lia].
Qed.

Lemma loopBody_numbered (start : nat) (text : string)
    (base : Chunker.BaseMetadata) (st : Chunker.LoopState) :
  numbered start st -> numbered start (Chunker.loopBody cfg text base st).
Proof.
  intros Hn. unfold Chunker.loopBody.
  repeat match goal with
         | |- context [if ?b then _ else _] => destruct b
         end; by (apply accept_numbered || exact Hn).
Qed.

Lemma runLoop_numbered (start fuel : nat) (text : string)
    (base : Chunker.BaseMetadata) (st st' : Chunker.LoopState) :
  Chunker.runLoop cfg fuel text base st = Some st' ->
  numbered start st -> numbered start st'.
Proof.
  revert st. induction fuel as [|fuel IH]; intros st; cbn.
  - destruct (Chunker.loopCond cfg text st); [done|]. by intros [= <-].
  - destruct (Chunker.loopCond cfg text st); [|by intros [= <-]].
    intros Hrun Hn. apply (IH _ Hrun). by apply loopBody_numbered.
Qed.

Lemma indexOf_set_totalChunks (n : nat) (l : list DocumentChunk) :
  indexOf <$> (Chunker.set_totalChunks n <$> l) = indexOf <$> l.
Proof. rewrite <- list_fmap_compose. by apply list_fmap_ext. Qed.

(** One call numbers its chunks from [startingIndex] on and gives each the
    number of chunks of that call as [totalChunks]. *)
Lemma createTokenBasedChunks_numbering (fuel : nat) (text : string)
    (base : Chunker.BaseMetadata) (startingIndex uuid0 uuid1 : nat)
    (cs : list DocumentChunk) :
  Chunker.createTokenBasedChunks cfg fuel text base startingIndex uuid0
  = Some (cs, uuid1) ->
  indexOf <$> cs = seq startingIndex (length cs)
  /\ Forall (fun c => totalOf c = length cs) cs.
Proof.
  unfold Chunker.createTokenBasedChunks.
  destruct (Chunker.runLoop _ _ _ _ _) as [st'|] eqn:Hrun; [|done].
  cbn. intros [= <- _].
  apply (runLoop_numbered startingIndex) in Hrun as [Hidx _]; [|by split].
  rewrite indexOf_set_totalChunks, length_fmap. split; [done|].
  apply Forall_fmap, Forall_forall. by intros c _.
Qed.

(** [processSections] appends one group of chunks per section; the groups
    are numbered consecutively, and [totalChunks] is the size of the
    chunk's own group. *)
Lemma processSections_groups (file : UploadedFile) (docId stamp : string)
    (sections : list DocSection) (acc cs : list DocumentChunk)
    (g uuid uuid' : nat) :
  Chunker.processSections cfg file docId stamp sections acc g uuid
  = Some (cs, uuid') ->
  exists groups : list (list DocumentChunk),
    cs = acc ++ concat groups
    /\ length groups = length sections
    /\ indexOf <$> concat groups = seq g (length (concat groups))
    /\ Forall (fun grp => Forall (fun c => totalOf c = length grp) grp) groups.
Proof.
  revert acc g uuid. induction sections as [|sec rest IH]; intros acc g uuid.
  - cbn. intros [= <- _]. exists []. cbn. by rewrite app_nil_r.
  - cbn [Chunker.processSections].
    destruct (Chunker.createTokenBasedChunks _ _ _ _ _ _) as [[grp u1]|] eqn:Hc;
      [|done].
    cbn. intros Hrest.
    apply createTokenBasedChunks_numbering in Hc as [Hidx Htot].
    apply IH in Hrest as (groups & -> & Hlen & Hseq & Hall).
    exists (grp :: groups). cbn. repeat split.
    + by rewrite <- app_assoc.
    + by rewrite Hlen.
    + rewrite fmap_app, length_app, Hidx, Hseq, seq_app. done.
    + by constructor.
Qed.

(** The [chunkIndex] values of a document are [0, 1, ..., n - 1]. *)
Lemma processFile_chunkIndex_contiguous (file : UploadedFile) (now : string)
    (uuid0 uuid1 : nat) (cs : list DocumentChunk) :
  Chunker.processFile cfg file now uuid0 = Some (cs, uuid1) ->
  indexOf <$> cs = seq 0 (length cs).
Proof.
  unfold Chunker.processFile. intros Hp.
  apply processSections_groups in Hp as (groups & -> & _ & Hseq & _).
  by rewrite app_nil_l.
Qed.

Lemma length_concat_two {A} (groups : list (list A)) (i k : nat) (a b : list A) :
  i <> k -> groups !! i = Some a -> groups !! k = Some b ->
  length a + length b <= length (concat groups).
Proof.
  revert i k. induction groups as [|g groups IH]; intros i k Hne Ha Hb; [done|].
  cbn. rewrite length_app.
  assert (forall j (x : list A), groups !! j = Some x ->
                                 length x <= length (concat groups)) as Hone.
  { clear. induction groups as [|g groups IH]; intros j x Hx; [done|].
    cbn. rewrite length_app. destruct j as [|j]; cbn in Hx.
    - injection Hx as ->. lia.
    - specialize (IH j x Hx). lia. }
  destruct i as [|i], k as [|k]; cbn in Ha, Hb; try done.
  - injection Ha as ->. specialize (Hone k b Hb). lia.
  - injection Hb as ->. specialize (Hone i a Ha). lia.
  - assert (i <> k) as Hne' by lia. specialize (IH i k Hne' Ha Hb). lia.
Qed.

Lemma elem_of_concat {A} (x : A) (groups : list (list A)) :
  x ∈ concat groups -> exists grp, x ∈ grp /\ grp ∈ groups.
Proof.
  induction groups as [|g groups IH]; cbn; [by intros ?%elem_of_nil|].
  intros Hx. apply elem_of_app in Hx as [Hx|Hx].
  - exists g. split; [done|]. apply elem_of_cons. by left.
  - destruct (IH Hx) as (grp & Hg & Hin). exists grp. split; [done|].
    apply elem_of_cons. by right.
Qed.

(** When two sections of a document yield chunks, every chunk of the
    document carries a [totalChunks] below the document's chunk count. *)
Lemma processFile_totalChunks_below_count (file : UploadedFile) (now : string)
    (uuid0 uuid1 : nat) (cs : list DocumentChunk) :
  Chunker.processFile cfg file now uuid0 = Some (cs, uuid1) ->
  exists groups : list (list DocumentChunk),
    cs = concat groups
    /\ length groups
       = length (extractSections (cleanText (file_content file)) (name file))
    /\ Forall (fun grp => Forall (fun c => totalOf c = length grp) grp) groups
    /\ (forall i k a b,
          i <> k -> groups !! i = Some a -> groups !! k = Some b ->
          a <> [] -> b <> [] ->
          Forall (fun c => totalOf c < length cs) cs).
Proof.
  unfold Chunker.processFile. intros Hp.
  apply processSections_groups in Hp as (groups & -> & Hlen & _ & Hall).
  exists groups. rewrite app_nil_l. repeat split; [done..|].
  intros i k a b Hne Ha Hb Hane Hbne.
  apply Forall_forall. intros c Hc.
  apply elem_of_concat in Hc as (grp & Hcg & Hgrp).
  rewrite Forall_forall in Hall. pose proof (Hall grp Hgrp) as Hg.
  rewrite Forall_forall in Hg. rewrite (Hg c Hcg).
  apply list_elem_of_lookup in Hgrp as [p Hp].
  assert (0 < length a) by (destruct a; [done|cbn; lia]).
  assert (0 < length b) by (destruct b; [done|cbn; lia]).
  destruct (decide (p = i)) as [->|Hpi].
  - pose proof (length_concat_two groups i k grp b Hne Hp Hb). lia.
  - pose proof (length_concat_two groups p i grp a Hpi Hp Ha). lia.
Qed.

(** [processFile] returns for every file when the window is not empty. *)
Lemma processSections_terminates (file : UploadedFile) (docId stamp : string)
    (sections : list DocSection) (acc : list DocumentChunk) (g uuid : nat) :
  0 < Chunker.tokensToChars (chunkSize cfg) ->
  exists r, Chunker.processSections cfg file docId stamp sections acc g uuid
            = Some r.
Proof.
  intros Hpos. revert acc g uuid.
  induction sections as [|sec rest IH]; intros acc g uuid;
    cbn [Chunker.processSections]; [by eauto|].
  edestruct (createTokenBasedChunks_terminates cfg Hpos) as [[grp u1] ->];
    [|cbn; apply IH].
  lia.
Qed.

Lemma processFile_returns (file : UploadedFile) (now : string) (uuid0 : nat) :
  0 < Chunker.tokensToChars (chunkSize cfg) ->
  exists r, Chunker.processFile cfg file now uuid0 = Some r.
Proof. intros Hpos. by apply processSections_terminates. Qed.

End ChunkIndices.

(** C2 (as the code behaves).  The two-section document yields two chunks
    with [chunkIndex] 0 and 1, and each carries [totalChunks = 1], the
    number of chunks of its own section, not the document's count 2. *)
Theorem processFile_two_sections_totalChunks :
  (fun r : list DocumentChunk * nat =>
     (fun c : DocumentChunk => (content c, indexOf c, totalOf c)) <$> r.1)
    <$> TwoSections.result
  = Some [ (TwoSections.repeat_char "a" 200, 0, 1);
           (TwoSections.repeat_char "b" 200, 1, 1) ].
Proof. vm_compute. reflexivity. Qed.

(** ** Deduplication cache *)

Lemma within_retention_window (now timestamp : Z) :
  Cache.Qltb (Cache.hoursSinceProcessed now timestamp) Cache.CACHE_EXPIRY_HOURS
  = bool_decide (now - timestamp < 604800000)%Z.
Proof.
  unfold Cache.Qltb, Cache.hoursSinceProcessed, Cache.CACHE_EXPIRY_HOURS.
  set (d := (now - timestamp)%Z). unfold Qdiv.
  change (/ inject_Z (1000 * 60 * 60))%Q with (1 # 3600000)%Q.
  destruct (Qcompare_spec (inject_Z d * (1 # 3600000)) (inject_Z (24 * 7)))
    as [He|Hl|Hg];
    [unfold Qeq in He | unfold Qlt in Hl | unfold Qlt in Hg];
    cbn in *; symmetry;
    [apply bool_decide_eq_false | apply bool_decide_eq_true
     | apply bool_decide_eq_false]; lia.
Qed.

Section CacheFacts.
Context {SHA : Sha256}.

Lemma isDocumentDuplicate_unregistered (now : Z) (content : string)
    (cache : DocumentCache) :
  documentHashes cache !! Cache.calculateContentHash content = None ->
  Cache.isDocumentDuplicate now content cache
  = ({| isDuplicate := false; existingEntry := None |}, cache).
Proof. intros Hn. unfold Cache.isDocumentDuplicate. by rewrite Hn. Qed.

(** A file whose key was already seen in the batch is skipped. *)
Lemma filterStep_repeat (now : Z) (st : Cache.FilterState) (file : UploadedFile) :
  hashKey file ∈ Cache.fs_currentBatchHashes st ->
  Cache.filterStep now st file = st.
Proof.
  intros Hin. unfold Cache.filterStep. fold (hashKey file).
  by destruct (decide (hashKey file ∈ Cache.fs_currentBatchHashes st)).
Qed.

(** A file with a new key and no registry entry joins the unique files. *)
Lemma filterStep_new (now : Z) (st : Cache.FilterState) (file : UploadedFile) :
  hashKey file ∉ Cache.fs_currentBatchHashes st ->
  documentHashes (Cache.fs_cache st)
    !! Cache.calculateContentHash (file_content file) = None ->
  Cache.filterStep now st file
  = {| Cache.fs_unique :=
         Cache.fs_unique st ++ [Cache.with_contentHash file (hashKey file)];
       Cache.fs_duplicates := Cache.fs_duplicates st;
       Cache.fs_currentBatchHashes :=
         {[hashKey file]} ∪ Cache.fs_currentBatchHashes st;
       Cache.fs_cache := Cache.fs_cache st |}.
Proof.
  intros Hout Hnone. unfold Cache.filterStep. fold (hashKey file).
  destruct (decide (hashKey file ∈ Cache.fs_currentBatchHashes st)); [done|].
  by rewrite (isDocumentDuplicate_unregistered _ _ _ Hnone).
Qed.

(** C3 (amended).  A batch of two files with the same content and the
    same hash key, whose content has no registry entry, yields one unique
    file, the first one stamped with its key, and no duplicate entry: the
    second file is dropped as a within-batch repeat; the cache is left
    unchanged. *)
Theorem filterDuplicateFiles_same_batch (now : Z) (f1 f2 : UploadedFile)
    (cache : DocumentCache) :
  file_content f1 = file_content f2 ->
  hashKey f1 = hashKey f2 ->
  documentHashes cache !! Cache.calculateContentHash (file_content f1) = None ->
  Cache.filterDuplicateFiles now [f1; f2] cache
  = ({| uniqueFiles := [Cache.with_contentHash f1 (hashKey f1)];
        duplicates := [] |}, cache).
Proof.
  intros Hcontent Hkey Hnone.
  unfold Cache.filterDuplicateFiles. cbn [foldl].
  rewrite (filterStep_new now _ f1); [|cbn; set_solver|exact Hnone].
  rewrite (filterStep_repeat now _ f2); [done|].
  cbn. rewrite <- Hkey. set_solver.
Qed.

(** A registered document whose key is the digest of its trimmed content
    is reported as a duplicate for less than seven days and is evicted by
    the first lookup after that. *)
Lemma isDocumentDuplicate_registered (t0 t : Z) (file : UploadedFile)
    (chunks : list DocumentChunk) (content : string) (cache : DocumentCache) :
  hashKey file = Cache.calculateContentHash (file_content file) ->
  JS.trim content = JS.trim (file_content file) ->
  let registered := Cache.registerProcessedDocument t0 file chunks cache in
  let hash := Cache.calculateContentHash content in
  ((t - t0 < 604800000)%Z ->
   exists entry,
     documentHashes registered !! hash = Some entry
     /\ entry_timestamp entry = t0
     /\ Cache.isDocumentDuplicate t content registered
        = ({| isDuplicate := true; existingEntry := Some entry |}, registered))
  /\ ((604800000 <= t - t0)%Z ->
      Cache.isDocumentDuplicate t content registered
      = ({| isDuplicate := false; existingEntry := None |},
         {| documentHashes := delete hash (documentHashes registered);
            chunkHashes := chunkHashes registered |})
      /\ delete hash (documentHashes registered) !! hash = None).
Proof.
  intros Hkey Htrim registered hash.
  assert (hash = hashKey file) as Hh.
  { unfold hash, Cache.calculateContentHash. rewrite Htrim. by rewrite Hkey. }
  assert (exists entry, documentHashes registered !! hash = Some entry
                        /\ entry_timestamp entry = t0) as (entry & He & Ht).
  { eexists. split.
    - unfold registered, Cache.registerProcessedDocument. cbn.
      fold (hashKey file). rewrite Hh. apply lookup_insert_eq.
    - done. }
  split.
  - intros Hwin. exists entry. repeat split; [done..|].
    unfold Cache.isDocumentDuplicate. fold hash. rewrite He, Ht.
    rewrite within_retention_window. by rewrite bool_decide_eq_true_2.
  - intros Hout. split; [|apply lookup_delete_eq].
    unfold Cache.isDocumentDuplicate. fold hash. rewrite He, Ht.
    rewrite within_retention_window. rewrite bool_decide_eq_false_2; [done|lia].
Qed.

(** C8 (as the code behaves).  A file is registered under its
    [contentHash] when it carries one, while a lookup uses the digest of
    the trimmed content: when the two differ, the registered content is
    not found, at any time. *)
Theorem isDocumentDuplicate_misses_contentHash_key (t0 t : Z)
    (file : UploadedFile) (chunks : list DocumentChunk) (h : string)
    (cache : DocumentCache) :
  contentHash file = Some h ->
  h <> ""%string ->
  h <> Cache.calculateContentHash (file_content file) ->
  documentHashes cache !! Cache.calculateContentHash (file_content file) = None ->
  (Cache.isDocumentDuplicate t (file_content file)
     (Cache.registerProcessedDocument t0 file chunks cache)).1
  = {| isDuplicate := false; existingEntry := None |}.
Proof.
  intros Hh Hne Hdiff Hnone.
  rewrite isDocumentDuplicate_unregistered; [done|].
  unfold Cache.registerProcessedDocument. cbn. rewrite Hh. cbn.
  destruct (decide (h = ""%string)); [done|].
  by rewrite lookup_insert_ne.
Qed.

End CacheFacts.

(** The amended statement at the batch of two copies of one file. *)
Lemma filterDuplicateFiles_same_batch_witness :
  Cache.filterDuplicateFiles (SHA := DemoDigest.sha) 0
    [DemoDigest.hello; DemoDigest.hello] Cache.empty
  = ({| uniqueFiles :=
          [Cache.with_contentHash DemoDigest.hello
             (hashKey (SHA := DemoDigest.sha) DemoDigest.hello)];
        duplicates := [] |}, Cache.empty).
Proof.
  apply (filterDuplicateFiles_same_batch (SHA := DemoDigest.sha));
    reflexivity.
Defined.

(** C3 (as stated) fails: for two files with the same content and an empty
    registry the duplicates list is empty, not of length one. *)
Lemma filterDuplicateFiles_same_batch_counterexample :
  let r := (Cache.filterDuplicateFiles (SHA := DemoDigest.sha) 0
              [DemoDigest.hello; DemoDigest.hello] Cache.empty).1 in
  file_content DemoDigest.hello = file_content DemoDigest.hello
  /\ documentHashes Cache.empty
       !! Cache.calculateContentHash (SHA := DemoDigest.sha)
            (file_content DemoDigest.hello) = None
  /\ length (uniqueFiles r) = 1
  /\ length (duplicates r) = 0
  /\ ~ (length (uniqueFiles r) = 1 /\ length (duplicates r) = 1).
Proof.
  vm_compute. repeat split; try reflexivity. intros [_ Hd]. discriminate Hd.
Qed.

(** The pasted text is registered at time 0 and looked up one millisecond
    later. *)
Lemma isDocumentDuplicate_misses_contentHash_key_witness :
  (Cache.isDocumentDuplicate (SHA := DemoDigest.sha) 1 "hello"
     (Cache.registerProcessedDocument (SHA := DemoDigest.sha) 0
        DemoDigest.pasted [] Cache.empty)).1
  = {| isDuplicate := false; existingEntry := None |}.
Proof.
  apply (isDocumentDuplicate_misses_contentHash_key (SHA := DemoDigest.sha)
           0 1 DemoDigest.pasted [] _ Cache.empty eq_refl);
    [discriminate | vm_compute; discriminate | reflexivity].
Defined.

(** ** MMR selection *)

Lemma bind_Returned {A B} (k : A -> outcome B) (a : A) :
  (Returned a ≫= k) = k a.
Proof. reflexivity. Qed.

Lemma exceeds_lambda_one (s d m : Q) :
  (s <= m)%Q -> Retriever.exceeds (1 * s + (1 - 1) * d) (Some m) = false.
Proof.
  intros Hle. unfold Retriever.exceeds.
  destruct (1 * s + (1 - 1) * d ?= m)%Q eqn:Hc; try reflexivity.
  apply Qgt_alt in Hc. lra.
Qed.

Lemma squaredNorm_foldl (e : Embedding) (a : Q) :
  (a <= foldl (fun norm x => norm + x * x) a e)%Q
  /\ (Exists (fun x => ~ (x == 0)%Q) e ->
      (a < foldl (fun norm x => norm + x * x) a e)%Q).
Proof.
  revert a. induction e as [|x e IH]; intros a; cbn.
  - split; [lra|]. by intros ?%Exists_nil.
  - destruct (IH (a + x * x)%Q) as [Hle Hlt].
    assert (0 <= x * x)%Q as Hsq by nra.
    split; [lra|]. intros [Hx|He]%Exists_cons.
    + assert (0 < x * x)%Q by (destruct (Qlt_le_dec 0 x); nra). lra.
    + specialize (Hlt He). lra.
Qed.

Lemma squaredNorm_nonzero (e : Embedding) :
  Exists (fun x => ~ (x == 0)%Q) e -> Qeq_bool (Retriever.squaredNorm e) 0 = false.
Proof.
  intros He. destruct (squaredNorm_foldl e 0%Q) as [_ Hlt].
  specialize (Hlt He). apply not_true_iff_false. intros Heq.
  apply Qeq_bool_iff in Heq. unfold Retriever.squaredNorm in Heq. lra.
Qed.

Section MMRFacts.
Context {EP : EmbeddingProvider} {CK : CosineKernel} {VS : VectorSearch}.

Lemma maxSimilarityLoop_returns (D : nat) (e : Embedding)
    (selected : list RetrievalResult) (m : Q) (calls : nat) :
  length e = D -> Exists (fun x => ~ (x == 0)%Q) e -> embeddable D selected ->
  exists m',
    Retriever.maxSimilarityLoop e selected (Retriever.Finite m) calls
    = Returned (Retriever.Finite m', calls + length selected).
Proof.
  intros He Hnz Hsel. revert m calls.
  induction Hsel as [|r selected Hr _ IH]; intros m calls; cbn.
  - rewrite Nat.add_0_r. by eauto.
  - destruct (Hr calls) as (e' & He' & Hlen & Hnz').
    unfold Retriever.generateEmbedding. rewrite He'. cbn.
    unfold Retriever.cosineSimilarity. rewrite He, Hlen, Nat.eqb_refl.
    rewrite (squaredNorm_nonzero e Hnz), (squaredNorm_nonzero e' Hnz'). cbn.
    destruct (IH (Qmax m (cosine e e')) (calls + 1)) as [m' ->].
    exists m'. do 2 f_equal. lia.
Qed.

Lemma diversityScore_returns (D : nat) (selected : list RetrievalResult)
    (candidate : RetrievalResult) (calls : nat) :
  embeddable D selected -> embeds D (content (chunk candidate)) ->
  exists d calls',
    Retriever.diversityScore selected candidate calls
    = Returned (Retriever.Finite d, calls').
Proof.
  intros Hsel Hc. unfold Retriever.diversityScore.
  destruct (0 <? length selected); [|by eauto].
  destruct (Hc calls) as (e & He & Hlen & Hnz).
  unfold Retriever.generateEmbedding. rewrite He. cbn.
  destruct (maxSimilarityLoop_returns D e selected 0%Q (calls + 1) Hlen Hnz Hsel)
    as [m ->].
  cbn. by eauto.
Qed.

(** With [lambda = 1] a candidate that scores no more than the best score
    so far never replaces it. *)
Lemma scanRemaining_keeps_best (D : nat) (selected rest : list RetrievalResult)
    (i bestIndex : nat) (m : Q) (calls : nat) :
  embeddable D selected -> embeddable D rest ->
  Forall (fun r => (score r <= m)%Q) rest ->
  exists calls',
    Retriever.scanRemaining 1 selected rest i bestIndex (Some m) calls
    = Returned (bestIndex, calls').
Proof.
  intros Hsel Hrest Hle. revert i calls.
  induction rest as [|c rest IH]; intros i calls; cbn [Retriever.scanRemaining];
    [by eauto|].
  apply Forall_cons in Hrest as [Hc Hrest]. apply Forall_cons in Hle as [Hcm Hle].
  destruct (diversityScore_returns D selected c calls Hsel Hc) as (d & calls' & ->).
  rewrite bind_Returned. cbn [Retriever.combine].
  rewrite (exceeds_lambda_one _ d m Hcm). by apply IH.
Qed.

(** On a descending list the scan selects index 0. *)
Lemma scanRemaining_descending (D : nat) (selected remaining : list RetrievalResult)
    (calls : nat) :
  embeddable D selected -> embeddable D remaining -> descending remaining ->
  exists calls',
    Retriever.scanRemaining 1 selected remaining 0 0 None calls
    = Returned (0, calls').
Proof.
  intros Hsel Hrem Hsorted.
  destruct remaining as [|c rest]; [by cbn; eauto|]. cbn [Retriever.scanRemaining].
  apply Forall_cons in Hrem as [Hc Hrest].
  destruct (diversityScore_returns D selected c calls Hsel Hc) as (d & calls' & ->).
  rewrite bind_Returned. cbn [Retriever.combine Retriever.exceeds].
  apply (scanRemaining_keeps_best D); [done..|].
  apply StronglySorted_inv in Hsorted as [_ Hall].
  eapply Forall_impl; [exact Hall|]. cbn. intros r Hr. lra.
Qed.

Lemma mmrLoop_descending (D fuel topK : nat)
    (selected remaining : list RetrievalResult) (calls : nat) :
  length remaining <= fuel ->
  embeddable D selected -> embeddable D remaining -> descending remaining ->
  Retriever.mmrLoop fuel 1 topK selected remaining calls
  = Returned (selected ++ take (topK - length selected) remaining).
Proof.
  revert selected remaining calls.
  induction fuel as [|fuel IH];
    intros selected remaining calls Hfuel Hsel Hrem Hsorted.
  - destruct remaining; [|cbn in Hfuel; lia]. cbn.
    rewrite andb_false_r, take_nil. by rewrite app_nil_r.
  - cbn [Retriever.mmrLoop].
    destruct (length selected <? topK) eqn:Hk; cbn [andb].
    2:{ apply Nat.ltb_ge in Hk.
        replace (topK - length selected) with 0 by lia.
        by rewrite take_0, app_nil_r. }
    apply Nat.ltb_lt in Hk.
    destruct remaining as [|c rest]; cbn [length Nat.ltb Nat.leb].
    { by rewrite take_nil, app_nil_r. }
    destruct (scanRemaining_descending D selected (c :: rest) calls Hsel Hrem Hsorted)
      as [calls' ->].
    cbn.
    apply Forall_cons in Hrem as [Hc Hrest].
    apply StronglySorted_inv in Hsorted as [Hsorted _].
    rewrite IH; [| cbn in Hfuel; lia | by apply Forall_app; split; [|constructor]
                 | done | done].
    rewrite length_app. cbn [length].
    replace (topK - length selected) with (S (topK - (length selected + 1))) by lia.
    cbn. by rewrite <- app_assoc.
Qed.


End MMRFacts.



(** ** Reranker adapter *)

Section RerankFacts.
Context {RS : RerankService}.
Variable defaultTopN : nat.


End RerankFacts.


(** ** Answer synthesizer *)

Lemma string_app_assoc (a b c : string) : (a +:+ b) +:+ c = a +:+ (b +:+ c).
Proof.
  induction a as [|x a IH]; [done|].
  change (String x ((a +:+ b) +:+ c) = String x (a +:+ (b +:+ c))).
  by rewrite IH.
Qed.

Lemma string_app_nil_r (a : string) : a +:+ EmptyString = a.
Proof.
  induction a as [|x a IH]; [done|].
  change (String x (a +:+ EmptyString) = String x a). by rewrite IH.
Qed.

Lemma citationsFrom_ids (k : nat) (results : list RetrievalResult) :
  cit_id <$> citationsFrom k results = seq (k + 1) (length results).
Proof.
  revert k. induction results as [|r rest IH]; intros k; cbn; [done|].
  rewrite IH. by rewrite (Nat.add_1_r (k + 1)).
Qed.

Lemma citationsFrom_lookup (k i : nat) (results : list RetrievalResult) :
  citationsFrom k results !! i = citationOf (k + i + 1) <$> results !! i.
Proof.
  revert k i. induction results as [|r rest IH]; intros k i; [done|].
  destruct i as [|i]; cbn.
  - by rewrite Nat.add_0_r.
  - rewrite IH. do 2 f_equal. lia.
Qed.

Lemma mapHas_spec (key : string) (m : list (string * SourceDocument)) :
  LLM.mapHas key m = true <-> key ∈ m.*1.
Proof.
  unfold LLM.mapHas. rewrite existsb_exists. split.
  - intros ([k d] & Hin & Hk). apply bool_decide_eq_true in Hk. cbn in Hk.
    subst. apply list_elem_of_fmap. exists (key, d). split; [done|].
    by apply list_elem_of_In.
  - intros Hin. apply list_elem_of_fmap in Hin as ([k d] & -> & Hin).
    exists (k, d). split; [by apply list_elem_of_In|].
    by apply bool_decide_eq_true.
Qed.

Lemma pushRelevantChunk_keys (key : string) (cid : nat)
    (m : list (string * SourceDocument)) :
  (LLM.pushRelevantChunk key cid m).*1 = m.*1.
Proof.
  induction m as [|[k d] m IH]; cbn; [done|].
  destruct (decide (k = key)); cbn; [done|]. by rewrite IH.
Qed.

Lemma pushRelevantChunk_ids (key : string) (cid : nat)
    (m : list (string * SourceDocument)) :
  key ∈ m.*1 ->
  Permutation (chunkIds (LLM.pushRelevantChunk key cid m)) (cid :: chunkIds m).
Proof.
  unfold chunkIds. induction m as [|[k d] m IH]; cbn.
  - intros Hin. by apply elem_of_nil in Hin.
  - intros Hin. destruct (decide (k = key)) as [->|Hne]; cbn.
    + rewrite <- app_assoc. cbn. symmetry. apply Permutation_middle.
    + apply elem_of_cons in Hin as [Heq|Hin]; [by subst|].
      rewrite (IH Hin). symmetry. apply Permutation_middle.
Qed.

Lemma pushRelevantChunk_Forall (P : string * SourceDocument -> Prop)
    (key : string) (cid : nat) (m : list (string * SourceDocument)) :
  (forall d, P (key, d) ->
     P (key, {| src_id := src_id d; src_title := src_title d;
                src_source := src_source d;
                relevantChunks := relevantChunks d ++ [cid];
                src_fileType := src_fileType d |})) ->
  Forall P m -> Forall P (LLM.pushRelevantChunk key cid m).
Proof.
  intros Hstep. induction 1 as [|[k d] m Hd Hm IH]; cbn; [done|].
  destruct (decide (k = key)) as [->|Hne]; constructor; auto.
Qed.

(** [number_to_string] writes the decimal numeral. *)
Lemma digit_cons (k : nat) (acc : Decimal.uint) :
  k < 10 ->
  exists d,
    String (ascii_of_nat (48 + k)) (DecimalString.NilEmpty.string_of_uint acc)
    = DecimalString.NilEmpty.string_of_uint d
    /\ Nat.of_uint d
       = k * 10 ^ DecimalNat.Unsigned.usize acc + Nat.of_uint acc
    /\ DecimalNat.Unsigned.usize d = S (DecimalNat.Unsigned.usize acc)
    /\ (k <> 0 -> Decimal.nzhead d = d)
    /\ (k = 0 -> d = Decimal.D0 acc).
Proof.
  intros Hk.
  assert (forall d', Nat.of_uint d' = DecimalNat.Unsigned.of_lu (Decimal.rev d'))
    as Halt by apply DecimalNat.Unsigned.of_uint_alt.
  destruct k as [|[|[|[|[|[|[|[|[|[|k]]]]]]]]]]; [..|lia];
    [exists (Decimal.D0 acc)|exists (Decimal.D1 acc)|exists (Decimal.D2 acc)
    |exists (Decimal.D3 acc)|exists (Decimal.D4 acc)|exists (Decimal.D5 acc)
    |exists (Decimal.D6 acc)|exists (Decimal.D7 acc)|exists (Decimal.D8 acc)
    |exists (Decimal.D9 acc)];
    (split; [reflexivity|]);
    (split; [rewrite !Halt; unfold Decimal.rev; cbn [Decimal.revapp];
             rewrite DecimalNat.Unsigned.of_lu_revapp; unfold Decimal.rev;
             cbn [DecimalNat.Unsigned.of_lu]; lia|]);
    (split; [reflexivity|]); (split; by intros ?).
Qed.

Lemma digits_aux_decimal (fuel n : nat) (acc : Decimal.uint) :
  n < fuel ->
  exists d,
    JS.digits_aux fuel n (DecimalString.NilEmpty.string_of_uint acc)
    = DecimalString.NilEmpty.string_of_uint d
    /\ Nat.of_uint d
       = n * 10 ^ DecimalNat.Unsigned.usize acc + Nat.of_uint acc
    /\ (n <> 0 -> Decimal.nzhead d = d)
    /\ (n = 0 -> d = Decimal.D0 acc).
Proof.
  revert n acc. induction fuel as [|fuel IH]; intros n acc Hn; [lia|].
  cbn [JS.digits_aux].
  assert (n mod 10 < 10) as Hk by (apply Nat.mod_upper_bound; lia).
  destruct (digit_cons (n mod 10) acc Hk) as (d1 & Hs & Hv & Hsize & Hnz & Hz).
  pose proof (Nat.div_mod_eq n 10) as Hdm.
  destruct (n / 10 =? 0) eqn:E.
  - apply Nat.eqb_eq in E. exists d1. rewrite E in Hdm.
    assert (n mod 10 = n) as Hmod by lia. rewrite Hmod in *.
    split; [done|]. split; [done|]. split; [done|].
    exact Hz.
  - apply Nat.eqb_neq in E. rewrite Hs.
    assert (n / 10 < fuel) as Hlt.
    { assert (n / 10 < n); [apply Nat.div_lt; lia|lia]. }
    destruct (IH (n / 10) d1 Hlt) as (d & Hs' & Hv' & Hnz' & _).
    exists d. split; [done|]. split.
    + rewrite Hv', Hv, Hsize. rewrite Nat.pow_succ_r'. nia.
    + split; [intros _; by apply Hnz'|]. intros ->. by cbn in E.
Qed.

Lemma number_to_string_decimal (n : nat) : JS.number_to_string n = decimal n.
Proof.
  unfold JS.number_to_string, decimal.
  destruct (digits_aux_decimal (S n) n Decimal.Nil (Nat.lt_succ_diag_r n))
    as (d & Hs & Hv & Hnz & Hz).
  change (DecimalString.NilEmpty.string_of_uint Decimal.Nil) with ""%string in Hs.
  change (DecimalNat.Unsigned.usize Decimal.Nil) with 0 in Hv.
  change (Nat.of_uint Decimal.Nil) with 0 in Hv.
  rewrite Hs. f_equal.
  rewrite Nat.pow_0_r, Nat.mul_1_r, Nat.add_0_r in Hv. rewrite <- Hv at 1.
  rewrite DecimalNat.Unsigned.to_of. unfold Decimal.unorm.
  destruct (decide (n = 0)) as [->|Hne].
  - by rewrite (Hz eq_refl).
  - rewrite (Hnz Hne). destruct d; [|done..].
    cbn in Hv. lia.
Qed.

Lemma contextEntry_tagged (citationId : nat) (text : string) :
  LLM.contextEntry citationId text = taggedEntry citationId text.
Proof.
  unfold LLM.contextEntry, taggedEntry. by rewrite number_to_string_decimal.
Qed.

Lemma contextStep_spec (all : list RetrievalResult) (st : LLM.PreparedContext)
    (k : nat) (r : RetrievalResult) :
  all !! k = Some r ->
  grouped all (LLM.ctx_sourceMap st) ->
  let st' := LLM.contextStep st k r in
  LLM.contextText st'
  = LLM.contextText st +:+ LLM.contextEntry (k + 1) (content (chunk r))
  /\ LLM.ctx_citations st' = LLM.ctx_citations st ++ [citationOf (k + 1) r]
  /\ Permutation (chunkIds (LLM.ctx_sourceMap st'))
       ((k + 1) :: chunkIds (LLM.ctx_sourceMap st))
  /\ grouped all (LLM.ctx_sourceMap st').
Proof.
  intros Hr [Hnd Hall]. cbn zeta. unfold LLM.contextStep. cbn.
  split; [done|]. split; [done|].
  set (key := documentId (metadata (chunk r))).
  set (fresh := (key, {| src_id := key; src_title := title (metadata (chunk r));
                         src_source := source (metadata (chunk r));
                         relevantChunks := [];
                         src_fileType := fileType (metadata (chunk r)) |})).
  assert (forall d : SourceDocument,
            (src_id d = key
             /\ Forall (fun cid => 1 <= cid /\ docIdOf <$> all !! (cid - 1) = Some key)
                  (relevantChunks d)) ->
            src_id d = key
            /\ Forall (fun cid => 1 <= cid /\ docIdOf <$> all !! (cid - 1) = Some key)
                 (relevantChunks d ++ [k + 1])) as Hpush.
  { intros d [Hid Hrel]. split; [done|]. apply Forall_app. split; [done|].
    constructor; [|done]. split; [lia|].
    replace (k + 1 - 1) with k by lia. by rewrite Hr. }
  destruct (LLM.mapHas key (LLM.ctx_sourceMap st)) eqn:Hhas.
  - apply mapHas_spec in Hhas.
    split; [exact (pushRelevantChunk_ids _ _ _ Hhas)|].
    split; [by rewrite pushRelevantChunk_keys|].
    apply (pushRelevantChunk_Forall _ key (k + 1)); [|done].
    intros d. cbn. apply Hpush.
  - apply not_true_iff_false in Hhas. rewrite mapHas_spec in Hhas.
    assert (key ∈ (LLM.ctx_sourceMap st ++ [fresh]).*1) as Hin.
    { rewrite fmap_app. apply elem_of_app. right. cbn. by apply list_elem_of_singleton. }
    split.
    { etrans; [exact (pushRelevantChunk_ids _ _ _ Hin)|]. apply perm_skip.
      unfold chunkIds. rewrite fmap_app, concat_app. cbn.
      by rewrite !app_nil_r. }
    split.
    { rewrite pushRelevantChunk_keys, fmap_app. cbn.
      apply NoDup_app. split; [done|]. split; [|apply NoDup_singleton].
      intros x Hx Hx'. apply list_elem_of_singleton in Hx'. by subst. }
    apply (pushRelevantChunk_Forall _ key (k + 1)).
    { intros d. cbn. apply Hpush. }
    apply Forall_app. split; [done|]. constructor; [|done]. cbn. by split.
Qed.

Lemma contextLoop_spec (all : list RetrievalResult) (rest : list RetrievalResult)
    (st : LLM.PreparedContext) (k : nat) :
  drop k all = rest ->
  grouped all (LLM.ctx_sourceMap st) ->
  let st' := LLM.contextLoop st k rest in
  LLM.contextText st' = LLM.contextText st +:+ entriesFrom k rest
  /\ LLM.ctx_citations st' = LLM.ctx_citations st ++ citationsFrom k rest
  /\ Permutation (chunkIds (LLM.ctx_sourceMap st'))
       (seq (k + 1) (length rest) ++ chunkIds (LLM.ctx_sourceMap st))
  /\ grouped all (LLM.ctx_sourceMap st').
Proof.
  revert st k. induction rest as [|r rest IH]; intros st k Hdrop Hg; cbn zeta.
  - cbn. by rewrite string_app_nil_r, app_nil_r.
  - cbn [LLM.contextLoop entriesFrom citationsFrom length seq].
    assert (all !! k = Some r) as Hr.
    { rewrite <- (Nat.add_0_r k), <- lookup_drop. by rewrite Hdrop. }
    destruct (contextStep_spec all st k r Hr Hg) as (Ht & Hc & Hp & Hg').
    rewrite contextEntry_tagged in Ht.
    assert (drop (k + 1) all = rest) as Hdrop'.
    { rewrite Nat.add_1_r. erewrite drop_S in Hdrop by exact Hr. by injection Hdrop. }
    destruct (IH _ (k + 1) Hdrop' Hg') as (Ht' & Hc' & Hp' & Hg'').
    rewrite Ht', Hc', Ht, Hc. split; [|split; [|split]].
    + by rewrite string_app_assoc.
    + by rewrite <- app_assoc.
    + rewrite Hp', Hp. rewrite (Nat.add_1_r (k + 1)).
      cbn. symmetry. apply Permutation_middle.
    + exact Hg''.
Qed.

(** C10.  For a list of [n] results the builder returns the citations
    [1 .. n] in rank order, citation [i] holding the content, source,
    section and position of result [i]; a context block made of the
    header line and, for each result in the same order, the entry
    [[i] content] followed by an empty line, where [i] is the decimal
    numeral of its rank; and source documents with distinct ids whose
    [relevantChunks] together hold each of [1 .. n] once, each rank
    listed under the document of its result. *)
Theorem prepareContextWithCitations_numbering (results : list RetrievalResult) :
  let '(contextText, citations, sources) :=
    LLM.prepareContextWithCitations results in
  cit_id <$> citations = seq 1 (length results)
  /\ (forall i, citations !! i = citationOf (i + 1) <$> results !! i)
  /\ contextText = "Context information:" +:+ blankLine +:+ entriesFrom 0 results
  /\ Permutation (concat (relevantChunks <$> sources)) (seq 1 (length results))
  /\ NoDup (src_id <$> sources)
  /\ Forall (fun d =>
       Forall (fun i => 1 <= i /\ docIdOf <$> results !! (i - 1) = Some (src_id d))
              (relevantChunks d)) sources.
Proof.
  unfold LLM.prepareContextWithCitations.
  destruct (contextLoop_spec results results
              {| LLM.contextText := LLM.contextHeader; LLM.ctx_citations := [];
                 LLM.ctx_sourceMap := [] |} 0)
    as (Ht & Hc & Hp & Hnd & Hall); [done | by split; [constructor|] |].
  cbn [LLM.contextText LLM.ctx_citations LLM.ctx_sourceMap] in *.
  rewrite app_nil_l in Hc. unfold chunkIds in Hp. cbn in Hp.
  rewrite app_nil_r in Hp.
  repeat split.
  - rewrite Hc. apply citationsFrom_ids.
  - intros i. rewrite Hc. apply citationsFrom_lookup.
  - exact Ht.
  - rewrite <- list_fmap_compose. exact Hp.
  - assert (src_id <$> (LLM.ctx_sourceMap (LLM.contextLoop
              {| LLM.contextText := LLM.contextHeader; LLM.ctx_citations := [];
                 LLM.ctx_sourceMap := [] |} 0 results)).*2
            = (LLM.ctx_sourceMap (LLM.contextLoop
              {| LLM.contextText := LLM.contextHeader; LLM.ctx_citations := [];
                 LLM.ctx_sourceMap := [] |} 0 results)).*1) as ->; [|done].
    rewrite <- list_fmap_compose. apply Forall_fmap_ext_1.
    eapply Forall_impl; [exact Hall|]. by intros [k d] [Hid _].
  - apply Forall_fmap. eapply Forall_impl; [exact Hall|].
    intros [k d] [Hid Hrel]. cbn in *. by rewrite Hid.
Qed.

(** ** Empty retrieval results *)



(** ** Job orchestrator *)

Ltac advances_frame :=
  repeat match goal with
         | |- _ /\ _ => split
         | |- forall _, _ => intro
         end;
  rewrite ?lookup_alter_ne by done; try done.

Ltac advances_object i s :=
  rewrite ?lookup_alter_eq;
  let job := fresh "job" in
  destruct (Jobs.objects s !! i) as [job|]; cbn; [|done];
  intros [= <-]; exists job; cbn; done.

Ltac advances_suspended :=
  unfold suspendedIds; cbn; rewrite ?fmap_app;
  let Hx := fresh "Hx" in
  intros ? Hx;
  first [ by left
        | apply elem_of_app in Hx as [Hx|Hx];
          [by left|right; cbn in Hx; by apply list_elem_of_singleton in Hx] ].

Ltac advances_events i s :=
  eexists; split; [rewrite <- ?app_assoc; reflexivity|];
  let Hid := fresh "Hid" in
  intros Hid; rewrite ?lookup_alter_eq;
  let job := fresh "job" in
  let E := fresh "E" in
  destruct (Jobs.objects s !! i) as [job|] eqn:E; cbn; repeat constructor;
  cbn; by apply Hid.

Ltac advances_solver i s :=
  unfold advances; cbn;
  split; [done|]; split; [done|]; split; [done|];
  split; [intros x Hx; by rewrite ?lookup_alter_ne by done|];
  split; [intros job'; advances_object i s|];
  split; [advances_suspended|advances_events i s].

Section JobFacts.
Context {SHA : Sha256}.

Lemma startJob_advances (i : nat) (s : Jobs.Service) :
  advances i s (Jobs.startJob i s).
Proof. unfold Jobs.startJob, Jobs.emitProgress, Jobs.update. advances_solver i s. Qed.

Lemma failJob_advances (i : nat) (msg : option string) (now : Z)
    (s : Jobs.Service) :
  advances i s (Jobs.failJob i msg now s).
Proof.
  unfold Jobs.failJob, Jobs.finishProcessing, Jobs.emitProgress, Jobs.update.
  advances_solver i s.
Qed.

Lemma afterInitialize_advances (i : nat) (now : Z) (s : Jobs.Service) :
  advances i s (Jobs.afterInitialize i now s).
Proof.
  unfold Jobs.afterInitialize.
  destruct (uniqueFiles _);
    unfold Jobs.finishProcessing, Jobs.emitProgress, Jobs.update;
    advances_solver i s.
Qed.

Lemma afterProcessFiles_advances (i : nat) (unique : list UploadedFile)
    (chunks : list DocumentChunk) (s : Jobs.Service) :
  advances i s (Jobs.afterProcessFiles i unique chunks s).
Proof.
  unfold Jobs.afterProcessFiles, Jobs.emitProgress, Jobs.update.
  advances_solver i s.
Qed.

Lemma afterEmbeddings_advances (i : nat) (unique : list UploadedFile)
    (embedded : list DocumentChunk) (s : Jobs.Service) :
  advances i s (Jobs.afterEmbeddings i unique embedded s).
Proof.
  unfold Jobs.afterEmbeddings, Jobs.emitProgress, Jobs.update.
  advances_solver i s.
Qed.

Lemma afterIndexing_advances (i : nat) (unique : list UploadedFile)
    (embedded : list DocumentChunk) (now : Z) (s : Jobs.Service) :
  advances i s (Jobs.afterIndexing i unique embedded now s).
Proof.
  unfold Jobs.afterIndexing, Jobs.finishProcessing, Jobs.emitProgress, Jobs.update.
  advances_solver i s.
Qed.

Lemma lookupSuspended_Some (i : nat) (l rest : list (nat * Jobs.AwaitPoint))
    (point : Jobs.AwaitPoint) :
  Jobs.lookupSuspended i l = Some (point, rest) ->
  i ∈ l.*1 /\ (forall x, x ∈ rest.*1 -> x ∈ l.*1).
Proof.
  revert rest. induction l as [|[j p] l IH]; intros rest; cbn; [done|].
  destruct (decide (j = i)) as [->|Hne].
  - intros [= <- <-]. split; [apply elem_of_cons; by left|].
    intros x Hx. apply elem_of_cons. by right.
  - destruct (Jobs.lookupSuspended i l) as [[q rest']|]; cbn; [|done].
    intros [= <- <-]. destruct (IH rest' eq_refl) as [Hin Hsub]. split.
    + apply elem_of_cons. by right.
    + intros x Hx. cbn in Hx. apply elem_of_cons in Hx as [->|Hx];
        apply elem_of_cons; [by left|right; by apply Hsub].
Qed.

Lemma lookupSuspended_None (i : nat) (l : list (nat * Jobs.AwaitPoint)) :
  i ∉ l.*1 -> Jobs.lookupSuspended i l = None.
Proof.
  induction l as [|[j p] l IH]; cbn; [done|].
  intros Hnot. destruct (decide (j = i)) as [->|Hne].
  - exfalso. apply Hnot, elem_of_cons. by left.
  - rewrite IH; [done|]. intros Hin. apply Hnot, elem_of_cons. by right.
Qed.

Lemma continue_advances (i : nat) (point : Jobs.AwaitPoint) (r : Jobs.Settled)
    (now : Z) (s s' : Jobs.Service) :
  Jobs.continue i point r now s = Some s' -> advances i s s'.
Proof.
  destruct r, point; cbn; intros [= <-];
    auto using failJob_advances, afterInitialize_advances,
      afterProcessFiles_advances, afterEmbeddings_advances,
      afterIndexing_advances.
Qed.

(** A settled promise resumes a suspended job, or changes nothing. *)
Lemma settle_advances (i : nat) (r : Jobs.Settled) (now : Z) (s : Jobs.Service) :
  Jobs.settle i r now s = s
  \/ (i ∈ suspendedIds s /\ advances i s (Jobs.settle i r now s)).
Proof.
  unfold Jobs.settle.
  destruct (Jobs.lookupSuspended i (Jobs.suspended s)) as [[point rest]|] eqn:Hl;
    [|by left].
  apply lookupSuspended_Some in Hl as [Hin Hsub].
  destruct (Jobs.continue _ _ _ _ _) as [s'|] eqn:Hc; [|by left].
  right. split; [done|].
  apply continue_advances in Hc as (Hq & Hjobs & Hu & Ho & Hi & Hs & new & He & Hn).
  cbn in *. repeat split; try done.
  - intros x Hx. destruct (Hs x Hx) as [Hx'|Hx']; [left; by apply Hsub|by right].
  - by exists new.
Qed.

(** A progress callback writes to a suspended job, or changes nothing. *)
Lemma embeddingProgress_advances (i current total failed : nat)
    (s : Jobs.Service) :
  Jobs.embeddingProgress i current total failed s = s
  \/ (i ∈ suspendedIds s
      /\ advances i s (Jobs.embeddingProgress i current total failed s)).
Proof.
  unfold Jobs.embeddingProgress.
  destruct (Jobs.lookupSuspended i (Jobs.suspended s)) as [[point rest]|] eqn:Hl;
    [|by left].
  apply lookupSuspended_Some in Hl as [Hin _].
  destruct point; try (by left). right. split; [done|].
  unfold Jobs.emitProgress, Jobs.update. advances_solver i s.
Qed.

Lemma indexingProgress_advances (i indexed total : nat) (s : Jobs.Service) :
  Jobs.indexingProgress i indexed total s = s
  \/ (i ∈ suspendedIds s
      /\ advances i s (Jobs.indexingProgress i indexed total s)).
Proof.
  unfold Jobs.indexingProgress.
  destruct (Jobs.lookupSuspended i (Jobs.suspended s)) as [[point rest]|] eqn:Hl;
    [|by left].
  apply lookupSuspended_Some in Hl as [Hin _].
  destruct point; try (by left). right. split; [done|].
  unfold Jobs.emitProgress, Jobs.update. advances_solver i s.
Qed.

(** The three ways [processQueue] returns: at once, after dropping the id
    of a job that is no longer in the map, or after starting the job at
    the head of the queue. *)
Lemma processQueue_cases (s : Jobs.Service) :
  Jobs.processQueue s = s
  \/ exists i rest,
       Jobs.jobQueue s = i :: rest
       /\ ((Jobs.getJob i s = None
            /\ Jobs.processQueue s = Jobs.set_jobQueue (fun _ => rest) s)
           \/ Jobs.processQueue s
              = Jobs.startJob i
                  (Jobs.set_running true (Jobs.activeJobs s + 1)
                     (Jobs.set_jobQueue (fun _ => rest) s))).
Proof.
  unfold Jobs.processQueue.
  destruct (Jobs.isProcessing s || _); [by left|].
  destruct (Jobs.jobQueue s) as [|i rest] eqn:Hq; [by left|].
  right. exists i, rest. split; [done|].
  change (Jobs.getJob i (Jobs.set_jobQueue (fun _ => rest) s))
    with (Jobs.getJob i s).
  destruct (Jobs.getJob i s); [by right|by left].
Qed.

Lemma startJob_status (i : nat) (s : Jobs.Service) (job' : ProcessingJob) :
  Jobs.objects (Jobs.startJob i s) !! i = Some job' ->
  job_status job' = UPLOADING.
Proof.
  unfold Jobs.startJob, Jobs.emitProgress, Jobs.update. cbn.
  rewrite lookup_alter_eq. destruct (Jobs.objects s !! i); cbn; [|done].
  by intros [= <-].
Qed.

Lemma statusOf_advances (i x : nat) (s s' : Jobs.Service) :
  advances i s s' -> x <> i -> statusOf s' x = statusOf s x.
Proof. intros (_ & _ & _ & Ho & _) Hx. unfold statusOf. by rewrite Ho. Qed.

Lemma consistent_advances (i : nat) (s s' : Jobs.Service) :
  consistent s -> advances i s s' ->
  i < Jobs.uuidsDrawn s ->
  statusOf s' i <> Some PENDING ->
  consistent s'.
Proof.
  intros [Hqc Hqn Hss Hoc] Hadv Hi Hst.
  pose proof Hadv as (Hq & _ & Hu & Ho & Hobj & Hs & _).
  split.
  - by rewrite Hq, Hu.
  - by rewrite Hq.
  - apply Forall_forall. intros x Hx. rewrite Hu.
    destruct (decide (x = i)) as [->|Hne]; [by split|].
    destruct (Hs x Hx) as [Hx'|Hx']; [|done].
    rewrite Forall_forall in Hss. destruct (Hss x Hx') as [Hlt Hp].
    split; [done|]. by rewrite (statusOf_advances i x s s').
  - intros x job' Hx. rewrite Hu.
    destruct (decide (x = i)) as [->|Hne].
    + destruct (Hobj job' Hx) as (job & Hjob & Hid & _).
      destruct (Hoc i job Hjob) as [Hid' Hlt]. split; [congruence|done].
    + rewrite Ho in Hx by done. by apply Hoc.
Qed.

(** A job past [PENDING] stays so when it advances. *)
Lemma advances_keeps_started (i : nat) (s s' : Jobs.Service) :
  advances i s s' -> statusOf s i <> Some PENDING ->
  statusOf s' i <> Some PENDING.
Proof.
  intros (_ & _ & _ & _ & Hobj & _) Hst. unfold statusOf in *.
  destruct (Jobs.objects s' !! i) as [job'|] eqn:Hj; [|done].
  destruct (Hobj job' eq_refl) as (job & Hjob & _ & Hp). rewrite Hjob in Hst.
  cbn in *. intros [= Hpend]. apply Hst. by rewrite (Hp Hpend).
Qed.

Lemma consistent_resumed (i : nat) (s s' : Jobs.Service) :
  consistent s -> i ∈ suspendedIds s -> advances i s s' -> consistent s'.
Proof.
  intros Hc Hin Hadv.
  pose proof (suspended_started s Hc) as Hss. rewrite Forall_forall in Hss.
  destruct (Hss i Hin) as [Hlt Hst].
  apply (consistent_advances i s s'); [done..|].
  by apply (advances_keeps_started i s s').
Qed.

Lemma consistent_set_jobQueue (q : list nat) (s : Jobs.Service) :
  consistent s -> NoDup q -> (forall x, x ∈ q -> x ∈ Jobs.jobQueue s) ->
  consistent (Jobs.set_jobQueue (fun _ => q) s).
Proof.
  intros [Hqc Hqn Hss Hoc] Hnd Hsub. split; cbn; try done.
  apply Forall_forall. intros x Hx. rewrite Forall_forall in Hqc.
  by apply Hqc, Hsub.
Qed.

Lemma consistent_processQueue (s : Jobs.Service) :
  consistent s -> consistent (Jobs.processQueue s).
Proof.
  intros Hc. destruct (processQueue_cases s) as [->|(i & rest & Hq & Hcases)];
    [done|].
  pose proof (queue_created s Hc) as Hqc. pose proof (queue_NoDup s Hc) as Hqn.
  rewrite Hq in Hqc, Hqn.
  apply Forall_cons in Hqc as [Hi Hqc]. apply NoDup_cons in Hqn as [_ Hqn].
  assert (consistent (Jobs.set_jobQueue (fun _ => rest) s)) as Hc'.
  { apply consistent_set_jobQueue; [done..|]. intros x Hx. rewrite Hq.
    apply elem_of_cons. by right. }
  destruct Hcases as [[_ ->] | ->]; [done|].
  eapply (consistent_advances i); [|apply startJob_advances|done|].
  - destruct Hc' as [? ? ? ?]. by split.
  - unfold statusOf.
    destruct (Jobs.objects (Jobs.startJob i _) !! i) as [job'|] eqn:Hj; [|done].
    apply startJob_status in Hj. cbn. by rewrite Hj.
Qed.

Lemma removeFirst_subset (j x : nat) (q : list nat) :
  x ∈ Jobs.removeFirst j q -> x ∈ q.
Proof.
  induction q as [|y q IH]; cbn; [done|].
  destruct (decide (y = j)); intros Hx.
  - apply elem_of_cons. by right.
  - apply elem_of_cons in Hx as [->|Hx]; apply elem_of_cons; [by left|].
    right. by apply IH.
Qed.

Lemma removeFirst_NoDup (j : nat) (q : list nat) :
  NoDup q -> NoDup (Jobs.removeFirst j q) /\ j ∉ Jobs.removeFirst j q.
Proof.
  induction 1 as [|y q Hy Hq [IH1 IH2]]; cbn.
  - split; [constructor|]. by intros ?%elem_of_nil.
  - destruct (decide (y = j)) as [->|Hne]; [done|]. split.
    + constructor; [|done]. intros Hin. by apply Hy, (removeFirst_subset j).
    + intros Hin. apply elem_of_cons in Hin as [->|Hin]; [done|]. by apply IH2.
Qed.

(** [cancelJob] refuses, or marks the job, takes it out of the queue and
    emits one event about it. *)
Lemma cancelJob_cases (j : nat) (now : Z) (s : Jobs.Service) :
  let s' := (Jobs.cancelJob j now s).2 in
  ((Jobs.cancelJob j now s).1 = false /\ s' = s)
  \/ ((Jobs.cancelJob j now s).1 = true
      /\ Jobs.jobQueue s' = Jobs.removeFirst j (Jobs.jobQueue s)
      /\ Jobs.suspended s' = Jobs.suspended s
      /\ advances j (Jobs.set_jobQueue (Jobs.removeFirst j) s) s'
      /\ exists job job',
           Jobs.getJob j s = Some job
           /\ Jobs.is_finished (job_status job) = false
           /\ Jobs.objects s' !! j = Some job'
           /\ job_status job' = CANCELLED
           /\ Jobs.emitted s' = Jobs.emitted s ++ [Jobs.progressOf job']).
Proof.
  cbn zeta. unfold Jobs.cancelJob.
  destruct (Jobs.getJob j s) as [job|] eqn:Hget; [|by left].
  destruct (Jobs.is_finished (job_status job)) eqn:Hfin; [by left|].
  right. unfold Jobs.getJob in Hget.
  destruct (decide (j ∈ Jobs.jobs s)); [|done].
  unfold Jobs.emitProgress, Jobs.update. cbn.
  rewrite !lookup_alter_eq, Hget. cbn.
  split; [done|]. split; [done|]. split; [done|]. split; [|by eauto 10].
  unfold advances. cbn. split; [done|]. split; [done|]. split; [done|].
  split; [intros x Hx; by rewrite lookup_alter_ne by done|].
  split.
  { intros job'. rewrite lookup_alter_eq, Hget. cbn. intros [= <-].
    exists job. cbn. done. }
  split; [by left|].
  eexists. split; [reflexivity|]. intros Hid. repeat constructor. cbn.
  by apply Hid.
Qed.

Lemma consistent_cancelJob (j : nat) (now : Z) (s : Jobs.Service) :
  consistent s -> consistent (Jobs.cancelJob j now s).2.
Proof.
  intros Hc.
  destruct (cancelJob_cases j now s)
    as [[_ ->]|(_ & Hq & _ & Hadv & job & job' & Hget & _ & Hj & Hst & _)];
    [done|].
  assert (j < Jobs.uuidsDrawn s) as Hlt.
  { unfold Jobs.getJob in Hget. destruct (decide (j ∈ Jobs.jobs s)); [|done].
    by apply (objects_created s Hc) in Hget as [_ Hlt]. }
  eapply consistent_advances; [|exact Hadv|done|].
  - apply (consistent_set_jobQueue (Jobs.removeFirst j (Jobs.jobQueue s)));
      [done| |].
    + by apply removeFirst_NoDup, (queue_NoDup s Hc).
    + intros x. apply removeFirst_subset.
  - unfold statusOf. rewrite Hj. cbn. by rewrite Hst.
Qed.

Lemma consistent_createJob (files : list UploadedFile) (now : Z)
    (s : Jobs.Service) :
  consistent s -> consistent (Jobs.createJob files now s).2.
Proof.
  intros [Hqc Hqn Hss Hoc]. unfold Jobs.createJob. cbn [snd].
  apply consistent_processQueue. split; cbn.
  - apply Forall_app. split.
    + eapply Forall_impl; [exact Hqc|]. cbn. lia.
    + repeat constructor. lia.
  - apply NoDup_app. split; [done|]. split; [|apply NoDup_singleton].
    intros x Hx Hx'. apply list_elem_of_singleton in Hx'. subst.
    rewrite Forall_forall in Hqc. specialize (Hqc _ Hx). lia.
  - apply Forall_forall. intros x Hx. rewrite Forall_forall in Hss.
    destruct (Hss x Hx) as [Hlt Hst]. split; [lia|].
    unfold statusOf in *. cbn. rewrite lookup_insert_ne by lia. done.
  - intros x job Hx. destruct (decide (x = Jobs.uuidsDrawn s)) as [->|Hne].
    + rewrite lookup_insert_eq in Hx. injection Hx as <-. cbn. lia.
    + rewrite lookup_insert_ne in Hx by done.
      destruct (Hoc x job Hx). split; [done|lia].
Qed.

Lemma consistent_step (a : Jobs.Action) (s : Jobs.Service) :
  consistent s -> consistent (Jobs.step a s).
Proof.
  intros Hc. destruct a as [files now|j now| |j r now|j c t f|j n t|now]; cbn.
  - by apply consistent_createJob.
  - by apply consistent_cancelJob.
  - destruct (Jobs.timers s) as [|n]; [done|].
    apply consistent_processQueue. by destruct Hc.
  - destruct (settle_advances j r now s) as [->|[Hin Hadv]]; [done|].
    by apply (consistent_resumed j s).
  - destruct (embeddingProgress_advances j c t f s) as [->|[Hin Hadv]]; [done|].
    by apply (consistent_resumed j s).
  - destruct (indexingProgress_advances j n t s) as [->|[Hin Hadv]]; [done|].
    by apply (consistent_resumed j s).
  - destruct Hc. unfold Jobs.cleanupOldJobs.
    destruct (Jobs.MAX_JOBS_HISTORY <? _); by split.
Qed.

Lemma consistent_initial : consistent Jobs.initial.
Proof.
  split; cbn; [constructor..|].
  intros x job Hx. by rewrite lookup_empty in Hx.
Qed.

Lemma consistent_run (actions : list Jobs.Action) (s : Jobs.Service) :
  consistent s -> consistent (Jobs.run actions s).
Proof.
  revert s. induction actions as [|a actions IH]; intros s Hc; [done|].
  cbn. by apply IH, consistent_step.
Qed.

Lemma getJob_advances (i x : nat) (s s' : Jobs.Service) :
  advances i s s' -> x <> i -> Jobs.getJob x s' = Jobs.getJob x s.
Proof.
  intros (_ & Hjobs & _ & Ho & _) Hx. unfold Jobs.getJob.
  by rewrite Hjobs, Ho.
Qed.

Lemma getJob_status (x : nat) (s : Jobs.Service) (job : ProcessingJob) :
  Jobs.getJob x s = Some job -> statusOf s x = Some (job_status job).
Proof.
  unfold Jobs.getJob, statusOf. destruct (decide (x ∈ Jobs.jobs s)); [|done].
  by intros ->.
Qed.

Lemma pending_queued_advances (i : nat) (s s' : Jobs.Service) :
  advances i s s' -> statusOf s' i <> Some PENDING ->
  (forall x job, x <> i -> Jobs.getJob x s = Some job ->
                 job_status job = PENDING -> x ∈ Jobs.jobQueue s') ->
  pending_queued s'.
Proof.
  intros Hadv Hst Hrest x job Hget Hp.
  destruct (decide (x = i)) as [->|Hne].
  - apply getJob_status in Hget. rewrite Hp in Hget. done.
  - rewrite (getJob_advances i x s s') in Hget by done. by eapply Hrest.
Qed.

Lemma pending_queued_resumed (i : nat) (s s' : Jobs.Service) :
  consistent s -> pending_queued s -> i ∈ suspendedIds s ->
  advances i s s' -> pending_queued s'.
Proof.
  intros Hc Hpq Hin Hadv.
  pose proof (suspended_started s Hc) as Hss. rewrite Forall_forall in Hss.
  destruct (Hss i Hin) as [_ Hst].
  apply (pending_queued_advances i s s'); [done| |].
  - by apply (advances_keeps_started i s s').
  - intros x job _ Hget Hp. destruct Hadv as [-> _]. by eapply Hpq.
Qed.

Lemma pending_queued_processQueue (s : Jobs.Service) :
  pending_queued s -> pending_queued (Jobs.processQueue s).
Proof.
  intros Hpq.
  destruct (processQueue_cases s) as [->|(i & rest & Hq & [[Hnone ->]| ->])];
    [done| |].
  - intros x job Hget Hp. cbn.
    change (Jobs.getJob x (Jobs.set_jobQueue (fun _ => rest) s))
      with (Jobs.getJob x s) in Hget.
    pose proof (Hpq x job Hget Hp) as Hin. rewrite Hq in Hin.
    apply elem_of_cons in Hin as [->|Hin]; [|done]. congruence.
  - eapply (pending_queued_advances i); [apply startJob_advances| |].
    + unfold statusOf.
      destruct (Jobs.objects (Jobs.startJob i _) !! i) as [job'|] eqn:Hj; [|done].
      apply startJob_status in Hj. cbn. by rewrite Hj.
    + intros x job Hne Hget Hp.
      change (Jobs.getJob x (Jobs.set_running true (Jobs.activeJobs s + 1)
                               (Jobs.set_jobQueue (fun _ => rest) s)))
        with (Jobs.getJob x s) in Hget.
      pose proof (Hpq x job Hget Hp) as Hin. rewrite Hq in Hin.
      apply elem_of_cons in Hin as [->|Hin]; [done|].
      by destruct (startJob_advances i
                     (Jobs.set_running true (Jobs.activeJobs s + 1)
                        (Jobs.set_jobQueue (fun _ => rest) s))) as [-> _].
Qed.

Lemma removeFirst_other (j x : nat) (q : list nat) :
  x <> j -> x ∈ q -> x ∈ Jobs.removeFirst j q.
Proof.
  intros Hne. induction q as [|y q IH]; cbn; [done|].
  intros Hx. apply elem_of_cons in Hx as [Heq|Hx].
  - subst y. destruct (decide (x = j)); [done|]. apply elem_of_cons. by left.
  - destruct (decide (y = j)); [done|]. apply elem_of_cons. right. by apply IH.
Qed.

Lemma elem_of_filter_subset {A} (P : A -> Prop) `{forall x, Decision (P x)}
    (l : list A) (x : A) :
  x ∈ filter P l -> x ∈ l.
Proof. intros Hx. by apply list_elem_of_filter in Hx as [_ Hx]. Qed.

Lemma getJob_cleanupOldJobs (now : Z) (x : nat) (s : Jobs.Service)
    (job : ProcessingJob) :
  Jobs.getJob x (Jobs.cleanupOldJobs now s) = Some job ->
  Jobs.getJob x s = Some job.
Proof.
  unfold Jobs.cleanupOldJobs, Jobs.getJob.
  destruct (Jobs.MAX_JOBS_HISTORY <? _); cbn;
    repeat match goal with
           | |- context [decide (?P)] => destruct (decide P)
           end; try done;
    intros _; exfalso;
    repeat match goal with
           | H : _ ∈ filter _ _ |- _ => apply elem_of_filter_subset in H
           end; done.
Qed.

Lemma pending_queued_step (a : Jobs.Action) (s : Jobs.Service) :
  consistent s -> pending_queued s -> pending_queued (Jobs.step a s).
Proof.
  intros Hc Hpq. destruct a as [files now|j now| |j r now|j c t f|j n t|now]; cbn.
  - unfold Jobs.createJob. cbn [snd]. apply pending_queued_processQueue.
    intros x job. unfold Jobs.getJob. cbn.
    destruct (decide (x = Jobs.uuidsDrawn s)) as [->|Hne].
    + intros _ _. apply elem_of_app. right. by apply list_elem_of_singleton.
    + rewrite lookup_insert_ne by done. intros Hget Hp.
      apply elem_of_app. left. apply (Hpq x job); [|done].
      unfold Jobs.getJob.
      destruct (decide (x ∈ Jobs.jobs s)) as [Hin|Hout]; [|].
      * by destruct (decide (_ ∈ _)) in Hget.
      * destruct (decide (Jobs.uuidsDrawn s ∈ Jobs.jobs s)) in Hget.
        -- by destruct (decide (x ∈ Jobs.jobs s)) in Hget.
        -- destruct (decide (x ∈ Jobs.jobs s ++ [Jobs.uuidsDrawn s]))
             as [Hin'|] in Hget; [|done].
           apply elem_of_app in Hin' as [?|Heq]; [done|].
           by apply list_elem_of_singleton in Heq.
  - destruct (cancelJob_cases j now s)
      as [[_ ->]|(_ & Hq & _ & Hadv & job & job' & Hget & _ & Hj & Hst & _)];
      [done|].
    apply (pending_queued_advances j _ _ Hadv).
    + unfold statusOf. rewrite Hj. cbn. by rewrite Hst.
    + intros x jobx Hne Hgetx Hp. rewrite Hq.
      apply removeFirst_other; [done|]. by apply (Hpq x jobx).
  - destruct (Jobs.timers s) as [|n]; [done|].
    by apply pending_queued_processQueue.
  - destruct (settle_advances j r now s) as [->|[Hin Hadv]]; [done|].
    by apply (pending_queued_resumed j s).
  - destruct (embeddingProgress_advances j c t f s) as [->|[Hin Hadv]]; [done|].
    by apply (pending_queued_resumed j s).
  - destruct (indexingProgress_advances j n t s) as [->|[Hin Hadv]]; [done|].
    by apply (pending_queued_resumed j s).
  - intros x job Hget Hp. apply getJob_cleanupOldJobs in Hget.
    assert (Jobs.jobQueue (Jobs.cleanupOldJobs now s) = Jobs.jobQueue s) as ->.
    { unfold Jobs.cleanupOldJobs. by destruct (Jobs.MAX_JOBS_HISTORY <? _). }
    by apply (Hpq x job).
Qed.

(** Every state reached from the initial one by calls, timers and
    settlements is consistent, with its [PENDING] jobs queued. *)
Lemma reachable_consistent (actions : list Jobs.Action) :
  consistent (Jobs.run actions Jobs.initial)
  /\ pending_queued (Jobs.run actions Jobs.initial).
Proof.
  unfold Jobs.run. induction actions as [|a actions IH] using rev_ind.
  - split; [apply consistent_initial|]. intros x job. unfold Jobs.getJob. cbn.
    by destruct (decide (x ∈ [])).
  - rewrite foldl_app. cbn. destruct IH as [Hc Hpq].
    split; [by apply consistent_step|by apply pending_queued_step].
Qed.

(** ** A job cancelled while pending *)

Lemma quiet_silent (j : nat) (s s' : Jobs.Service) :
  retired j s' -> Jobs.emitted s' = Jobs.emitted s -> quiet_after j s s'.
Proof.
  intros Hr He. split; [done|]. exists [].
  split; [by rewrite app_nil_r|constructor].
Qed.

Lemma quiet_refl (j : nat) (s : Jobs.Service) : retired j s -> quiet_after j s s.
Proof. intros Hr. by apply quiet_silent. Qed.

Lemma quiet_advances (i j : nat) (s s' : Jobs.Service) :
  (forall job, Jobs.objects s !! i = Some job -> job_id job = i) ->
  retired j s -> advances i s s' -> i <> j -> quiet_after j s s'.
Proof.
  intros Hid (Hq & Hs & Hu & Hst) Hadv Hne.
  pose proof Hadv as (Hq' & _ & Hu' & Ho & _ & Hs' & new & He & Hnew).
  split.
  - repeat split.
    + by rewrite Hq'.
    + intros Hin. destruct (Hs' j Hin); [done|by subst].
    + by rewrite Hu'.
    + rewrite (statusOf_advances i j s s') by done. done.
  - exists new. split; [done|]. eapply Forall_impl; [exact (Hnew Hid)|].
    cbn. intros e He' Hj. congruence.
Qed.

Lemma quiet_processQueue (j : nat) (s : Jobs.Service) :
  consistent s -> retired j s -> quiet_after j s (Jobs.processQueue s).
Proof.
  intros Hc Hr.
  destruct (processQueue_cases s) as [->|(i & rest & Hq & [[_ ->]| ->])].
  - by apply quiet_refl.
  - destruct Hr as (Hnq & Hs & Hu & Hst).
    assert (j ∉ rest) as Hrest.
    { intros Hin. apply Hnq. rewrite Hq. apply elem_of_cons. by right. }
    by apply quiet_silent.
  - destruct Hr as (Hnq & Hs & Hu & Hst).
    assert (i <> j) as Hne.
    { intros ->. apply Hnq. rewrite Hq. apply elem_of_cons. by left. }
    assert (j ∉ rest) as Hrest.
    { intros Hin. apply Hnq. rewrite Hq. apply elem_of_cons. by right. }
    destruct (quiet_advances i j
                (Jobs.set_running true (Jobs.activeJobs s + 1)
                   (Jobs.set_jobQueue (fun _ => rest) s))
                (Jobs.startJob i
                   (Jobs.set_running true (Jobs.activeJobs s + 1)
                      (Jobs.set_jobQueue (fun _ => rest) s))))
      as [Hr' Hev]; [|done|apply startJob_advances|done|by split].
    cbn. intros job Hjob. by apply (objects_created s Hc) in Hjob as [? _].
Qed.

Lemma quiet_step (j : nat) (a : Jobs.Action) (s : Jobs.Service) :
  consistent s -> retired j s -> quiet_after j s (Jobs.step a s).
Proof.
  intros Hc Hr.
  assert (forall i job, Jobs.objects s !! i = Some job -> job_id job = i) as Hid.
  { intros i job Hjob. by apply (objects_created s Hc) in Hjob as [? _]. }
  destruct a as [files now|k now| |k r now|k c t f|k n t|now]; cbn.
  - unfold Jobs.createJob. cbn [snd].
    pose proof (consistent_createJob files now s Hc) as Hc'.
    destruct Hr as (Hnq & Hs & Hu & Hst).
    match goal with
    | |- quiet_after j s (Jobs.processQueue ?s4) =>
        assert (retired j s4) as Hr4;
        [|assert (consistent s4) as Hc4;
          [|destruct (quiet_processQueue j s4 Hc4 Hr4) as [Hr' Hev]; by split]]
    end.
    + repeat split; cbn.
      * intros Hin. apply elem_of_app in Hin as [Hin|Hin]; [done|].
        apply list_elem_of_singleton in Hin. lia.
      * done.
      * lia.
      * unfold statusOf in *. cbn. by rewrite lookup_insert_ne by lia.
    + destruct Hc as [Hqc Hqn Hss Hoc]. split; cbn.
      * apply Forall_app. split.
        -- eapply Forall_impl; [exact Hqc|]. cbn. lia.
        -- repeat constructor. lia.
      * apply NoDup_app. split; [done|]. split; [|apply NoDup_singleton].
        intros x Hx Hx'. apply list_elem_of_singleton in Hx'. subst.
        rewrite Forall_forall in Hqc. specialize (Hqc _ Hx). lia.
      * apply Forall_forall. intros x Hx. rewrite Forall_forall in Hss.
        destruct (Hss x Hx) as [Hlt Hst']. split; [lia|].
        unfold statusOf in *. cbn. rewrite lookup_insert_ne by lia. done.
      * intros x job Hx. destruct (decide (x = Jobs.uuidsDrawn s)) as [->|Hne].
        -- rewrite lookup_insert_eq in Hx. injection Hx as <-. cbn. lia.
        -- rewrite lookup_insert_ne in Hx by done.
           destruct (Hoc x job Hx). split; [done|lia].
  - destruct (cancelJob_cases k now s)
      as [[_ ->]|(_ & Hq & Hsame & Hadv & job & job' & Hget & _ & Hj & Hst & He)];
      [by apply quiet_refl|].
    destruct Hr as (Hnq & Hs & Hu & Hstj).
    assert (j ∉ Jobs.removeFirst k (Jobs.jobQueue s)) as Hnq'.
    { intros Hin. by apply Hnq, (removeFirst_subset k). }
    destruct (decide (k = j)) as [->|Hne].
    + split.
      * repeat split.
        -- by rewrite Hq.
        -- unfold suspendedIds. by rewrite Hsame.
        -- by destruct Hadv as (_ & _ & -> & _).
        -- unfold statusOf. rewrite Hj. cbn. by rewrite Hst.
      * eexists. split; [exact He|]. repeat constructor. by rewrite <- Hst.
    + assert (retired j (Jobs.set_jobQueue (Jobs.removeFirst k) s)) as Hr0
        by done.
      destruct (quiet_advances k j (Jobs.set_jobQueue (Jobs.removeFirst k) s)
                  _ (Hid k) Hr0 Hadv Hne) as [Hr' Hev].
      split; [done|exact Hev].
  - destruct (Jobs.timers s) as [|n]; [by apply quiet_refl|].
    destruct (quiet_processQueue j (Jobs.set_timers n s)) as [Hr' Hev];
      [by destruct Hc|done|by split].
  - destruct (settle_advances k r now s) as [->|[Hin Hadv]]; [by apply quiet_refl|].
    apply (quiet_advances k); [by apply Hid|done..|].
    intros ->. by destruct Hr as (_ & Hs & _).
  - destruct (embeddingProgress_advances k c t f s) as [->|[Hin Hadv]];
      [by apply quiet_refl|].
    apply (quiet_advances k); [by apply Hid|done..|].
    intros ->. by destruct Hr as (_ & Hs & _).
  - destruct (indexingProgress_advances k n t s) as [->|[Hin Hadv]];
      [by apply quiet_refl|].
    apply (quiet_advances k); [by apply Hid|done..|].
    intros ->. by destruct Hr as (_ & Hs & _).
  - unfold Jobs.cleanupOldJobs.
    destruct (Jobs.MAX_JOBS_HISTORY <? _); by apply quiet_silent.
Qed.

Lemma quiet_run (j : nat) (actions : list Jobs.Action) (s : Jobs.Service) :
  consistent s -> retired j s -> quiet_after j s (Jobs.run actions s).
Proof.
  revert s. induction actions as [|a actions IH]; intros s Hc Hr.
  - by apply quiet_refl.
  - cbn. destruct (quiet_step j a s Hc Hr) as (Hr1 & l1 & He1 & Ho1).
    destruct (IH (Jobs.step a s) (consistent_step a s Hc) Hr1)
      as (Hr2 & l2 & He2 & Ho2).
    split; [done|]. exists (l1 ++ l2). split.
    + unfold Jobs.run in He2. rewrite He2, He1. by rewrite app_assoc.
    + by apply Forall_app.
Qed.

(** C9.  In every reachable state of the service, a job of the map that is
    still [PENDING] is in the queue; [cancelJob] then succeeds, takes its
    id out of the queue and marks it [CANCELLED]; and whatever happens
    afterwards (jobs created, timers fired, promises settled, further
    cancellations, clean-ups) the job is never queued again, never handed
    to [processJob], stays [CANCELLED], and every later progress event
    about it reports [CANCELLED]: no stage is ever executed for it. *)
Theorem cancel_pending_job_never_runs (before after : list Jobs.Action)
    (j : nat) (now : Z) (job : ProcessingJob) :
  let s := Jobs.run before Jobs.initial in
  Jobs.getJob j s = Some job ->
  job_status job = PENDING ->
  let s' := (Jobs.cancelJob j now s).2 in
  let s'' := Jobs.run after s' in
  j ∈ Jobs.jobQueue s
  /\ (Jobs.cancelJob j now s).1 = true
  /\ (j ∉ Jobs.jobQueue s')
  /\ statusOf s' j = Some CANCELLED
  /\ (j ∉ Jobs.jobQueue s'')
  /\ (j ∉ suspendedIds s'')
  /\ statusOf s'' j = Some CANCELLED
  /\ exists later,
       Jobs.emitted s'' = Jobs.emitted s' ++ later /\ only_cancelled j later.
Proof.
  intros s Hget Hp s' s''.
  destruct (reachable_consistent before) as [Hc Hpq]. fold s in Hc, Hpq.
  assert (j ∈ Jobs.jobQueue s) as Hin by (by apply (Hpq j job)).
  pose proof (getJob_status j s job Hget) as Hst. rewrite Hp in Hst.
  destruct (cancelJob_cases j now s)
    as [[Hfalse _]|(Htrue & Hq & Hsame & Hadv & job0 & job' & _ & _ & Hj & Hcan & _)].
  { exfalso. unfold Jobs.cancelJob in Hfalse. rewrite Hget, Hp in Hfalse.
    discriminate Hfalse. }
  fold s' in Hq, Hsame, Hadv, Hj.
  assert (retired j s') as Hr.
  { repeat split.
    - rewrite Hq. by apply removeFirst_NoDup, (queue_NoDup s Hc).
    - unfold suspendedIds. rewrite Hsame. intros Hs.
      pose proof (suspended_started s Hc) as Hss. rewrite Forall_forall in Hss.
      destruct (Hss j Hs) as [_ Hne]. by apply Hne.
    - destruct Hadv as (_ & _ & -> & _). cbn.
      unfold Jobs.getJob in Hget. destruct (decide (j ∈ Jobs.jobs s)); [|done].
      by apply (objects_created s Hc) in Hget as [_ Hlt].
    - unfold statusOf. rewrite Hj. cbn. by rewrite Hcan. }
  pose proof (consistent_cancelJob j now s Hc) as Hc'. fold s' in Hc'.
  destruct (quiet_run j after s' Hc' Hr) as ((Hq'' & Hs'' & _ & Hst'') & Hev).
  destruct Hr as (Hq' & _ & _ & Hst').
  repeat split; done.
Qed.

End JobFacts.

(** Job 1 is cancelled while job 0 is being processed. *)
Lemma cancel_pending_job_never_runs_witness :
  1 ∈ Jobs.jobQueue JobsExample.queued
  /\ (Jobs.cancelJob 1 30 JobsExample.queued).1 = true
  /\ (1 ∉ Jobs.jobQueue JobsExample.cancelled)
  /\ statusOf JobsExample.cancelled 1 = Some CANCELLED
  /\ (1 ∉ Jobs.jobQueue JobsExample.final)
  /\ (1 ∉ suspendedIds JobsExample.final)
  /\ statusOf JobsExample.final 1 = Some CANCELLED
  /\ exists later,
       Jobs.emitted JobsExample.final = Jobs.emitted JobsExample.cancelled ++ later
       /\ only_cancelled 1 later.
Proof.
  refine (cancel_pending_job_never_runs (SHA := DemoDigest.sha)
            JobsExample.before JobsExample.after 1 30 _ _ _);
    [vm_compute; reflexivity | reflexivity].
Defined.

(** ** Embedding batch manager: retries, failures and fallback *)

Section EmbeddingRuns.
Context {EP : EmbeddingProvider}.
Variable cfg : EmbeddingConfig.

Lemma generateEmbedding_retry_spec (remaining : nat) (text : string)
    (retryCount : nat) (e : Embedding) :
  Embeddings.generateEmbedding_retry remaining text retryCount = Some e
  <-> exists k, k <= remaining
        /\ embedContent (JS.newlines_to_spaces text) (retryCount + k) = Some e
        /\ forall j, j < k ->
             embedContent (JS.newlines_to_spaces text) (retryCount + j) = None.
Proof.
  revert retryCount.
  induction remaining as [|r IH]; intros retryCount; cbn [Embeddings.generateEmbedding_retry].
  - destruct (embedContent _ retryCount) as [e'|] eqn:E.
    + split.
      * intros [= ->]. exists 0. rewrite Nat.add_0_r. split; [lia|]. split; [done|]. lia.
      * intros (k & Hk & He & _). assert (k = 0) as -> by lia.
        rewrite Nat.add_0_r in He. congruence.
    + split; [done|]. intros (k & Hk & He & _). assert (k = 0) as -> by lia.
      rewrite Nat.add_0_r in He. congruence.
  - destruct (embedContent _ retryCount) as [e'|] eqn:E.
    + split.
      * intros [= ->]. exists 0. rewrite Nat.add_0_r. split; [lia|]. split; [done|]. lia.
      * intros (k & Hk & He & Hj). destruct k as [|k].
        -- rewrite Nat.add_0_r in He. congruence.
        -- specialize (Hj 0 ltac:(lia)). rewrite Nat.add_0_r in Hj. congruence.
    + rewrite IH. split.
      * intros (k & Hk & He & Hj). exists (S k). split; [lia|].
        split; [by rewrite <- Nat.add_assoc in He|].
        intros j Hlt. destruct j as [|j]; [by rewrite Nat.add_0_r|].
        specialize (Hj j ltac:(lia)). by rewrite <- Nat.add_assoc in Hj.
      * intros (k & Hk & He & Hj). destruct k as [|k].
        -- rewrite Nat.add_0_r in He. congruence.
        -- exists k. split; [lia|]. split; [by rewrite <- Nat.add_assoc|].
           intros j Hlt. specialize (Hj (S j) ltac:(lia)). by rewrite <- Nat.add_assoc.
Qed.

(** X1.  [generateEmbedding] returns the vector of the first attempt that
    succeeds among the attempts [0 .. maxRetries], and fails when all of
    them fail: it never makes more than [maxRetries + 1] attempts. *)
Theorem generateEmbedding_first_success (text : string) (e : Embedding) :
  Embeddings.generateEmbedding cfg text = Some e
  <-> exists k, k <= maxRetries cfg
        /\ embedContent (JS.newlines_to_spaces text) k = Some e
        /\ forall j, j < k -> embedContent (JS.newlines_to_spaces text) j = None.
Proof.
  unfold Embeddings.generateEmbedding. by rewrite generateEmbedding_retry_spec.
Qed.


Lemma generateEmbeddings_run_table (fuel : nat) (all : list string) :
  0 < batchSize cfg -> 0 < parallelBatches cfg -> length all <= fuel ->
  Embeddings.generateEmbeddings_run cfg fuel all
  = Some (Embeddings.collect (Embeddings.generateEmbedding cfg <$> all)).
Proof.
  intros Hbs Hpb Hfuel. unfold Embeddings.generateEmbeddings_run.
  destruct all as [|t all]; [done|].
  destruct (splitBatches_fills cfg (t :: all) fuel 0 Hbs)
    as (batches & -> & Hlen & Hfold); [lia|].
  cbn [mbind option_bind]. rewrite processGroups_foldl by lia.
  rewrite drop_0. rewrite take_0, Nat.sub_0_r in Hfold.
  cbn [fmap list_fmap app] in Hfold. by rewrite Hfold.
Qed.

(** The indices that [collect] reports as failed are those of the empty
    slots. *)
Lemma failedIndices_spec {A} (f : nat -> nat) (table : list (option A)) (i : nat) :
  i ∈ omap (fun p : nat * option A =>
              match p.2 with Some _ => None | None => Some p.1 end)
           (imap (fun k e => (f k, e)) table)
  <-> exists k, i = f k /\ table !! k = Some None.
Proof.
  revert f. induction table as [|e table IH]; intros f.
  - cbn. split; [by intros ?%elem_of_nil|]. by intros (k & _ & ?).
  - specialize (IH (fun k => f (S k))).
    destruct e as [a|]; cbn [imap omap list_omap snd fst];
      change (imap (_ ∘ S) table) with (imap (fun k e => (f (S k), e)) table).
    + rewrite IH. split.
      * intros (k & -> & Hk). by exists (S k).
      * intros (k & -> & Hk). destruct k as [|k]; [done|]. by exists k.
    + rewrite elem_of_cons, IH. split.
      * intros [->|(k & -> & Hk)]; [by exists 0|by exists (S k)].
      * intros (k & -> & Hk). destruct k as [|k]; [by left|right; by exists k].
Qed.

Lemma collect_lengths {A} (f : nat -> nat) (table : list (option A)) :
  length (omap (fun e => e) table)
  + length (omap (fun p : nat * option A =>
                    match p.2 with Some _ => None | None => Some p.1 end)
                 (imap (fun k e => (f k, e)) table))
  = length table.
Proof.
  revert f. induction table as [|e table IH]; intros f; [done|].
  specialize (IH (fun k => f (S k))).
  destruct e as [a|]; cbn [imap omap list_omap snd fst];
    change (imap (_ ∘ S) table) with (imap (fun k e => (f (S k), e)) table);
    cbn [length]; lia.
Qed.

(** X2.  With positive batch and group sizes [generateEmbeddings] ends,
    keeps the vectors of the texts that could be embedded, in the order
    of the texts, and logs as failed exactly the indices of the texts
    that could not: every text is counted once. *)
Theorem generateEmbeddings_run_partition (fuel : nat) (all : list string) :
  0 < batchSize cfg -> 0 < parallelBatches cfg -> length all <= fuel ->
  exists run,
    Embeddings.generateEmbeddings_run cfg fuel all = Some run
    /\ Embeddings.successfulEmbeddings run
       = omap (Embeddings.generateEmbedding cfg) all
    /\ (forall i, i ∈ Embeddings.failedIndices run
          <-> exists text, all !! i = Some text
                /\ Embeddings.generateEmbedding cfg text = None)
    /\ length (Embeddings.successfulEmbeddings run)
       + length (Embeddings.failedIndices run) = length all.
Proof.
  intros Hbs Hpb Hfuel. eexists. split; [by apply generateEmbeddings_run_table|].
  unfold Embeddings.collect. cbn [Embeddings.successfulEmbeddings Embeddings.failedIndices].
  split; [apply omap_outcomes|]. split.
  - intros i.
    rewrite (failedIndices_spec (fun k => k)). split.
    + intros (k & -> & Hk). rewrite list_lookup_fmap in Hk.
      destruct (all !! k) as [text|] eqn:E; [|done]. cbn in Hk.
      exists text. split; [done|]. congruence.
    + intros (text & Ht & Hn). exists i. split; [done|].
      by rewrite list_lookup_fmap, Ht; cbn; rewrite Hn.
  - rewrite (collect_lengths (fun k => k)). by rewrite length_fmap.
Qed.

Lemma omap_fmap_apply {A B C} (g : A -> B) (f : B -> option C) (l : list A) :
  omap f (g <$> l) = omap (fun a => f (g a)) l.
Proof.
  induction l as [|a l IH]; [done|]. cbn. destruct (f (g a)); cbn; by rewrite IH.
Qed.

Lemma omap_all_Some {A B} (f : A -> option B) (l : list A) :
  Forall (fun a => is_Some (f a)) l ->
  Forall2 (fun a b => f a = Some b) l (omap f l).
Proof.
  induction 1 as [|a l [b Hb] _ IH]; [constructor|].
  cbn. rewrite Hb. cbn. by constructor.
Qed.

(** X3.  When every chunk can be embedded, [generateChunkEmbeddings]
    returns all the chunks, in order, each with the vector of its own
    content. *)
Theorem generateChunkEmbeddings_all_succeed (fuel : nat)
    (chunks : list DocumentChunk) :
  0 < batchSize cfg -> 0 < parallelBatches cfg -> length chunks <= fuel ->
  Forall (fun c => is_Some (Embeddings.generateEmbedding cfg (content c))) chunks ->
  exists out,
    Embeddings.generateChunkEmbeddings cfg fuel chunks = Some out
    /\ Forall2 (fun c c' =>
         exists e, Embeddings.generateEmbedding cfg (content c) = Some e
                   /\ c' = with_embedding c e) chunks out.
Proof.
  intros Hbs Hpb Hfuel Hall. eexists.
  split; [by apply generateChunkEmbeddings_positional|].
  assert (Forall2 (fun c e => Embeddings.generateEmbedding cfg (content c) = Some e)
            chunks (omap (Embeddings.generateEmbedding cfg) (content <$> chunks)))
    as H2.
  { rewrite omap_fmap_apply. by apply omap_all_Some. }
  rewrite <- (Forall2_length _ _ _ H2), firstn_all.
  clear Hfuel Hall. revert H2.
  generalize (omap (Embeddings.generateEmbedding cfg) (content <$> chunks)).
  intros embs H2. induction H2 as [|c e cs es He _ IH]; [constructor|].
  cbn. constructor; [by exists e|done].
Qed.


Variable dimensions : nat.

Lemma length_omap_le {A B} (f : A -> option B) (l : list A) :
  length (omap f l) <= length l.
Proof.
  induction l as [|a l IH]; [done|]. cbn. destruct (f a); cbn; lia.
Qed.

(** The loop that tells successes from failures by counting: it hands
    out the vectors in order and pads with zero vectors. *)
Lemma identifyStep_foldl (embs : list Embedding) (n i s : nat)
    (run : Embeddings.FallbackRun) :
  s <= length embs ->
  (foldl (Embeddings.identifyStep dimensions embs) (run, s) (seq i n)).1
  = {| Embeddings.fb_embeddings :=
         Embeddings.fb_embeddings run ++ take n (drop s embs)
         ++ replicate (n - (length embs - s)) (Embeddings.zeroVector dimensions);
       Embeddings.fb_failedIndices :=
         Embeddings.fb_failedIndices run
         ++ seq (i + (length embs - s)) (n - (length embs - s)) |}.
Proof.
  revert i s run. induction n as [|n IH]; intros i s run Hs.
  - cbn. rewrite !app_nil_r. by destruct run.
  - cbn [seq foldl Embeddings.identifyStep].
    destruct (embs !! s) as [e|] eqn:He.
    + pose proof (lookup_lt_Some _ _ _ He) as Hlt.
      rewrite IH by lia. cbn [Embeddings.fb_embeddings Embeddings.fb_failedIndices].
      rewrite (drop_S _ _ _ He). cbn [take]. rewrite Nat.add_1_r.
      replace (S n - (length embs - s)) with (n - (length embs - S s)) by lia.
      replace (S i + (length embs - S s)) with (i + (length embs - s)) by lia.
      by rewrite <- app_assoc.
    + pose proof (lookup_ge_None_1 _ _ He) as Hge.
      rewrite IH by lia. cbn [Embeddings.fb_embeddings Embeddings.fb_failedIndices].
      assert (length embs - s = 0) as -> by lia.
      rewrite !Nat.sub_0_r, !Nat.add_0_r.
      rewrite !drop_ge by lia. rewrite !take_nil. cbn [app replicate seq].
      rewrite <- !app_assoc. done.
Qed.

(** X4.  [generateEmbeddingsWithFallback] returns one vector per text:
    the vectors of the texts that could be embedded come first, in order,
    followed by zero vectors, and the indices it reports as failed are
    the trailing ones, whichever texts failed. *)
Theorem generateEmbeddingsWithFallback_pads_tail (fuel : nat)
    (all : list string) :
  0 < batchSize cfg -> 0 < parallelBatches cfg -> length all <= fuel ->
  let successes := omap (Embeddings.generateEmbedding cfg) all in
  let missing := length all - length successes in
  Embeddings.generateEmbeddingsWithFallback cfg dimensions fuel all
  = Some {| Embeddings.fb_embeddings :=
              successes ++ replicate missing (Embeddings.zeroVector dimensions);
            Embeddings.fb_failedIndices := seq (length successes) missing |}.
Proof.
  intros Hbs Hpb Hfuel successes missing.
  unfold Embeddings.generateEmbeddingsWithFallback.
  rewrite generateEmbeddings_successes by done. cbn [mbind option_bind].
  fold successes. pose proof (length_omap_le (Embeddings.generateEmbedding cfg) all) as Hle.
  fold successes in Hle.
  destruct (length successes =? length all) eqn:E.
  - apply Nat.eqb_eq in E. unfold missing. rewrite E, Nat.sub_diag. cbn.
    by rewrite app_nil_r.
  - rewrite identifyStep_foldl by lia.
    cbn [Embeddings.fb_embeddings Embeddings.fb_failedIndices app].
    rewrite drop_0, !Nat.sub_0_r, Nat.add_0_l.
    by rewrite take_ge by lia.
Qed.

Lemma individualStep_foldl (all : list string) (f : nat -> nat)
    (run : Embeddings.FallbackRun) :
  foldl (Embeddings.individualStep cfg dimensions) run
    (imap (fun i text => (f i, text)) all)
  = {| Embeddings.fb_embeddings :=
         Embeddings.fb_embeddings run
         ++ ((fun text => default (Embeddings.zeroVector dimensions)
                            (Embeddings.generateEmbedding cfg text)) <$> all);
       Embeddings.fb_failedIndices :=
         Embeddings.fb_failedIndices run
         ++ omap (fun p : nat * option Embedding =>
                    match p.2 with Some _ => None | None => Some p.1 end)
                 (imap (fun i e => (f i, e))
                    (Embeddings.generateEmbedding cfg <$> all)) |}.
Proof.
  revert f run. induction all as [|t all IH]; intros f run.
  - cbn. rewrite !app_nil_r. by destruct run.
  - cbn [imap foldl fmap list_fmap].
    change (imap (_ ∘ S) all) with (imap (fun i text => (f (S i), text)) all).
    change (imap (_ ∘ S) (Embeddings.generateEmbedding cfg <$> all))
      with (imap (fun i e => (f (S i), e)) (Embeddings.generateEmbedding cfg <$> all)).
    rewrite (IH (fun i => f (S i))). unfold Embeddings.individualStep.
    cbn [fst snd].
    destruct (Embeddings.generateEmbedding cfg t) as [e|];
      cbn [Embeddings.fb_embeddings Embeddings.fb_failedIndices omap list_omap
           fst snd default];
      by rewrite <- !app_assoc.
Qed.

(** The per-text fallback loop returns one vector per text, the zero
    vector exactly at the texts that could not be embedded, and reports
    exactly their indices. *)
Theorem individualFallback_marks_failures (all : list string) :
  let run := Embeddings.individualFallback cfg dimensions all in
  Embeddings.fb_embeddings run
  = (fun text => default (Embeddings.zeroVector dimensions)
                   (Embeddings.generateEmbedding cfg text)) <$> all
  /\ forall i, i ∈ Embeddings.fb_failedIndices run
       <-> exists text, all !! i = Some text
             /\ Embeddings.generateEmbedding cfg text = None.
Proof.
  unfold Embeddings.individualFallback.
  rewrite (individualStep_foldl all (fun i => i)).
  cbn [Embeddings.fb_embeddings Embeddings.fb_failedIndices app]. split; [done|].
  intros i. rewrite (failedIndices_spec (fun k => k)). split.
  - intros (k & -> & Hk). rewrite list_lookup_fmap in Hk.
    destruct (all !! k) as [text|] eqn:E; [|done]. cbn in Hk.
    exists text. split; [done|]. congruence.
  - intros (text & Ht & Hn). exists i. split; [done|].
    by rewrite list_lookup_fmap, Ht; cbn; rewrite Hn.
Qed.

End EmbeddingRuns.


(** The batch of 100 texts, two of which cannot be embedded. *)
Lemma generateEmbeddings_run_partition_witness :
  exists run,
    Embeddings.generateEmbeddings_run (EP := Batch100.provider) Batch100.cfg 100
      (content <$> Batch100.chunks) = Some run
    /\ Embeddings.successfulEmbeddings run
       = omap (Embeddings.generateEmbedding (EP := Batch100.provider) Batch100.cfg)
              (content <$> Batch100.chunks)
    /\ (forall i, i ∈ Embeddings.failedIndices run
          <-> exists text, (content <$> Batch100.chunks) !! i = Some text
                /\ Embeddings.generateEmbedding (EP := Batch100.provider)
                     Batch100.cfg text = None)
    /\ length (Embeddings.successfulEmbeddings run)
       + length (Embeddings.failedIndices run)
       = length (content <$> Batch100.chunks).
Proof.
  apply (generateEmbeddings_run_partition (EP := Batch100.provider) Batch100.cfg
           100 (content <$> Batch100.chunks)); cbn; lia.
Defined.

(** Three chunks that can all be embedded. *)
Lemma generateChunkEmbeddings_all_succeed_witness :
  exists out,
    Embeddings.generateChunkEmbeddings (EP := Batch100.provider) Batch100.cfg 3
      (Batch100.chunkOf <$> [0; 1; 2]) = Some out
    /\ Forall2 (fun c c' =>
         exists e, Embeddings.generateEmbedding (EP := Batch100.provider)
                     Batch100.cfg (content c) = Some e
                   /\ c' = with_embedding c e)
         (Batch100.chunkOf <$> [0; 1; 2]) out.
Proof.
  apply (generateChunkEmbeddings_all_succeed (EP := Batch100.provider)
           Batch100.cfg 3 (Batch100.chunkOf <$> [0; 1; 2]));
    [cbn; lia | cbn; lia | cbn; lia |].
  repeat constructor; vm_compute; eexists; reflexivity.
Defined.

(** Three texts, the second of which cannot be embedded: the zero vector
    and the failed index come last. *)
Lemma generateEmbeddingsWithFallback_pads_tail_witness :
  Embeddings.generateEmbeddingsWithFallback (EP := Batch100.provider)
    Batch100.cfg 2 3 (Batch100.textOf <$> [9; 10; 11])
  = Some {| Embeddings.fb_embeddings :=
              [Batch100.vectorOf 9; Batch100.vectorOf 11; [0%Q; 0%Q]];
            Embeddings.fb_failedIndices := [2] |}.
Proof.
  etrans;
    [apply (generateEmbeddingsWithFallback_pads_tail (EP := Batch100.provider)
              Batch100.cfg 2 3 (Batch100.textOf <$> [9; 10; 11])); cbn; lia|].
  vm_compute. reflexivity.
Defined.

(** ** Sequential embedding service *)

Section BasicEmbeddingFacts.
Context {EP : EmbeddingProvider}.


Lemma mapM_app_bind {A B} (f : A -> option B) (l1 l2 : list A) :
  mapM f (l1 ++ l2)
  = (es1 ← mapM f l1; es2 ← mapM f l2; Some (es1 ++ es2)).
Proof.
  induction l1 as [|a l1 IH]; cbn.
  - by destruct (mapM f l2).
  - destruct (f a) as [b|]; cbn; [|done]. rewrite IH.
    destruct (mapM f l1) as [es1|]; cbn; [|done].
    by destruct (mapM f l2).
Qed.

Lemma embedBatch_mapM (batch : list string) (embeddings : list Embedding) :
  BasicEmbeddings.embedBatch batch embeddings
  = match mapM embedOnce batch with
    | Some es => Returned (embeddings ++ es)
    | None => Thrown
    end.
Proof.
  revert embeddings. induction batch as [|t batch IH]; intros embeddings; cbn.
  - by rewrite app_nil_r.
  - change (embedContent (JS.newlines_to_spaces t) 0) with (embedOnce t).
    destruct (embedOnce t) as [e|]; [|done].
    cbn [await]. rewrite bind_Returned, IH. cbn [mbind option_bind].
    destruct (mapM embedOnce batch) as [es|]; cbn; [|done].
    by rewrite <- app_assoc.
Qed.

Lemma batchLoop_mapM (fuel : nat) (all : list string) (i : nat)
    (embeddings : list Embedding) :
  length all - i <= fuel ->
  BasicEmbeddings.batchLoop fuel all i embeddings
  = match mapM embedOnce (drop i all) with
    | Some es => Returned (embeddings ++ es)
    | None => Thrown
    end.
Proof.
  revert i embeddings. induction fuel as [|fuel IH]; intros i embeddings Hfuel.
  - cbn [BasicEmbeddings.batchLoop].
    destruct (i <? length all) eqn:E; [apply Nat.ltb_lt in E; lia|].
    apply Nat.ltb_ge in E. rewrite drop_ge by done. cbn. by rewrite app_nil_r.
  - cbn [BasicEmbeddings.batchLoop].
    destruct (i <? length all) eqn:E.
    + apply Nat.ltb_lt in E. rewrite embedBatch_mapM.
      unfold JS.slice, BasicEmbeddings.batchSize.
      replace (i + 5 - i) with 5 by lia.
      rewrite <- (take_drop 5 (drop i all)) at 2. rewrite mapM_app_bind.
      destruct (mapM embedOnce (take 5 (drop i all))) as [es1|]; cbn; [|done].
      rewrite IH by lia. rewrite drop_drop.
      destruct (mapM embedOnce (drop (i + 5) all)) as [es2|]; cbn; [|done].
      by rewrite <- app_assoc.
    + apply Nat.ltb_ge in E. rewrite drop_ge by done. cbn. by rewrite app_nil_r.
Qed.

Lemma imap_with_embedding_at (embs pre : list Embedding)
    (chunks : list DocumentChunk) :
  length embs = length chunks ->
  imap (fun i c => BasicEmbeddings.with_embedding_at (pre ++ embs) (length pre + i) c)
       chunks
  = zip_with with_embedding chunks embs.
Proof.
  revert pre embs. induction chunks as [|c chunks IH]; intros pre embs Hlen; [done|].
  destruct embs as [|e embs]; [done|]. cbn [imap zip_with]. f_equal.
  - unfold BasicEmbeddings.with_embedding_at, with_embedding.
    rewrite Nat.add_0_r, lookup_app_r, Nat.sub_diag by done. done.
  - rewrite <- (IH (pre ++ [e]) embs) by (cbn in Hlen; lia).
    apply imap_ext. intros i c' _. cbn. rewrite <- app_assoc. cbn.
    rewrite length_app. cbn. f_equal. lia.
Qed.

(** X5.  The sequential service embeds all or nothing: when every chunk
    can be embedded at the first attempt, [generateChunkEmbeddings]
    returns every chunk with the vector of its own content; when one
    cannot, the call throws.  It always ends. *)
Theorem sequential_generateChunkEmbeddings_all_or_nothing
    (chunks : list DocumentChunk) :
  BasicEmbeddings.generateChunkEmbeddings chunks
  = match mapM (fun c => embedContent (JS.newlines_to_spaces (content c)) 0)
                chunks with
    | Some embeddings => Returned (zip_with with_embedding chunks embeddings)
    | None => Thrown
    end.
Proof.
  unfold BasicEmbeddings.generateChunkEmbeddings, BasicEmbeddings.generateEmbeddings.
  rewrite batchLoop_mapM by lia. rewrite drop_0.
  assert (mapM embedOnce (content <$> chunks)
          = mapM (fun c => embedContent (JS.newlines_to_spaces (content c)) 0) chunks)
    as ->.
  { induction chunks as [|c chunks IH]; [done|]. cbn.
    change (embedContent (JS.newlines_to_spaces (content c)) 0)
      with (embedOnce (content c)).
    destruct (embedOnce (content c)); cbn; [|done]. by rewrite IH. }
  destruct (mapM _ chunks) as [embs|] eqn:E; cbn; [|done].
  f_equal. apply length_mapM in E.
  exact (imap_with_embedding_at embs [] chunks (eq_sym E)).
Qed.

End BasicEmbeddingFacts.

(** ** Chunker: what every chunk satisfies *)

Section ChunkFacts.
Context {TK : Tokenizer} {US : UuidSource} {TH : TextHelpers}.
Variable cfg : ChunkingConfig.

Lemma loopBody_cases (text : string) (base : Chunker.BaseMetadata)
    (st : Chunker.LoopState) :
  (exists e, Chunker.loopBody cfg text base st = Chunker.skipTo st e)
  \/ exists t n e,
       Chunker.loopBody cfg text base st = Chunker.accept cfg st base t n e
       /\ t <> ""%string /\ n = countTokens t /\ minChunkLength cfg <= n.
Proof.
  unfold Chunker.loopBody.
  set (e1 := Chunker.findBestSplitPoint text _ _ _).
  set (t1 := JS.trim (JS.str_slice _ e1 text)).
  destruct (String.length t1 =? 0) eqn:E1; [left; by eexists|].
  destruct (countTokens t1 <? minChunkLength cfg) eqn:E2; [left; by eexists|].
  apply Nat.eqb_neq in E1. apply Nat.ltb_ge in E2.
  assert (t1 <> ""%string) as Hne by (intros Heq; by rewrite Heq in E1).
  right.
  destruct (3 * chunkSize cfg <? 2 * countTokens t1).
  - set (e2 := Chunker.findBestSplitPoint text _ _ _).
    set (t2 := JS.trim (JS.str_slice _ e2 text)).
    destruct ((minChunkLength cfg <=? countTokens t2) && (0 <? String.length t2)) eqn:E3.
    + apply andb_true_iff in E3 as [E3 E4].
      apply Nat.leb_le in E3. apply Nat.ltb_lt in E4.
      exists t2, (countTokens t2), e2. repeat split; [|done].
      intros Heq. rewrite Heq in E4. cbn in E4. lia.
    + by exists t1, (countTokens t1), e2.
  - by exists t1, (countTokens t1), e1.
Qed.

Lemma loopBody_invariant (text : string) (base : Chunker.BaseMetadata)
    (first : nat) (st : Chunker.LoopState) :
  Chunker.loopCond cfg text st = true ->
  loopInvariant cfg base first st ->
  loopInvariant cfg base first (Chunker.loopBody cfg text base st).
Proof.
  intros Hc (Hwf & Hid & Hu & Hcap).
  destruct (loopBody_cases text base st) as [[e ->]|(t & n & e & -> & Hne & Hn & Hmin)].
  - done.
  - unfold Chunker.loopCond in Hc. apply andb_true_iff in Hc as [_ Hc].
    apply Nat.ltb_lt in Hc.
    unfold loopInvariant, Chunker.accept.
    cbn [Chunker.chunks Chunker.uuids]. rewrite length_app. cbn [length].
    repeat split.
    + apply Forall_app. split; [done|]. constructor; [|constructor].
      unfold chunkOfBase, Chunker.newChunk. cbn. subst n. done.
    + rewrite fmap_app, Hid, Nat.add_1_r, seq_S, fmap_app. cbn.
      by rewrite Hu.
    + lia.
    + lia.
Qed.

Lemma runLoop_invariant (fuel : nat) (text : string)
    (base : Chunker.BaseMetadata) (first : nat) (st st' : Chunker.LoopState) :
  Chunker.runLoop cfg fuel text base st = Some st' ->
  loopInvariant cfg base first st -> loopInvariant cfg base first st'.
Proof.
  revert st. induction fuel as [|fuel IH]; intros st; cbn [Chunker.runLoop].
  - destruct (Chunker.loopCond cfg text st); [done|]. by intros [= <-].
  - destruct (Chunker.loopCond cfg text st) eqn:Hc; [|by intros [= <-]].
    intros Hrun Hinv. apply (IH _ Hrun). by apply loopBody_invariant.
Qed.

Lemma chunkOfBase_set_totalChunks (base : Chunker.BaseMetadata) (n : nat)
    (c : DocumentChunk) :
  chunkOfBase cfg base c -> chunkOfBase cfg base (Chunker.set_totalChunks n c).
Proof. by unfold chunkOfBase, Chunker.set_totalChunks. Qed.

Lemma createTokenBasedChunks_invariant (fuel : nat) (text : string)
    (base : Chunker.BaseMetadata) (startingIndex uuid0 uuid1 : nat)
    (cs : list DocumentChunk) :
  Chunker.createTokenBasedChunks cfg fuel text base startingIndex uuid0
  = Some (cs, uuid1) ->
  Forall (chunkOfBase cfg base) cs
  /\ id <$> cs = (fun k => uuidv4 (uuid0 + k)) <$> seq 0 (length cs)
  /\ uuid1 = uuid0 + length cs
  /\ length cs <= maxChunksPerDocument cfg.
Proof.
  unfold Chunker.createTokenBasedChunks.
  destruct (Chunker.runLoop _ _ _ _ _) as [st'|] eqn:Hrun; [|done].
  cbn. intros [= <- <-].
  apply (runLoop_invariant _ _ _ uuid0) in Hrun as (Hwf & Hid & Hu & Hcap).
  - rewrite length_fmap. repeat split; [|  |done..].
    + apply Forall_fmap. eapply Forall_impl; [exact Hwf|].
      intros c Hc. by apply chunkOfBase_set_totalChunks.
    + rewrite <- Hid, <- list_fmap_compose. by apply list_fmap_ext.
  - unfold loopInvariant. cbn. repeat split; [constructor|lia|lia].
Qed.


Lemma seq_shift_fmap {A} (f : nat -> A) (a n : nat) :
  f <$> seq a n = (fun k => f (a + k)) <$> seq 0 n.
Proof.
  rewrite <- (Nat.add_0_r a) at 1.
  by rewrite <- fmap_add_seq, <- list_fmap_compose.
Qed.

Lemma processSections_invariant (file : UploadedFile) (docId stamp : string)
    (sections : list DocSection) (acc cs : list DocumentChunk)
    (g uuid uuid' : nat) :
  Chunker.processSections cfg file docId stamp sections acc g uuid
  = Some (cs, uuid') ->
  exists groups : list (list DocumentChunk),
    cs = acc ++ concat groups
    /\ Forall2 (fun sec grp =>
         Forall (chunkOfBase cfg (baseOf file docId stamp sec)) grp
         /\ length grp <= maxChunksPerDocument cfg) sections groups
    /\ id <$> concat groups
       = (fun k => uuidv4 (uuid + k)) <$> seq 0 (length (concat groups))
    /\ uuid' = uuid + length (concat groups).
Proof.
  revert acc g uuid. induction sections as [|sec rest IH]; intros acc g uuid.
  - cbn. intros [= <- <-]. exists []. cbn. rewrite app_nil_r.
    repeat split; [constructor|lia].
  - cbn [Chunker.processSections].
    destruct (Chunker.createTokenBasedChunks _ _ _ _ _ _) as [[grp u1]|] eqn:Hc;
      [|done].
    cbn. intros Hrest.
    apply createTokenBasedChunks_invariant in Hc as (Hwf & Hid & -> & Hcap).
    apply IH in Hrest as (groups & -> & Hall & Hids & ->).
    exists (grp :: groups). cbn [concat]. repeat split.
    + by rewrite <- app_assoc.
    + by constructor.
    + rewrite fmap_app, length_app, seq_app, fmap_app, Hid, Hids. f_equal.
      cbn [Nat.add]. rewrite (seq_shift_fmap _ (length grp)).
      apply list_fmap_ext. intros i k _. f_equal. lia.
    + rewrite length_app. lia.
Qed.

(** X6.  Every chunk that [processFile] returns has a content that is not
    empty, carries the token count of its content, which is at least
    [minChunkLength], names the file as its source and the identifier
    drawn for the document as its [documentId], and has no embedding
    yet. *)
Theorem processFile_chunks_well_formed (file : UploadedFile) (now : string)
    (uuid0 uuid1 : nat) (cs : list DocumentChunk) :
  Chunker.processFile cfg file now uuid0 = Some (cs, uuid1) ->
  Forall (chunkOfFile cfg file (uuidv4 uuid0)) cs.
Proof.
  unfold Chunker.processFile. intros Hp.
  apply processSections_invariant in Hp as (groups & -> & Hall & _).
  cbn [app]. induction Hall as [|sec grp secs grps [Hwf _] _ IH]; [constructor|].
  cbn [concat]. apply Forall_app. split; [|done].
  eapply Forall_impl; [exact Hwf|]. intros c (? & ? & ? & ? & ? & _ & ?).
  by repeat split.
Qed.

(** X7.  [processFile] draws one identifier for the document and then one
    per chunk, in the order of the chunks; when [uuidv4] never repeats,
    the chunk ids of a document are pairwise distinct and differ from its
    [documentId]. *)
Theorem processFile_identifiers (file : UploadedFile) (now : string)
    (uuid0 uuid1 : nat) (cs : list DocumentChunk) :
  Chunker.processFile cfg file now uuid0 = Some (cs, uuid1) ->
  id <$> cs = (fun k => uuidv4 (uuid0 + 1 + k)) <$> seq 0 (length cs)
  /\ uuid1 = uuid0 + 1 + length cs
  /\ ((forall a b, uuidv4 a = uuidv4 b -> a = b) ->
      NoDup (uuidv4 uuid0 :: (id <$> cs))).
Proof.
  unfold Chunker.processFile. intros Hp.
  apply processSections_invariant in Hp as (groups & -> & _ & Hids & ->).
  cbn [app]. split; [done|]. split; [done|]. intros Hinj.
  rewrite Hids.
  assert (uuidv4 uuid0 :: ((fun k => uuidv4 (uuid0 + 1 + k))
                             <$> seq 0 (length (concat groups)))
          = uuidv4 <$> seq uuid0 (S (length (concat groups)))) as ->.
  { cbn [seq fmap list_fmap]. f_equal.
    rewrite (seq_shift_fmap uuidv4 (S uuid0)).
    apply list_fmap_ext. intros i k _. f_equal. lia. }
  apply NoDup_fmap_2; [intros a b; apply Hinj|].
  apply NoDup_seq.
Qed.

(** X8.  The limit [maxChunksPerDocument] applies to each section: a
    document yields at most that many chunks per section. *)
Theorem processFile_chunks_per_section (file : UploadedFile) (now : string)
    (uuid0 uuid1 : nat) (cs : list DocumentChunk) :
  Chunker.processFile cfg file now uuid0 = Some (cs, uuid1) ->
  length cs
  <= length (extractSections (cleanText (file_content file)) (name file))
     * maxChunksPerDocument cfg.
Proof.
  unfold Chunker.processFile. intros Hp.
  apply processSections_invariant in Hp as (groups & -> & Hall & _).
  cbn [app]. induction Hall as [|sec grp secs grps [_ Hcap] _ IH]; [done|].
  cbn [concat length]. rewrite length_app. lia.
Qed.

Lemma processFilesFrom_groups (k : nat) (files : list UploadedFile)
    (stamp : nat -> string) (acc cs : list DocumentChunk) (uuid uuid' : nat) :
  Chunker.processFilesFrom cfg k files stamp acc uuid = Some (cs, uuid') ->
  exists groups : list (list DocumentChunk),
    cs = acc ++ concat groups
    /\ Forall2 (fun file grp =>
         indexOf <$> grp = seq 0 (length grp)
         /\ exists docId, Forall (chunkOfFile cfg file docId) grp) files groups.
Proof.
  revert k acc uuid. induction files as [|file rest IH]; intros k acc uuid.
  - cbn. intros [= <- _]. exists []. cbn. rewrite app_nil_r. by split; [|constructor].
  - cbn [Chunker.processFilesFrom].
    destruct (Chunker.processFile cfg file (stamp k) uuid) as [[grp u1]|] eqn:Hf;
      [|done].
    cbn. intros Hrest.
    apply IH in Hrest as (groups & -> & Hall).
    exists (grp :: groups). cbn [concat]. split; [by rewrite <- app_assoc|].
    constructor; [|done]. split.
    + by apply (processFile_chunkIndex_contiguous cfg file (stamp k) uuid u1).
    + exists (uuidv4 uuid). unfold Chunker.processFile in Hf.
      apply processSections_invariant in Hf as (parts & -> & Hparts & _).
      cbn [app]. clear -Hparts.
      induction Hparts as [|sec part secs parts [Hwf _] _ IHparts]; [constructor|].
      cbn [concat]. apply Forall_app. split; [|done].
      eapply Forall_impl; [exact Hwf|]. intros c (? & ? & ? & ? & ? & _ & ?).
      by repeat split.
Qed.


End ChunkFacts.


(** The two-section file. *)
Lemma processFile_chunks_well_formed_witness :
  Forall (chunkOfFile (TK := TwoSections.tokenizer) config_chunking
            TwoSections.file (uuidv4 (UuidSource := TwoSections.uuidSource) 0))
         ChunkedExample.chunks.
Proof.
  apply (processFile_chunks_well_formed (TK := TwoSections.tokenizer)
           (US := TwoSections.uuidSource) (TH := TwoSections.helpers)
           config_chunking TwoSections.file "2025-01-01T00:00:00.000Z" 0
           ChunkedExample.uuids ChunkedExample.chunks).
  vm_compute. reflexivity.
Defined.

Lemma processFile_identifiers_witness :
  id <$> ChunkedExample.chunks
  = (fun k => uuidv4 (UuidSource := TwoSections.uuidSource) (0 + 1 + k))
      <$> seq 0 (length ChunkedExample.chunks)
  /\ ChunkedExample.uuids = 0 + 1 + length ChunkedExample.chunks
  /\ ((forall a b, uuidv4 (UuidSource := TwoSections.uuidSource) a
                   = uuidv4 (UuidSource := TwoSections.uuidSource) b -> a = b) ->
      NoDup (uuidv4 (UuidSource := TwoSections.uuidSource) 0
             :: (id <$> ChunkedExample.chunks))).
Proof.
  apply (processFile_identifiers (TK := TwoSections.tokenizer)
           (US := TwoSections.uuidSource) (TH := TwoSections.helpers)
           config_chunking TwoSections.file "2025-01-01T00:00:00.000Z" 0
           ChunkedExample.uuids ChunkedExample.chunks).
  vm_compute. reflexivity.
Defined.

Lemma processFile_chunks_per_section_witness :
  length ChunkedExample.chunks
  <= length (extractSections (TextHelpers := TwoSections.helpers)
               (cleanText (TextHelpers := TwoSections.helpers)
                  (file_content TwoSections.file))
               (name TwoSections.file))
     * maxChunksPerDocument config_chunking.
Proof.
  apply (processFile_chunks_per_section (TK := TwoSections.tokenizer)
           (US := TwoSections.uuidSource) (TH := TwoSections.helpers)
           config_chunking TwoSections.file "2025-01-01T00:00:00.000Z" 0
           ChunkedExample.uuids ChunkedExample.chunks).
  vm_compute. reflexivity.
Defined.


(** ** Chunker: split points and statistics *)

Lemma lastIndexOf_from_fits (sep s : string) (k i : nat) :
  JS.lastIndexOf_from sep s k = Some i ->
  i <= k /\ i + String.length sep <= String.length s.
Proof.
  induction k as [|k IH]; cbn [JS.lastIndexOf_from].
  - destruct (_ && _) eqn:E; [|done]. intros [= <-].
    apply andb_true_iff in E as [_ E]. apply Nat.leb_le in E. lia.
  - destruct (_ && _) eqn:E.
    + intros [= <-]. apply andb_true_iff in E as [_ E]. apply Nat.leb_le in E. lia.
    + intros Hk. apply IH in Hk. lia.
Qed.

Lemma lastIndexOf_fits (sep s : string) (from i : nat) :
  JS.lastIndexOf sep s from = Some i ->
  i <= from /\ i + String.length sep <= String.length s.
Proof.
  unfold JS.lastIndexOf. destruct (_ <? _); [done|].
  intros Hk. apply lastIndexOf_from_fits in Hk. lia.
Qed.

Lemma trySeparators_within (text : string) (start end_ : nat)
    (seps : list string) (p : nat) :
  Chunker.trySeparators text start end_ seps = Some p -> p <= String.length text.
Proof.
  induction seps as [|sep seps IH]; [done|]. cbn [Chunker.trySeparators].
  destruct (JS.lastIndexOf sep text end_) as [i|] eqn:E; [|done].
  destruct (_ && _); [|done]. intros [= <-].
  apply lastIndexOf_fits in E. lia.
Qed.

Lemma wordBoundary_within (text : string) (start i k : nat) :
  Chunker.wordBoundary text start i = Some k -> k <= i.
Proof.
  induction i as [|i IH]; cbn [Chunker.wordBoundary].
  - destruct (start <? 0); [|done]. destruct (Chunker.is_word_break _); [|done].
    by intros [= <-].
  - destruct (start <? S i); [|done]. destruct (Chunker.is_word_break _).
    + by intros [= <-].
    + intros Hk. apply IH in Hk. lia.
Qed.

(** X10.  A split point never lies beyond the end of the text, and it
    lies behind the start of the window whenever the window is not
    empty. *)
Theorem findBestSplitPoint_within_text (text : string) (start end_ : nat)
    (seps : list string) :
  Chunker.findBestSplitPoint text start end_ seps <= String.length text
  /\ (start < Nat.min end_ (String.length text) ->
      start < Chunker.findBestSplitPoint text start end_ seps).
Proof.
  split; [|apply findBestSplitPoint_after_start].
  unfold Chunker.findBestSplitPoint.
  destruct (Chunker.trySeparators _ _ _ _) as [p|] eqn:E1.
  - by apply trySeparators_within in E1.
  - destruct (Chunker.wordBoundary _ _ _) as [k|] eqn:E2.
    + apply wordBoundary_within in E2. lia.
    + lia.
Qed.

Lemma foldl_min_bounds (c : nat) (rest : list nat) :
  foldl Nat.min c rest <= c /\ Forall (fun t => foldl Nat.min c rest <= t) rest.
Proof.
  revert c. induction rest as [|t rest IH]; intros c; cbn; [by split|].
  destruct (IH (Nat.min c t)) as [H1 H2]. split; [lia|].
  constructor; [lia|done].
Qed.

Lemma foldl_max_bounds (c : nat) (rest : list nat) :
  c <= foldl Nat.max c rest /\ Forall (fun t => t <= foldl Nat.max c rest) rest.
Proof.
  revert c. induction rest as [|t rest IH]; intros c; cbn; [by split|].
  destruct (IH (Nat.max c t)) as [H1 H2]. split; [lia|].
  constructor; [lia|done].
Qed.

Lemma foldl_sum_bounds (lo hi acc : nat) (l : list nat) :
  Forall (fun t => lo <= t <= hi) l ->
  acc + length l * lo <= foldl (fun sum t => sum + t) acc l
  /\ foldl (fun sum t => sum + t) acc l <= acc + length l * hi.
Proof.
  intros Hall. revert acc. induction Hall as [|t l Ht _ IH]; intros acc; cbn; [lia|].
  destruct (IH (acc + t)). lia.
Qed.

Lemma round_div_between (a b lo hi : nat) :
  0 < b -> b * lo <= a -> a <= b * hi ->
  lo <= Chunker.round_div a b /\ Chunker.round_div a b <= hi.
Proof.
  intros Hb Hlo Hhi. unfold Chunker.round_div. split.
  - apply Nat.div_le_lower_bound; lia.
  - assert ((2 * a + b) / (2 * b) < S hi); [|lia].
    apply Nat.Div0.div_lt_upper_bound; lia.
Qed.


(** ** Deduplication cache: look-up, clean-up and persistence *)

Lemma isExpired_spec (now : Z) (entry : CacheEntry) :
  Cache.isExpired now entry
  = negb (bool_decide (now - entry_timestamp entry < 604800000)%Z).
Proof.
  rewrite <- within_retention_window. unfold Cache.isExpired, Cache.Qltb.
  by destruct (_ ?= _)%Q.
Qed.

Section CacheOperations.
Context {SHA : Sha256}.

(** X12.  [isDocumentDuplicate] reports a duplicate exactly when the
    digest of the trimmed content has an entry younger than 7 days, and
    then returns that entry and leaves the cache as it is; otherwise it
    returns no entry, and an entry that has expired is deleted. *)
Theorem isDocumentDuplicate_spec (now : Z) (content : string)
    (cache : DocumentCache) :
  let r := Cache.isDocumentDuplicate now content cache in
  let hash := Cache.calculateContentHash content in
  (isDuplicate r.1 = true
   <-> exists entry, documentHashes cache !! hash = Some entry
         /\ (now - entry_timestamp entry < 604800000)%Z)
  /\ (isDuplicate r.1 = true ->
      existingEntry r.1 = documentHashes cache !! hash /\ r.2 = cache)
  /\ (isDuplicate r.1 = false ->
      existingEntry r.1 = None
      /\ documentHashes r.2 = delete hash (documentHashes cache)
      /\ chunkHashes r.2 = chunkHashes cache).
Proof.
  cbv zeta. unfold Cache.isDocumentDuplicate.
  destruct (documentHashes cache !! Cache.calculateContentHash content)
    as [entry|] eqn:E.
  - rewrite within_retention_window. case_bool_decide as Hage; cbn.
    + split; [|by split]. split; [|done]. intros _. by exists entry.
    + split; [|by split]. split; [done|]. intros (e & [= <-] & ?). done.
  - cbn. split; [|split; [done|]].
    + split; [done|]. by intros (e & ? & _).
    + intros _. by rewrite delete_id.
Qed.

Lemma chunkFilter_invariant (chunks : list DocumentChunk) (cache : DocumentCache) :
  let st :=
    foldl (Cache.chunkFilterStep cache)
      {| Cache.cf_unique := []; Cache.cf_seenHashes := ∅;
         Cache.cf_duplicateCount := 0 |} chunks in
  (forall h, h ∈ Cache.cf_seenHashes st <-> h ∈ chunkHashOf <$> Cache.cf_unique st)
  /\ NoDup (chunkHashOf <$> Cache.cf_unique st)
  /\ Forall (fun c => chunkHashOf c ∉ chunkHashes cache) (Cache.cf_unique st)
  /\ sublist (Cache.cf_unique st) chunks
  /\ length (Cache.cf_unique st) + Cache.cf_duplicateCount st = length chunks
  /\ (forall c, c ∈ chunks -> chunkHashOf c ∉ chunkHashes cache ->
        chunkHashOf c ∈ chunkHashOf <$> Cache.cf_unique st).
Proof.
  induction chunks as [|c chunks IH] using rev_ind.
  - cbn. split; [intros h; split; [by intros ?%elem_of_empty|by intros ?%elem_of_nil]|].
    split; [constructor|]. split; [constructor|]. split; [constructor|].
    split; [done|]. by intros ? ?%elem_of_nil.
  - cbv zeta in *. rewrite foldl_app. cbn [foldl].
    destruct IH as (Hseen & Hnd & Hfresh & Hsub & Hlen & Hall).
    set (st := foldl (Cache.chunkFilterStep cache) _ chunks) in *.
    unfold Cache.chunkFilterStep. fold (chunkHashOf c).
    destruct (decide (chunkHashOf c ∈ Cache.cf_seenHashes st
                      \/ chunkHashOf c ∈ chunkHashes cache)) as [Hd|Hd];
      cbn [Cache.cf_unique Cache.cf_seenHashes Cache.cf_duplicateCount].
    + repeat split; try done.
      * by apply Hseen.
      * by apply Hseen.
      * by apply sublist_inserts_r.
      * rewrite length_app. cbn. lia.
      * intros c' Hc' Hn. apply elem_of_app in Hc' as [Hc'|Hc']; [by apply Hall|].
        apply list_elem_of_singleton in Hc' as ->.
        destruct Hd as [Hd|Hd]; [by apply Hseen|done].
    + assert (chunkHashOf c ∉ Cache.cf_seenHashes st) as Hn1 by tauto.
      assert (chunkHashOf c ∉ chunkHashes cache) as Hn2 by tauto.
      rewrite fmap_app. cbn [fmap list_fmap].
      repeat split.
      * intros Hh. apply elem_of_app. apply elem_of_union in Hh as [Hh|Hh].
        -- right. apply elem_of_singleton in Hh as ->. apply list_elem_of_singleton. done.
        -- left. by apply Hseen.
      * intros Hh. apply elem_of_union. apply elem_of_app in Hh as [Hh|Hh].
        -- right. by apply Hseen.
        -- left. apply list_elem_of_singleton in Hh as ->. by apply elem_of_singleton.
      * apply NoDup_app. split; [done|]. split; [|apply NoDup_singleton].
        intros h Hh Hh'. apply list_elem_of_singleton in Hh' as ->.
        by apply Hn1, Hseen.
      * apply Forall_app. split; [done|]. by constructor.
      * by apply sublist_app.
      * rewrite !length_app. cbn. lia.
      * intros c' Hc' Hn. apply elem_of_app.
        apply elem_of_app in Hc' as [Hc'|Hc']; [left; by apply Hall|].
        apply list_elem_of_singleton in Hc' as ->. right.
        by apply list_elem_of_singleton.
Qed.

Lemma sorted_snoc (l : list nat) (y : nat) :
  StronglySorted lt l -> Forall (fun x => x < y) l -> StronglySorted lt (l ++ [y]).
Proof.
  induction 1 as [|x l Hl IH Hx]; intros Hy; cbn; [by repeat constructor|].
  apply Forall_cons in Hy as [Hxy Hy]. constructor; [by apply IH|].
  apply Forall_app. split; [done|]. by repeat constructor.
Qed.

(** The kept chunks are the chunks at the positions at which a digest
    that is not cached occurs for the first time. *)
Lemma chunkFilter_positions (chunks : list DocumentChunk) (cache : DocumentCache) :
  let st :=
    foldl (Cache.chunkFilterStep cache)
      {| Cache.cf_unique := []; Cache.cf_seenHashes := ∅;
         Cache.cf_duplicateCount := 0 |} chunks in
  exists positions : list nat,
    StronglySorted lt positions
    /\ Forall2 (fun i c => chunks !! i = Some c) positions (Cache.cf_unique st)
    /\ forall i, i ∈ positions <-> firstUncached cache chunks i.
Proof.
  induction chunks as [|c chunks IH] using rev_ind.
  - exists []. split; [constructor|]. split; [constructor|].
    intros i. split; [by intros ?%elem_of_nil|].
    by intros (c & Hc & _).
  - cbv zeta in *. rewrite foldl_app. cbn [foldl].
    destruct IH as (positions & Hsorted & Hat & Hpos).
    destruct (chunkFilter_invariant chunks cache)
      as (Hseen & _ & _ & _ & _ & Hall).
    cbv zeta in Hseen, Hall.
    set (st := foldl (Cache.chunkFilterStep cache) _ chunks) in *.
    assert (forall i, i ∈ positions -> i < length chunks) as Hbound.
    { intros i Hi. apply Hpos in Hi as (c' & Hc' & _).
      by apply lookup_lt_Some in Hc'. }
    assert (forall i, i < length chunks ->
              firstUncached cache (chunks ++ [c]) i <-> firstUncached cache chunks i)
      as Hold.
    { intros i Hi. unfold firstUncached. split.
      - intros (c' & Hc' & Hn & Hfirst). rewrite lookup_app_l in Hc' by done.
        exists c'. split; [done|]. split; [done|]. intros j c'' Hj Hc''.
        apply (Hfirst j c'' Hj). rewrite lookup_app_l by lia. done.
      - intros (c' & Hc' & Hn & Hfirst). exists c'.
        rewrite lookup_app_l by done. split; [done|]. split; [done|].
        intros j c'' Hj Hc''. rewrite lookup_app_l in Hc'' by lia.
        by apply (Hfirst j c''). }
    assert (firstUncached cache (chunks ++ [c]) (length chunks)
            <-> (chunkHashOf c ∉ Cache.cf_seenHashes st)
                /\ (chunkHashOf c ∉ chunkHashes cache)) as Hnew.
    { unfold firstUncached. rewrite lookup_app_r by done.
      rewrite Nat.sub_diag. cbn [lookup list_lookup]. split.
      - intros (c' & [= <-] & Hn & Hfirst). split; [|done].
        intros Hin. apply Hseen, list_elem_of_fmap in Hin as (c' & Heq & Hin).
        apply (elem_of_sublist _ chunks) in Hin;
          [|by destruct (chunkFilter_invariant chunks cache) as (_ & _ & _ & ? & _)].
        apply list_elem_of_lookup_1 in Hin as [j Hj].
        apply (Hfirst j c'); [by apply lookup_lt_Some in Hj| |done].
        rewrite lookup_app_l by (by apply lookup_lt_Some in Hj). done.
      - intros [Hn1 Hn2]. exists c. split; [done|]. split; [done|].
        intros j c' Hj Hc' Heq. rewrite lookup_app_l in Hc' by done.
        apply Hn1, Hseen. rewrite <- Heq. apply Hall; [|by rewrite Heq].
        by eapply list_elem_of_lookup_2. }
    assert (forall i, firstUncached cache (chunks ++ [c]) i -> i <= length chunks)
      as Hrange.
    { intros i (c' & Hc' & _). apply lookup_lt_Some in Hc'.
      rewrite length_app in Hc'. cbn in Hc'. lia. }
    unfold Cache.chunkFilterStep. fold (chunkHashOf c).
    destruct (decide (chunkHashOf c ∈ Cache.cf_seenHashes st
                      \/ chunkHashOf c ∈ chunkHashes cache)) as [Hd|Hd];
      cbn [Cache.cf_unique].
    + exists positions. split; [done|]. split.
      * eapply Forall2_impl; [exact Hat|]. intros i c' Hc'.
        rewrite lookup_app_l; [done|]. by apply lookup_lt_Some in Hc'.
      * intros i. split.
        -- intros Hi. apply Hold; [by apply Hbound|]. by apply Hpos.
        -- intros Hi. pose proof (Hrange i Hi) as Hle.
           destruct (decide (i = length chunks)) as [->|Hne].
           ++ apply Hnew in Hi. tauto.
           ++ apply Hpos, Hold; [lia|done].
    + assert (chunkHashOf c ∉ Cache.cf_seenHashes st) as Hn1 by tauto.
      assert (chunkHashOf c ∉ chunkHashes cache) as Hn2 by tauto.
      exists (positions ++ [length chunks]). split; [|split].
      * apply sorted_snoc; [done|]. apply Forall_forall. intros i Hi.
        by apply Hbound.
      * apply Forall2_app.
        -- eapply Forall2_impl; [exact Hat|]. intros i c' Hc'.
           rewrite lookup_app_l; [done|]. by apply lookup_lt_Some in Hc'.
        -- repeat constructor. rewrite lookup_app_r by done.
           by rewrite Nat.sub_diag.
      * intros i. rewrite elem_of_app, list_elem_of_singleton. split.
        -- intros [Hi| ->]; [|by apply Hnew].
           apply Hold; [by apply Hbound|]. by apply Hpos.
        -- intros Hi. pose proof (Hrange i Hi) as Hle.
           destruct (decide (i = length chunks)) as [->|Hne]; [by right|].
           left. apply Hpos, Hold; [lia|done].
Qed.

(** X13.  [filterDuplicateChunks] keeps, in order, the first chunk of
    every content digest that the cache does not know: the kept chunks
    have pairwise distinct digests, none of them cached, every chunk
    whose digest is not cached is represented, the chunks left out are
    counted, and the kept chunks are exactly the chunks at the positions
    where a digest that is not cached occurs for the first time. *)
Theorem filterDuplicateChunks_spec (chunks : list DocumentChunk)
    (cache : DocumentCache) :
  let r := Cache.filterDuplicateChunks chunks cache in
  NoDup (chunkHashOf <$> Cache.uniqueChunks r)
  /\ Forall (fun c => chunkHashOf c ∉ chunkHashes cache) (Cache.uniqueChunks r)
  /\ sublist (Cache.uniqueChunks r) chunks
  /\ length (Cache.uniqueChunks r) + Cache.duplicateCount r = length chunks
  /\ (forall c, c ∈ chunks -> chunkHashOf c ∉ chunkHashes cache ->
        chunkHashOf c ∈ chunkHashOf <$> Cache.uniqueChunks r)
  /\ exists positions : list nat,
       StronglySorted lt positions
       /\ Forall2 (fun i c => chunks !! i = Some c) positions (Cache.uniqueChunks r)
       /\ forall i, i ∈ positions <-> firstUncached cache chunks i.
Proof.
  destruct (chunkFilter_invariant chunks cache) as (_ & H1 & H2 & H3 & H4 & H5).
  pose proof (chunkFilter_positions chunks cache) as H6.
  cbv zeta in *. by repeat split.
Qed.


Lemma isDocumentDuplicate_shrinks (now : Z) (content : string)
    (cache : DocumentCache) :
  documentHashes (Cache.isDocumentDuplicate now content cache).2
  ⊆ documentHashes cache.
Proof.
  unfold Cache.isDocumentDuplicate.
  destruct (documentHashes cache !! _) as [entry|]; [|done].
  destruct (Cache.Qltb _ _); [done|]. cbn. apply delete_subseteq.
Qed.

Lemma filterStep_invariant (now : Z) (files : list UploadedFile)
    (cache : DocumentCache) :
  let st :=
    foldl (Cache.filterStep now)
      {| Cache.fs_unique := []; Cache.fs_duplicates := [];
         Cache.fs_currentBatchHashes := ∅; Cache.fs_cache := cache |} files in
  (forall h, h ∈ Cache.fs_currentBatchHashes st
     <-> Some h ∈ contentHash <$> Cache.fs_unique st)
  /\ NoDup (contentHash <$> Cache.fs_unique st)
  /\ Forall (fun f => exists orig,
       orig ∈ files /\ f = Cache.with_contentHash orig (hashKey orig))
       (Cache.fs_unique st)
  /\ Forall (fun d => dup_file d ∈ files) (Cache.fs_duplicates st)
  /\ length (Cache.fs_unique st) + length (Cache.fs_duplicates st) <= length files
  /\ documentHashes (Cache.fs_cache st) ⊆ documentHashes cache.
Proof.
  induction files as [|file files IH] using rev_ind.
  - cbn. split; [intros h; split; [by intros ?%elem_of_empty|by intros ?%elem_of_nil]|].
    split; [constructor|]. split; [constructor|]. split; [constructor|].
    split; done.
  - cbv zeta in *. rewrite foldl_app. cbn [foldl].
    destruct IH as (Hseen & Hnd & Huniq & Hdup & Hlen & Hsub).
    set (st := foldl (Cache.filterStep now) _ files) in *.
    assert (Forall (fun f => exists orig,
              orig ∈ files ++ [file]
              /\ f = Cache.with_contentHash orig (hashKey orig))
              (Cache.fs_unique st)) as Huniq'.
    { eapply Forall_impl; [exact Huniq|]. intros f (orig & Ho & ->).
      exists orig. split; [|done]. apply elem_of_app. by left. }
    assert (Forall (fun d => dup_file d ∈ files ++ [file]) (Cache.fs_duplicates st))
      as Hdup'.
    { eapply Forall_impl; [exact Hdup|]. intros d Hd. apply elem_of_app. by left. }
    assert (file ∈ files ++ [file]) as Hin.
    { apply elem_of_app. right. by apply list_elem_of_singleton. }
    unfold Cache.filterStep. fold (hashKey file).
    destruct (decide (hashKey file ∈ Cache.fs_currentBatchHashes st)) as [Hd|Hd].
    { repeat split; try done; try (by apply Hseen). rewrite length_app. cbn. lia. }
    pose proof (isDocumentDuplicate_shrinks now (file_content file) (Cache.fs_cache st))
      as Hshrink.
    destruct (Cache.isDocumentDuplicate now (file_content file) (Cache.fs_cache st))
      as [check cache'] eqn:Hcheck.
    cbn [snd] in Hshrink.
    assert (documentHashes cache' ⊆ documentHashes cache) as Hsub'
      by (by etrans).
    assert ((forall h, h ∈ {[hashKey file]} ∪ Cache.fs_currentBatchHashes st
                 <-> Some h ∈ contentHash
                       <$> (Cache.fs_unique st
                            ++ [Cache.with_contentHash file (hashKey file)]))
              /\ NoDup (contentHash
                          <$> (Cache.fs_unique st
                               ++ [Cache.with_contentHash file (hashKey file)]))
              /\ Forall (fun f => exists orig,
                   orig ∈ files ++ [file]
                   /\ f = Cache.with_contentHash orig (hashKey orig))
                   (Cache.fs_unique st
                    ++ [Cache.with_contentHash file (hashKey file)])
              /\ length (Cache.fs_unique st
                         ++ [Cache.with_contentHash file (hashKey file)])
                 + length (Cache.fs_duplicates st) <= length (files ++ [file]))
      as Hnew.
    { rewrite !fmap_app, !length_app. cbn [fmap list_fmap length].
      cbn [Cache.with_contentHash contentHash].
      split; [|split; [|split]].
      - intros h. rewrite elem_of_union, elem_of_singleton, elem_of_app,
          list_elem_of_singleton, Hseen. split.
        + intros [->|Hh]; [by right|by left].
        + intros [Hh|[= ->]]; [by right|by left].
      - apply NoDup_app. split; [done|]. split; [|apply NoDup_singleton].
        intros h Hh Hh'. apply list_elem_of_singleton in Hh' as ->.
        by apply Hd, Hseen.
      - apply Forall_app. split; [done|]. constructor; [|constructor].
        by exists file.
      - lia. }
    destruct Hnew as (Hn1 & Hn2 & Hn3 & Hn4).
    destruct (isDuplicate check), (existingEntry check) as [existing|];
      cbn [Cache.fs_unique Cache.fs_duplicates Cache.fs_currentBatchHashes
             Cache.fs_cache];
      try (split; [exact Hn1|]; split; [exact Hn2|]; split; [exact Hn3|];
           split; [exact Hdup'|]; split; [exact Hn4|exact Hsub']).
    split; [done|]. split; [done|]. split; [done|]. split.
    { apply Forall_app. split; [done|]. by constructor. }
    split; [|done]. rewrite !length_app. cbn. lia.
Qed.

(** X14.  The files that [filterDuplicateFiles] lets through are input
    files stamped with their hash key, with pairwise distinct keys; the
    files it reports as duplicates are input files; no file is counted
    twice; and the call registers nothing: it only deletes entries of
    the cache. *)
Theorem filterDuplicateFiles_unique_keys (now : Z) (files : list UploadedFile)
    (cache : DocumentCache) :
  let r := Cache.filterDuplicateFiles now files cache in
  NoDup (contentHash <$> uniqueFiles r.1)
  /\ Forall (fun f => exists orig,
       orig ∈ files /\ f = Cache.with_contentHash orig (hashKey orig))
       (uniqueFiles r.1)
  /\ Forall (fun d => dup_file d ∈ files) (duplicates r.1)
  /\ length (uniqueFiles r.1) + length (duplicates r.1) <= length files
  /\ documentHashes r.2 ⊆ documentHashes cache.
Proof.
  destruct (filterStep_invariant now files cache) as (_ & H). exact H.
Qed.


Lemma cleanupStep_foldl (now : Z) (l : list (string * CacheEntry))
    (m : gmap string CacheEntry) (n : nat) :
  NoDup l.*1 ->
  (forall k e, (k, e) ∈ l -> m !! k = Some e) ->
  let st := foldl (Cache.cleanupStep now) (m, n) l in
  (forall h e, st.1 !! h = Some e
     <-> m !! h = Some e
         /\ ~ (exists e', (h, e') ∈ l /\ Cache.isExpired now e' = true))
  /\ st.2 + base.size st.1 = n + base.size m.
Proof.
  revert m n. induction l as [|[k e] l IH]; intros m n Hnd Hin; cbv zeta.
  - cbn. split; [|done].
    intros h e. split; [|tauto]. intros Hh. split; [done|].
    by intros (e' & ?%elem_of_nil & _).
  - cbn [foldl]. cbn in Hnd. apply NoDup_cons in Hnd as [Hk Hnd].
    assert (Cache.cleanupStep now (m, n) (k, e)
            = if Cache.isExpired now e then (delete k m, n + 1) else (m, n))
      as -> by done.
    assert (m !! k = Some e) as Hke by (apply Hin; left).
    destruct (Cache.isExpired now e) eqn:Hexp.
    + destruct (IH (delete k m) (n + 1) Hnd) as (Hlook & Hsize).
      { intros k' e' Hin'. rewrite lookup_delete_ne.
        - apply Hin. by right.
        - intros ->. apply Hk. apply list_elem_of_fmap. by exists (k', e'). }
      split.
      * intros h x. rewrite Hlook, lookup_delete_Some. split.
        -- intros [[Hne Hm] Hno]. split; [done|].
           intros (e' & [[= -> ->]|Hin']%elem_of_cons & He'); [done|].
           apply Hno. by exists e'.
        -- intros [Hm Hno]. split.
           ++ split; [|done]. intros ->. apply Hno. exists e. split; [left|done].
           ++ intros (e' & Hin' & He'). apply Hno. exists e'. split; [by right|done].
      * rewrite Hsize, map_size_delete_Some by done.
        assert (0 < base.size m); [|lia].
        destruct (decide (base.size m = 0)) as [Hz|]; [|lia].
        apply map_size_empty_iff in Hz. by rewrite Hz in Hke.
    + destruct (IH m n Hnd) as (Hlook & Hsize).
      { intros k' e' Hin'. apply Hin. by right. }
      split; [|done].
      intros h x. rewrite Hlook. split.
      * intros [Hm Hno]. split; [done|].
        intros (e' & [[= -> ->]|Hin']%elem_of_cons & He'); [congruence|].
        apply Hno. by exists e'.
      * intros [Hm Hno]. split; [done|].
        intros (e' & Hin' & He'). apply Hno. exists e'. split; [by right|done].
Qed.

Lemma cleanupExpiredEntries_run (now : Z) (cache : DocumentCache) :
  let st :=
    foldl (Cache.cleanupStep now) (documentHashes cache, 0)
      (map_to_list (documentHashes cache)) in
  (forall h e, st.1 !! h = Some e
     <-> documentHashes cache !! h = Some e
         /\ (now - entry_timestamp e < 604800000)%Z)
  /\ st.2 + base.size st.1 = base.size (documentHashes cache).
Proof.
  destruct (cleanupStep_foldl now (map_to_list (documentHashes cache))
              (documentHashes cache) 0) as (Hlook & Hsize).
  { apply NoDup_fst_map_to_list. }
  { intros k e. apply elem_of_map_to_list. }
  cbv zeta in *. split; [|exact Hsize].
  intros h e. rewrite Hlook. split.
  - intros [Hm Hno]. split; [done|].
    destruct (decide (now - entry_timestamp e < 604800000)%Z) as [|Hold]; [done|].
    exfalso. apply Hno. exists e. split; [by apply elem_of_map_to_list|].
    rewrite isExpired_spec. by rewrite bool_decide_eq_false_2.
  - intros [Hm Hage]. split; [done|].
    intros (e' & Hin & Hexp). apply elem_of_map_to_list in Hin.
    assert (e' = e) as -> by congruence.
    rewrite isExpired_spec in Hexp. by rewrite bool_decide_eq_true_2 in Hexp.
Qed.

(** X15.  [cleanupExpiredEntries] keeps exactly the entries younger than
    7 days and counts the others; the chunk hashes are kept when no entry
    has expired and all cleared otherwise, while [removedChunks] reports
    their number in both cases.  After a clean-up no look-up at that time
    finds an entry to delete. *)
Theorem cleanupExpiredEntries_spec (now : Z) (cache : DocumentCache) :
  let r := Cache.cleanupExpiredEntries now cache in
  (forall h e, documentHashes r.2 !! h = Some e
     <-> documentHashes cache !! h = Some e
         /\ (now - entry_timestamp e < 604800000)%Z)
  /\ Cache.removedDocuments r.1 + base.size (documentHashes r.2)
     = base.size (documentHashes cache)
  /\ Cache.removedChunks r.1 = base.size (chunkHashes cache)
  /\ chunkHashes r.2
     = (if decide (Cache.removedDocuments r.1 = 0) then chunkHashes cache else ∅)
  /\ forall content, (Cache.isDocumentDuplicate now content r.2).2 = r.2.
Proof.
  cbv zeta. unfold Cache.cleanupExpiredEntries. cbv zeta.
  cbn [fst snd Cache.removedDocuments Cache.removedChunks documentHashes chunkHashes].
  destruct (cleanupExpiredEntries_run now cache) as (Hfresh & Hsize).
  cbv zeta in Hfresh, Hsize.
  set (st := foldl (Cache.cleanupStep now) _ _) in *.
  split; [exact Hfresh|]. split; [exact Hsize|]. split; [done|]. split.
  - destruct (decide (st.2 = 0)) as [Hz|Hnz].
    + by rewrite Hz.
    + destruct (0 <? st.2) eqn:E; [done|]. apply Nat.ltb_ge in E. lia.
  - intros content. unfold Cache.isDocumentDuplicate. cbn [documentHashes].
    destruct (st.1 !! Cache.calculateContentHash content) as [e|] eqn:E; [|done].
    apply Hfresh in E as [_ Hage].
    rewrite within_retention_window. by rewrite bool_decide_eq_true_2.
Qed.

Lemma importDocuments_lookup (docs : list CacheEntry) (m : gmap string CacheEntry) :
  NoDup (entry_hash <$> docs) ->
  let m' := foldl (fun m doc => <[entry_hash doc := doc]> m) m docs in
  (forall doc, doc ∈ docs -> m' !! entry_hash doc = Some doc)
  /\ (forall h, h ∉ entry_hash <$> docs -> m' !! h = m !! h).
Proof.
  revert m. induction docs as [|d docs IH]; intros m Hnd; cbv zeta.
  - cbn. split; [by intros ? ?%elem_of_nil|done].
  - cbn [foldl]. cbn in Hnd. apply NoDup_cons in Hnd as [Hd Hnd].
    destruct (IH (<[entry_hash d := d]> m) Hnd) as [Hin Hout]. split.
    + intros doc [->|Hdoc]%elem_of_cons; [|by apply Hin].
      rewrite Hout by done. apply lookup_insert_eq.
    + intros h Hh. cbn in Hh. rewrite not_elem_of_cons in Hh. destruct Hh as [Hne Hh].
      rewrite Hout by done. by apply lookup_insert_ne.
Qed.

Lemma importDocuments_keyed (docs : list CacheEntry) (m : gmap string CacheEntry) :
  (forall h e, m !! h = Some e -> entry_hash e = h) ->
  forall h e,
    foldl (fun m doc => <[entry_hash doc := doc]> m) m docs !! h = Some e ->
    entry_hash e = h.
Proof.
  revert m. induction docs as [|d docs IH]; intros m Hm; [done|].
  cbn [foldl]. apply IH. intros h e.
  destruct (decide (entry_hash d = h)) as [<-|Hne].
  - rewrite lookup_insert_eq. by intros [= <-].
  - rewrite lookup_insert_ne by done. apply Hm.
Qed.

Lemma importChunkHashes_elem (hashes : list string) (s : gset string) (h : string) :
  h ∈ foldl (fun s hash => {[hash]} ∪ s) s hashes <-> h ∈ hashes \/ h ∈ s.
Proof.
  revert s. induction hashes as [|x hashes IH]; intros s; cbn [foldl].
  - split; [by right|]. by intros [?%elem_of_nil|].
  - rewrite IH, elem_of_cons, elem_of_union, elem_of_singleton. tauto.
Qed.

Lemma keyed_empty : keyed Cache.empty.
Proof. intros h e Hl. cbn in Hl. by rewrite lookup_empty in Hl. Qed.

Lemma keyed_registerProcessedDocument (now : Z) (file : UploadedFile)
    (chunks : list DocumentChunk) (cache : DocumentCache) :
  keyed cache -> keyed (Cache.registerProcessedDocument now file chunks cache).
Proof.
  intros Hk h e. unfold Cache.registerProcessedDocument.
  cbn [documentHashes]. fold (hashKey file).
  destruct (decide (hashKey file = h)) as [<-|Hne].
  - rewrite lookup_insert_eq. by intros [= <-].
  - rewrite lookup_insert_ne by done. apply Hk.
Qed.

(** X16.  A cache whose entries are stored under their own hash is
    restored by [importCache] from what [exportCache] returned, whatever
    the importing cache held before. *)
Theorem importCache_exportCache (now : Z) (cache other : DocumentCache) :
  keyed cache ->
  Cache.importCache (Cache.exportCache now cache) other = cache.
Proof.
  intros Hkeyed. unfold Cache.importCache, Cache.exportCache, Cache.clearCache.
  cbn [Cache.data_documents Cache.data_chunkHashes documentHashes chunkHashes].
  destruct cache as [m s]. cbn [documentHashes chunkHashes] in *.
  unfold keyed in Hkeyed. cbn [documentHashes] in Hkeyed.
  assert (entry_hash <$> (map_to_list m).*2 = (map_to_list m).*1) as Hkeys.
  { rewrite <- list_fmap_compose. apply list_fmap_ext.
    intros i [k e] Hi. cbn. apply Hkeyed, elem_of_map_to_list.
    by eapply list_elem_of_lookup_2. }
  destruct (importDocuments_lookup (map_to_list m).*2 ∅) as [Hin Hout].
  { rewrite Hkeys. apply NoDup_fst_map_to_list. }
  cbv zeta in Hin, Hout. f_equal.
  - apply map_eq. intros h. destruct (m !! h) as [e|] eqn:E.
    + rewrite <- (Hkeyed h e E). apply Hin.
      apply list_elem_of_fmap. exists (h, e). split; [done|].
      by apply elem_of_map_to_list.
    + rewrite Hout; [done|]. rewrite Hkeys. intros Hh.
      apply list_elem_of_fmap in Hh as ([k e] & -> & Hke).
      apply elem_of_map_to_list in Hke. cbn in E. congruence.
  - apply set_eq. intros h. rewrite importChunkHashes_elem, elem_of_elements.
    split; [intros [|?%elem_of_empty]; done|by left].
Qed.

(** X17.  The entries of the cache stay stored under their own hash: this
    holds of the empty cache and of what [importCache] builds, and
    [registerProcessedDocument], [isDocumentDuplicate],
    [filterDuplicateFiles] and [cleanupExpiredEntries] keep it. *)
Theorem cache_entries_keyed (now : Z) (cache : DocumentCache) :
  keyed Cache.empty
  /\ (forall data, keyed (Cache.importCache data cache))
  /\ (keyed cache ->
      (forall file chunks,
         keyed (Cache.registerProcessedDocument now file chunks cache))
      /\ (forall content, keyed (Cache.isDocumentDuplicate now content cache).2)
      /\ (forall files, keyed (Cache.filterDuplicateFiles now files cache).2)
      /\ keyed (Cache.cleanupExpiredEntries now cache).2).
Proof.
  split; [|split].
  - apply keyed_empty.
  - intros data h e. unfold Cache.importCache. cbn [documentHashes].
    apply importDocuments_keyed. intros h' e' Hl. cbn in Hl.
    by rewrite lookup_empty in Hl.
  - intros Hk.
    assert (forall c, documentHashes c ⊆ documentHashes cache -> keyed c) as Hsub.
    { intros c Hc h e Hl. apply Hk.
      by eapply (proj1 (map_subseteq_spec _ _) Hc). }
    split; [|split; [|split]].
    + intros file chunks. by apply keyed_registerProcessedDocument.
    + intros content. apply Hsub, isDocumentDuplicate_shrinks.
    + intros files. apply Hsub.
      by destruct (filterStep_invariant now files cache) as (_ & _ & _ & _ & _ & ?).
    + intros h e Hl. unfold Cache.cleanupExpiredEntries in Hl.
      cbn [snd documentHashes] in Hl.
      destruct (cleanupExpiredEntries_run now cache) as (Hlook & _).
      apply Hlook in Hl as [Hl _]. by apply Hk.
Qed.

End CacheOperations.


(** A cache that holds one document is restored into a cache that holds
    another. *)
Lemma importCache_exportCache_witness :
  Cache.importCache (Cache.exportCache 5 CacheExample.cache)
    (Cache.registerProcessedDocument (SHA := DemoDigest.sha) 1 DemoDigest.pasted []
       Cache.empty)
  = CacheExample.cache.
Proof.
  apply (importCache_exportCache 5 CacheExample.cache).
  apply keyed_registerProcessedDocument, keyed_empty.
Defined.

(** ** MMR selection for every [lambda] *)

Section MMRSelection.
Context {EP : EmbeddingProvider} {CK : CosineKernel} {VS : VectorSearch}.

Lemma scanRemaining_index (lambda : Q) (selected rest : list RetrievalResult)
    (i bestIndex b : nat) (bestScore : option Q) (calls calls' : nat) :
  Retriever.scanRemaining lambda selected rest i bestIndex bestScore calls
  = Returned (b, calls') ->
  b = bestIndex \/ (i <= b < i + length rest).
Proof.
  revert i bestIndex bestScore calls.
  induction rest as [|candidate rest IH]; intros i bestIndex bestScore calls.
  - cbn. intros [= <- _]. by left.
  - cbn [Retriever.scanRemaining].
    destruct (Retriever.diversityScore selected candidate calls) as [[d c]| |];
      [|done..].
    rewrite bind_Returned.
    destruct (Retriever.combine _ _ _) as [mmrScore|];
      [destruct (Retriever.exceeds _ _)|];
      intros Hs; apply IH in Hs; cbn [length]; lia.
Qed.

Lemma await_finishes {A} (r : option A) : await r <> Unfinished.
Proof. by destruct r. Qed.

Lemma maxSimilarityLoop_finishes (e : Embedding)
    (selected : list RetrievalResult) (m : Retriever.Double) (calls : nat) :
  Retriever.maxSimilarityLoop e selected m calls <> Unfinished.
Proof.
  revert m calls. induction selected as [|r selected IH]; intros m calls; [done|].
  cbn [Retriever.maxSimilarityLoop]. unfold Retriever.generateEmbedding.
  destruct (embedContent _ calls) as [e'|]; [|done]. cbn [await].
  rewrite bind_Returned.
  unfold Retriever.cosineSimilarity. destruct (_ =? _); [|done].
  destruct (_ || _); rewrite bind_Returned; apply IH.
Qed.

Lemma diversityScore_finishes (selected : list RetrievalResult)
    (candidate : RetrievalResult) (calls : nat) :
  Retriever.diversityScore selected candidate calls <> Unfinished.
Proof.
  unfold Retriever.diversityScore. destruct (0 <? length selected); [|done].
  unfold Retriever.generateEmbedding.
  destruct (embedContent _ calls) as [e|]; [|done]. cbn [await].
  rewrite bind_Returned.
  pose proof (maxSimilarityLoop_finishes e selected (Retriever.Finite 0)
                (calls + 1)) as H.
  by destruct (Retriever.maxSimilarityLoop e selected _ _) as [[m c]| |].
Qed.

Lemma scanRemaining_finishes (lambda : Q) (selected rest : list RetrievalResult)
    (i bestIndex : nat) (bestScore : option Q) (calls : nat) :
  Retriever.scanRemaining lambda selected rest i bestIndex bestScore calls
  <> Unfinished.
Proof.
  revert i bestIndex bestScore calls.
  induction rest as [|candidate rest IH]; intros i bestIndex bestScore calls;
    [done|].
  cbn [Retriever.scanRemaining].
  pose proof (diversityScore_finishes selected candidate calls) as H.
  destruct (Retriever.diversityScore selected candidate calls) as [[d c]| |];
    [|done..].
  rewrite bind_Returned.
  destruct (Retriever.combine _ _ _) as [mmrScore|];
    [destruct (Retriever.exceeds _ _)|]; apply IH.
Qed.

Lemma mmrLoop_selects (fuel : nat) (lambda : Q) (topK : nat)
    (selected remaining : list RetrievalResult) (calls : nat) :
  length remaining <= fuel ->
  match Retriever.mmrLoop fuel lambda topK selected remaining calls with
  | Returned out =>
      length out
      = Nat.max (length selected)
          (Nat.min topK (length selected + length remaining))
      /\ exists rest, Permutation (selected ++ remaining) (out ++ rest)
  | Thrown => True
  | Unfinished => False
  end.
Proof.
  revert selected remaining calls.
  induction fuel as [|fuel IH]; intros selected remaining calls Hfuel;
    cbn [Retriever.mmrLoop].
  - destruct remaining; [|cbn in Hfuel; lia].
    rewrite andb_false_r. split; [cbn; lia|]. by exists [].
  - destruct ((length selected <? topK) && (0 <? length remaining)) eqn:E.
    + apply andb_true_iff in E as [E1 E2].
      apply Nat.ltb_lt in E1. apply Nat.ltb_lt in E2.
      pose proof (scanRemaining_finishes lambda selected remaining 0 0 None calls)
        as Hf.
      destruct (Retriever.scanRemaining lambda selected remaining 0 0 None calls)
        as [[b calls']| |] eqn:Hs; [|done..].
      rewrite bind_Returned.
      apply scanRemaining_index in Hs.
      assert (b < length remaining) as Hb by lia.
      destruct (lookup_lt_is_Some_2 remaining b Hb) as [best Hbest].
      rewrite Hbest.
      specialize (IH (selected ++ [best]) (delete b remaining) calls').
      rewrite length_delete in IH by done. rewrite length_app in IH. cbn [length] in IH.
      destruct (Retriever.mmrLoop fuel lambda topK (selected ++ [best])
                  (delete b remaining) calls') as [out| |]; [|done|apply IH; lia].
      destruct IH as [Hlen (rest & Hperm)]; [lia|]. split; [lia|].
      exists rest. rewrite <- Hperm, <- app_assoc. cbn.
      apply Permutation_app_head. by apply delete_Permutation.
    + apply andb_false_iff in E. split.
      * destruct E as [E|E]; [apply Nat.ltb_ge in E|apply Nat.ltb_ge in E]; lia.
      * by exists remaining.
Qed.

(** X18.  For every [lambda], [retrieveWithMMR] ends; when it returns, it
    returns [min(topK, n)] of the [n] candidates, none of them twice. *)
Theorem retrieveWithMMR_selects_candidates (query : string) (topK : nat)
    (lambda : Q) (candidates : list RetrievalResult) :
  retrieve query (Nat.min (topK * 3) 100) = Some candidates ->
  match Retriever.retrieveWithMMR query topK lambda with
  | Returned selected =>
      length selected = Nat.min topK (length candidates)
      /\ exists rest, Permutation candidates (selected ++ rest)
  | Thrown => True
  | Unfinished => False
  end.
Proof.
  intros Hc. unfold Retriever.retrieveWithMMR. rewrite Hc. cbn [await].
  rewrite bind_Returned.
  destruct (length candidates =? 0) eqn:E.
  - apply Nat.eqb_eq in E. split; [cbn; lia|]. by exists candidates.
  - pose proof (await_finishes (embedContent (JS.newlines_to_spaces query) 0)) as Hf.
    unfold Retriever.generateEmbedding.
    destruct (await _) as [e| |]; [|done..].
    rewrite bind_Returned.
    pose proof (mmrLoop_selects (length candidates) lambda topK [] candidates 1
                  (Nat.le_refl _)) as H.
    destruct (Retriever.mmrLoop _ _ _ _ _ _) as [out| |]; [|done..].
    destruct H as [Hlen Hperm]. cbn in Hlen, Hperm. split; [lia|done].
Qed.

End MMRSelection.


(** Two of the four candidates are selected, whatever [lambda] is. *)
Lemma retrieveWithMMR_selects_candidates_witness :
  match Retriever.retrieveWithMMR (EP := MMRExample.provider)
          (CK := MMRExample.kernel) (VS := MMRExample.search)
          "question" 2 (1 # 2) with
  | Returned selected =>
      length selected = Nat.min 2 (length MMRExample.candidates)
      /\ exists rest, Permutation MMRExample.candidates (selected ++ rest)
  | Thrown => True
  | Unfinished => False
  end.
Proof.
  apply (retrieveWithMMR_selects_candidates (EP := MMRExample.provider)
           (CK := MMRExample.kernel) (VS := MMRExample.search)
           "question" 2 (1 # 2) MMRExample.candidates).
  reflexivity.
Defined.

(** ** Reranker adapter: order, diversity filter and batches *)

Lemma insertDescending_Permutation (x : RetrievalResult) (l : list RetrievalResult) :
  Permutation (Reranker.insertDescending x l) (x :: l).
Proof.
  induction l as [|y l IH]; [done|]. cbn [Reranker.insertDescending].
  destruct (_ ?= _)%Q; [done| |done].
  rewrite IH. apply perm_swap.
Qed.

Lemma sortDescending_Permutation (l : list RetrievalResult) :
  Permutation (Reranker.sortDescending l) l.
Proof.
  induction l as [|x l IH]; [done|]. cbn.
  fold (Reranker.sortDescending l).
  rewrite insertDescending_Permutation. by constructor.
Qed.

Lemma insertDescending_sorted (x : RetrievalResult) (l : list RetrievalResult) :
  rerankedDescending l -> rerankedDescending (Reranker.insertDescending x l).
Proof.
  unfold rerankedDescending. induction 1 as [|y l Hs IH Hall]; cbn [Reranker.insertDescending].
  - repeat constructor.
  - destruct (Reranker.rerankedOrZero x ?= Reranker.rerankedOrZero y)%Q eqn:E.
    + apply Qeq_alt in E. constructor; [by constructor|].
      constructor; [lra|].
      eapply Forall_impl; [exact Hall|]. intros z Hz. cbn in Hz. lra.
    + apply Qlt_alt in E. constructor; [done|].
      rewrite insertDescending_Permutation. constructor; [lra|done].
    + apply Qgt_alt in E. constructor; [by constructor|].
      constructor; [lra|].
      eapply Forall_impl; [exact Hall|]. intros z Hz. cbn in Hz. lra.
Qed.

Lemma sortDescending_sorted (l : list RetrievalResult) :
  rerankedDescending (Reranker.sortDescending l).
Proof.
  induction l as [|x l IH]; [constructor|]. cbn.
  fold (Reranker.sortDescending l). by apply insertDescending_sorted.
Qed.

Lemma limitStep_invariant (maxChunksPerDoc : nat) (results : list RetrievalResult) :
  let st := foldl (Reranker.limitStep maxChunksPerDoc) (∅, []) results in
  (forall d, default 0 (st.1 !! d) = length (ofDocument d st.2))
  /\ (forall d, ofDocument d st.2 = take maxChunksPerDoc (ofDocument d results))
  /\ sublist st.2 results.
Proof.
  induction results as [|r results IH] using rev_ind.
  - cbn. split; [intros d; by rewrite lookup_empty|]. split; [intros d; by rewrite take_nil|].
    constructor.
  - cbv zeta in *. rewrite foldl_app. cbn [foldl].
    destruct IH as (Hcount & Hkeep & Hsub).
    set (st := foldl (Reranker.limitStep maxChunksPerDoc) _ results) in *.
    unfold Reranker.limitStep. fold (docIdOf r). cbv zeta.
    assert (forall d, ofDocument d (results ++ [r])
                      = ofDocument d results ++ (if decide (docIdOf r = d) then [r] else []))
      as Happ.
    { intros d. unfold ofDocument. by rewrite filter_app. }
    destruct (default 0 (st.1 !! docIdOf r) <? maxChunksPerDoc) eqn:E; cbn [fst snd].
    + apply Nat.ltb_lt in E. rewrite Hcount in E. split; [|split].
      * intros d. unfold ofDocument. rewrite filter_app, length_app, filter_cons.
        fold (ofDocument d st.2).
        destruct (decide (docIdOf r = d)) as [<-|Hne].
        -- rewrite lookup_insert_eq. cbn. by rewrite Hcount.
        -- rewrite lookup_insert_ne by done. cbn. by rewrite Hcount, Nat.add_0_r.
      * intros d. rewrite Happ. unfold ofDocument at 1. rewrite filter_app, filter_cons.
        fold (ofDocument d st.2). rewrite Hkeep.
        destruct (decide (docIdOf r = d)) as [<-|Hne].
        -- rewrite Hkeep, length_take in E.
           assert (length (ofDocument (docIdOf r) results) < maxChunksPerDoc) as Hlt by lia.
           rewrite !take_ge; [done|rewrite length_app; cbn; lia|lia].
        -- by rewrite !app_nil_r.
      * by apply sublist_app.
    + apply Nat.ltb_ge in E. rewrite Hcount in E. split; [done|]. split.
      * intros d. rewrite Happ, Hkeep.
        destruct (decide (docIdOf r = d)) as [<-|Hne]; [|by rewrite app_nil_r].
        rewrite Hkeep, length_take in E.
        assert (maxChunksPerDoc <= length (ofDocument (docIdOf r) results)) as Hle by lia.
        by rewrite take_app_le.
      * by apply sublist_inserts_r.
Qed.

(** X19.  [limitChunksPerDocument] keeps, in their order, the first
    [maxChunksPerDoc] results of every document and drops the others. *)
Theorem limitChunksPerDocument_keeps_first (results : list RetrievalResult)
    (maxChunksPerDoc : nat) :
  let kept := Reranker.limitChunksPerDocument results maxChunksPerDoc in
  sublist kept results
  /\ forall d, ofDocument d kept = take maxChunksPerDoc (ofDocument d results).
Proof.
  destruct (limitStep_invariant maxChunksPerDoc results) as (_ & Hkeep & Hsub).
  by split.
Qed.

Section RerankOrder.
Context {RS : RerankService}.
Variable defaultTopN : nat.

Lemma rerankCall_originals (limited : list RetrievalResult)
    (response : list RerankHit) :
  Forall (fun hit => hit_index hit < length limited) response ->
  exists originals,
    Forall2 (fun hit original => limited !! hit_index hit = Some original)
            response originals
    /\ omap (fun hit =>
               (fun r => Reranker.with_rerankedScore r (relevanceScore hit))
                 <$> limited !! hit_index hit) response
       = zip_with (fun original hit =>
                     Reranker.with_rerankedScore original (relevanceScore hit))
                  originals response.
Proof.
  induction 1 as [|hit response Hhit _ (originals & Hall & Heq)].
  - by exists [].
  - destruct (lookup_lt_is_Some_2 limited (hit_index hit) Hhit) as [original Ho].
    exists (original :: originals). split; [by constructor|].
    cbn [omap list_omap zip_with]. rewrite Ho. cbn. by rewrite Heq.
Qed.

(** X20.  When the reranking service answers with hits whose indices
    refer to documents sent, [rerank] returns one result per hit: the
    input result at the hit's index, among the first 50, with both scores
    set to the hit's relevance; the results are in descending order of
    that score. *)
Theorem rerank_success_sorted (query : string) (results : list RetrievalResult)
    (topN : option nat) (response : list RerankHit) :
  results <> [] ->
  (let documents := (fun r => content (chunk r)) <$> take 50 results in
   cohere_rerank query documents
     (Nat.min (JS.or_nat topN defaultTopN) (length documents)) = Some response) ->
  Forall (fun hit => hit_index hit < Nat.min 50 (length results)) response ->
  exists reranked originals,
    Reranker.rerank defaultTopN query results topN = Returned reranked
    /\ descending reranked
    /\ Forall2 (fun hit original => take 50 results !! hit_index hit = Some original)
               response originals
    /\ Permutation reranked
         (zip_with (fun original hit =>
                      Reranker.with_rerankedScore original (relevanceScore hit))
                   originals response)
    /\ length reranked = length response
    /\ Forall (fun r => rerankedScore r = Some (score r)
                        /\ exists original, original ∈ take 50 results
                                            /\ chunk r = chunk original) reranked.
Proof.
  intros Hne Hresp Hrange. cbv zeta in Hresp.
  unfold Reranker.rerank, Reranker.rerankCall. destruct results as [|r0 results]; [done|].
  cbv zeta. unfold JS.slice. rewrite Nat.sub_0_r, drop_0.
  assert (take (Nat.min 50 (length (r0 :: results))) (r0 :: results)
          = take 50 (r0 :: results)) as ->.
  { destruct (decide (50 <= length (r0 :: results))).
    - by rewrite Nat.min_l.
    - rewrite Nat.min_r by lia. by rewrite !take_ge by lia. }
  rewrite Hresp. cbn [await]. rewrite bind_Returned.
  destruct (rerankCall_originals (take 50 (r0 :: results)) response)
    as (originals & Horig & Heq).
  { eapply Forall_impl; [exact Hrange|]. intros hit Hhit. cbn beta in Hhit.
    by rewrite length_take. }
  eexists. exists originals. split; [reflexivity|].
  set (mapped := omap _ response) in *.
  assert (Forall (fun r => rerankedScore r = Some (score r)
                           /\ exists original, original ∈ take 50 (r0 :: results)
                                               /\ chunk r = chunk original) mapped)
    as Hmapped.
  { rewrite Heq. clear -Horig.
    induction Horig as [|hit original response originals Ho _ IH]; [constructor|].
    cbn [zip_with]. constructor; [|done]. split; [done|]. exists original.
    split; [|done]. by eapply list_elem_of_lookup_2. }
  pose proof (sortDescending_Permutation mapped) as Hperm.
  assert (Forall (fun r => rerankedScore r = Some (score r)
                           /\ exists original, original ∈ take 50 (r0 :: results)
                                               /\ chunk r = chunk original)
            (Reranker.sortDescending mapped)) as Hsorted.
  { by rewrite Hperm. }
  split; [|split; [done|split; [by rewrite <- Heq|split; [|done]]]].
  2:{ rewrite Hperm, Heq, length_zip_with.
      apply Forall2_length in Horig. lia. }
  pose proof (sortDescending_sorted mapped) as Hs.
  unfold descending, rerankedDescending in *.
  revert Hs Hsorted. generalize (Reranker.sortDescending mapped). clear.
  induction 1 as [|x l Hs IH Hall]; intros Hf; [constructor|].
  apply Forall_cons in Hf as [[Hx _] Hf].
  constructor; [by apply IH|].
  rewrite Forall_forall in Hall, Hf. apply Forall_forall. intros y Hy.
  specialize (Hall y Hy). destruct (Hf y Hy) as [Hyy _].
  unfold Reranker.rerankedOrZero in Hall. by rewrite Hx, Hyy in Hall.
Qed.


Lemma rerank_returns (query : string) (results : list RetrievalResult)
    (topN : option nat) :
  exists reranked, Reranker.rerank defaultTopN query results topN = Returned reranked.
Proof.
  unfold Reranker.rerank. destruct results as [|r results]; [by eexists|].
  destruct (Reranker.rerankCall _ _ _ _); by eexists.
Qed.

Lemma batchRerankLoop_map (fuel : nat) (pairs : list Reranker.QueryResultPair)
    (topN : option nat) (i : nat) (acc : list (list RetrievalResult)) :
  length pairs - i <= fuel ->
  Reranker.batchRerankLoop defaultTopN fuel pairs topN i acc
  = Some (acc ++ (Reranker.rerankPair defaultTopN topN <$> drop i pairs)).
Proof.
  revert i acc. induction fuel as [|fuel IH]; intros i acc Hfuel;
    cbn [Reranker.batchRerankLoop].
  - destruct (i <? length pairs) eqn:E; [apply Nat.ltb_lt in E; lia|].
    apply Nat.ltb_ge in E. rewrite drop_ge by done. cbn. by rewrite app_nil_r.
  - destruct (i <? length pairs) eqn:E.
    + apply Nat.ltb_lt in E. cbv zeta. rewrite IH by lia.
      unfold JS.slice. replace (i + 5 - i) with 5 by lia.
      rewrite <- app_assoc, <- fmap_app, <- drop_drop, take_drop. done.
    + apply Nat.ltb_ge in E. rewrite drop_ge by done. cbn. by rewrite app_nil_r.
Qed.

(** [batchRerank] ends and returns one list per query, in the order
    of the queries: the list that [rerank] returns for that query. *)
Theorem batchRerank_maps_rerank (pairs : list Reranker.QueryResultPair)
    (topN : option nat) :
  exists batches,
    Reranker.batchRerank defaultTopN pairs topN = Some batches
    /\ Forall2 (fun pair reranked =>
         Reranker.rerank defaultTopN (Reranker.pair_query pair)
           (Reranker.pair_results pair) topN = Returned reranked) pairs batches.
Proof.
  eexists. split.
  - unfold Reranker.batchRerank. rewrite batchRerankLoop_map by lia.
    rewrite drop_0. reflexivity.
  - cbn [app]. apply Forall2_fmap_r, Forall_Forall2_diag, Forall_forall.
    intros pair _. unfold Reranker.rerankPair, compose.
    destruct (rerank_returns (Reranker.pair_query pair) (Reranker.pair_results pair) topN)
      as [reranked ->]. done.
Qed.

End RerankOrder.


(** The service ranks the second candidate above the first. *)
Lemma rerank_success_sorted_witness :
  exists reranked originals,
    Reranker.rerank (RS := RerankAnswer.service) 1 "question"
      MMRExample.candidates (Some 2) = Returned reranked
    /\ descending reranked
    /\ Forall2 (fun hit original =>
                  take 50 MMRExample.candidates !! hit_index hit = Some original)
               RerankAnswer.hits originals
    /\ Permutation reranked
         (zip_with (fun original hit =>
                      Reranker.with_rerankedScore original (relevanceScore hit))
                   originals RerankAnswer.hits)
    /\ length reranked = length RerankAnswer.hits
    /\ Forall (fun r => rerankedScore r = Some (score r)
                        /\ exists original,
                             original ∈ take 50 MMRExample.candidates
                             /\ chunk r = chunk original) reranked.
Proof.
  apply (rerank_success_sorted (RS := RerankAnswer.service) 1 "question"
           MMRExample.candidates (Some 2) RerankAnswer.hits);
    [discriminate | reflexivity | repeat constructor].
Defined.

(** ** Answer synthesizer: answers, citations and streaming *)

Lemma prepareContextWithCitations_citations (results : list RetrievalResult) :
  (LLM.prepareContextWithCitations results).1.2 = citationsFrom 0 results.
Proof.
  unfold LLM.prepareContextWithCitations.
  destruct (contextLoop_spec results results
              {| LLM.contextText := LLM.contextHeader; LLM.ctx_citations := [];
                 LLM.ctx_sourceMap := [] |} 0)
    as (_ & Hc & _); [done | by split; [constructor|] |].
  exact Hc.
Qed.

Lemma or_string_nonempty (a : option string) (b : string) :
  b <> ""%string -> JS.or_string a b <> ""%string.
Proof.
  intros Hb. unfold JS.or_string. destruct a as [s|]; [|done].
  by destruct (decide (s = ""%string)).
Qed.

Section AnswerFacts.
Context {GS : GenerationService} {SS : StreamingService}.
Variable systemPrompt : string.
Variable clock : nat -> Z.
Variable isoNow : string.


Lemma streamStep_foldl (deltas : list (option string)) (full : string)
    (count : nat) (delivered : list string) :
  foldl LLM.streamStep (full, count, delivered) deltas
  = (full +:+ joined (filter (fun s => s <> ""%string) (deltaText <$> deltas)),
     count + length (filter (fun s => s <> ""%string) (deltaText <$> deltas)),
     delivered ++ filter (fun s => s <> ""%string) (deltaText <$> deltas)).
Proof.
  revert full count delivered.
  induction deltas as [|d deltas IH]; intros full count delivered.
  - cbn. by rewrite string_app_nil_r, Nat.add_0_r, app_nil_r.
  - cbn [foldl fmap list_fmap]. rewrite filter_cons.
    unfold LLM.streamStep at 2. fold (deltaText d).
    destruct (decide (deltaText d = ""%string)) as [He|Hne].
    + rewrite decide_False by (by intros ?). apply IH.
    + rewrite decide_True by done. rewrite IH. cbn [joined foldr length].
      fold (joined (filter (fun s => s <> ""%string) (deltaText <$> deltas))).
      rewrite string_app_assoc, <- app_assoc. cbn [app].
      do 2 f_equal. lia.
Qed.

(** X22.  [generateStreamingAnswer] passes to [onChunk] the texts of the
    streamed chunks that are not empty, in order; when the stream ends,
    the answer is their concatenation and the output token count is
    their number; when the stream throws, so does the call, after the
    chunks before the failure have been passed on. *)
Theorem generateStreamingAnswer_delivers (query : string)
    (results : list RetrievalResult) (deltas : list (option string))
    (finished : bool) :
  results <> [] ->
  chat_stream
    {| system_message := systemPrompt;
       user_message :=
         LLM.createPrompt query (LLM.prepareContextWithCitations results).1.1 |}
  = Some (deltas, finished) ->
  let r := LLM.generateStreamingAnswer systemPrompt clock isoNow query results in
  r.2 = filter (fun s => s <> ""%string) (deltaText <$> deltas)
  /\ match r.1 with
     | Returned result =>
         finished = true
         /\ answer result = joined r.2
         /\ tokens_output (tokensUsed (metrics result)) = length r.2
         /\ citations result = citationsFrom 0 results
         /\ retrievalResults result = results
     | Thrown => finished = false
     | Unfinished => False
     end.
Proof.
  intros Hne Hstream. cbv zeta. unfold LLM.generateStreamingAnswer.
  destruct results as [|r0 results]; [done|].
  pose proof (prepareContextWithCitations_citations (r0 :: results)) as Hc.
  destruct (LLM.prepareContextWithCitations (r0 :: results)) as [[text cits] srcs].
  cbn [fst snd] in Hc, Hstream. subst cits. rewrite Hstream.
  rewrite streamStep_foldl. cbn [app Nat.add].
  destruct finished; cbn [fst snd]; [|done].
  split; [done|]. by repeat split.
Qed.

End AnswerFacts.


(** A stream of four chunks, two of which carry text. *)
Lemma generateStreamingAnswer_delivers_witness :
  let r := LLM.generateStreamingAnswer (SS := StreamExample.service) "system"
             (fun _ => 0%Z) "now" "question" [MMRExample.resultOf "A" 1] in
  r.2 = filter (fun s => s <> ""%string) (deltaText <$> StreamExample.deltas)
  /\ match r.1 with
     | Returned result =>
         true = true
         /\ answer result = joined r.2
         /\ tokens_output (tokensUsed (metrics result)) = length r.2
         /\ citations result = citationsFrom 0 [MMRExample.resultOf "A" 1]
         /\ retrievalResults result = [MMRExample.resultOf "A" 1]
     | Thrown => true = false
     | Unfinished => False
     end.
Proof.
  apply (generateStreamingAnswer_delivers (SS := StreamExample.service) "system"
           (fun _ => 0%Z) "now" "question" [MMRExample.resultOf "A" 1]
           StreamExample.deltas true);
    [discriminate | reflexivity].
Defined.

(** ** Query pipeline: failures and sizes *)

Lemma citationsFrom_length (k : nat) (results : list RetrievalResult) :
  length (citationsFrom k results) = length results.
Proof.
  rewrite <- (length_fmap cit_id), citationsFrom_ids. apply length_seq.
Qed.

Section QueryFacts.
Context {EP : EmbeddingProvider} {CK : CosineKernel} {VS : VectorSearch}
        {RS : RerankService} {GS : GenerationService} {CM : CostModel}.
Variable embeddingCfg : EmbeddingConfig.
Variable retrievalCfg : RetrievalConfig.
Variable rerankerTopN : nat.
Variable systemPrompt : string.
Variable clock llmClock : nat -> Z.
Variable isoNow : string.

(** What [query] returns once the final results are known. *)
Lemma query_cases (question : string) (options : QueryOptions) :
  let r := RAG.query embeddingCfg retrievalCfg rerankerTopN systemPrompt clock
             llmClock isoNow question options in
  (r = (RAG.errorResponse clock isoNow question, [])
   /\ forall x, RAG.finalResults embeddingCfg retrievalCfg rerankerTopN question options
                <> Returned x)
  \/ (exists retrieved reranked,
        RAG.finalResults embeddingCfg retrievalCfg rerankerTopN question options
        = Returned (retrieved, [])
        /\ r = (RAG.noResultsResponse clock isoNow question reranked, []))
  \/ (exists retrieved final request,
        RAG.finalResults embeddingCfg retrievalCfg rerankerTopN question options
        = Returned (retrieved, final)
        /\ final <> []
        /\ ((r = (RAG.errorResponse clock isoNow question, [request]))
            \/ (r.2 = [request]
                /\ answer r.1 <> ""%string
                /\ result_query r.1 = question
                /\ retrievalResults r.1 = final
                /\ citations r.1 = citationsFrom 0 final))).
Proof.
  cbv zeta. unfold RAG.query.
  destruct (RAG.finalResults _ _ _ _ _) as [[retrieved final]| |].
  2,3: by left.
  destruct final as [|r0 final].
  { right. left. by eexists _, _. }
  right. right. unfold LLM.generateAnswer.
  pose proof (prepareContextWithCitations_citations (r0 :: final)) as Hc.
  destruct (LLM.prepareContextWithCitations (r0 :: final)) as [[text cits] srcs].
  cbn [fst snd] in Hc. subst cits.
  destruct (chat_completion _) as [completion|]; eexists retrieved, (r0 :: final), _;
    (split; [done|]); (split; [done|]).
  - right. cbn [fst snd]. split; [done|].
    destruct (RAG.default true (includeMetrics options)); cbn;
      (split; [by apply or_string_nonempty|done]).
  - by left.
Qed.

(** X23.  [query] never throws and sends at most one generation request.
    Its answer is never empty, repeats the question, and has one citation
    per result it reports, numbered from 1; an answer given without a
    generation request is one of the two fixed messages; and when the
    question cannot be embedded the response is the apology, without a
    request. *)
Theorem query_always_answers (question : string) (options : QueryOptions) :
  let r := RAG.query embeddingCfg retrievalCfg rerankerTopN systemPrompt clock
             llmClock isoNow question options in
  length r.2 <= 1
  /\ answer r.1 <> ""%string
  /\ result_query r.1 = question
  /\ citations r.1 = citationsFrom 0 (retrievalResults r.1)
  /\ (r.2 = [] -> answer r.1 = LLM.NO_ANSWER \/ answer r.1 = RAG.APOLOGY)
  /\ (Embeddings.generateEmbedding embeddingCfg question = None ->
      r = (RAG.errorResponse clock isoNow question, [])).
Proof.
  cbv zeta.
  destruct (query_cases question options)
    as [[-> Hno]|[(retrieved & reranked & Hf & ->)
                 |(retrieved & final & request & Hf & Hne & [->|(Hs & Ha & Hq & Hr & Hc)])]];
    cbn [fst snd length].
  - repeat split; try done; try lia. by right.
  - repeat split; try done; try lia.
    + by left.
    + intros He. unfold RAG.finalResults in Hf. by rewrite He in Hf.
  - repeat split; try done; try lia.
    intros He. unfold RAG.finalResults in Hf. by rewrite He in Hf.
  - rewrite Hs, Hr. cbn [length]. repeat split; try done; try lia.
    intros He. unfold RAG.finalResults in Hf. by rewrite He in Hf.
Qed.

(** With reranking switched off, [query] reports and cites at most
    [rerankedK] results. *)
Theorem query_without_reranking_bound (question : string) (options : QueryOptions) :
  useReranking options = Some false ->
  let r := RAG.query embeddingCfg retrievalCfg rerankerTopN systemPrompt clock
             llmClock isoNow question options in
  let k := RAG.default (rerankedK retrievalCfg) (opt_rerankedK options) in
  length (retrievalResults r.1) <= k /\ length (citations r.1) <= k.
Proof.
  intros Hoff. cbv zeta.
  destruct (query_cases question options)
    as [[-> Hno]|[(retrieved & reranked & Hf & ->)
                 |(retrieved & final & request & Hf & Hne & [->|(Hs & Ha & Hq & Hr & Hc)])]];
    cbn [fst snd length RAG.errorResponse RAG.noResultsResponse retrievalResults citations];
    try (split; lia).
  rewrite Hc, Hr, citationsFrom_length.
  assert (length final
          <= RAG.default (rerankedK retrievalCfg) (opt_rerankedK options)); [|lia].
  unfold RAG.finalResults in Hf. rewrite Hoff in Hf. cbn [RAG.default] in Hf.
  destruct (await (Embeddings.generateEmbedding embeddingCfg question)) as [e| |];
    [|done..].
  rewrite bind_Returned in Hf.
  destruct (if RAG.default true (useMMR options) then _ else _) as [retrieved'| |];
    [|done..].
  rewrite bind_Returned in Hf. cbn [andb negb] in Hf.
  destruct (_ <? length retrieved') eqn:E; cbn in Hf; injection Hf as <- <-.
  - unfold JS.slice. rewrite length_take. lia.
  - apply Nat.ltb_ge in E. lia.
Qed.

End QueryFacts.

(** ** Job orchestrator: one job at a time *)

Section JobExclusion.
Context {SHA : Sha256}.

Lemma exclusive_frame (s s' : Jobs.Service) :
  Jobs.suspended s' = Jobs.suspended s ->
  Jobs.activeJobs s' = Jobs.activeJobs s ->
  Jobs.isProcessing s' = Jobs.isProcessing s ->
  exclusive s -> exclusive s'.
Proof. unfold exclusive. by intros -> -> ->. Qed.

Lemma exclusive_processQueue (s : Jobs.Service) :
  exclusive s -> exclusive (Jobs.processQueue s).
Proof.
  intros He. pose proof He as [Hlen Hact]. unfold Jobs.processQueue.
  destruct (Jobs.isProcessing s) eqn:Hp; [done|].
  cbn [orb]. destruct (Jobs.maxConcurrentJobs <=? Jobs.activeJobs s); [done|].
  destruct (Jobs.jobQueue s) as [|jobId rest]; [done|].
  destruct (Jobs.getJob jobId _); [|by apply (exclusive_frame s)].
  unfold Jobs.startJob, Jobs.emitProgress, Jobs.update, exclusive. cbn.
  rewrite length_app, Hlen, Hact. cbn. done.
Qed.

Lemma exclusive_finishProcessing (s : Jobs.Service) :
  length (Jobs.suspended s) + 1 = Jobs.activeJobs s ->
  Jobs.activeJobs s = 1 ->
  exclusive (Jobs.finishProcessing s).
Proof.
  intros Hlen Hact. unfold Jobs.finishProcessing, exclusive. cbn.
  rewrite Hact. cbn. lia.
Qed.

Lemma lookupSuspended_length (i : nat) (l rest : list (nat * Jobs.AwaitPoint))
    (point : Jobs.AwaitPoint) :
  Jobs.lookupSuspended i l = Some (point, rest) -> length l = length rest + 1.
Proof.
  revert rest. induction l as [|[j p] l IH]; intros rest; [done|].
  cbn [Jobs.lookupSuspended]. destruct (decide (j = i)).
  - intros [= <- <-]. cbn. lia.
  - destruct (Jobs.lookupSuspended i l) as [[q rest']|]; [|done].
    cbn. intros [= <- <-]. cbn. rewrite (IH rest') by done. lia.
Qed.

Lemma exclusive_continue (i : nat) (point : Jobs.AwaitPoint) (r : Jobs.Settled)
    (now : Z) (s s' : Jobs.Service) :
  length (Jobs.suspended s) + 1 = Jobs.activeJobs s ->
  Jobs.activeJobs s = 1 ->
  Jobs.isProcessing s = true ->
  Jobs.continue i point r now s = Some s' -> exclusive s'.
Proof.
  intros Hlen Hact Hp.
  assert (forall s0, Jobs.suspended s0 = Jobs.suspended s ->
                     Jobs.activeJobs s0 = Jobs.activeJobs s ->
                     exclusive (Jobs.finishProcessing s0)) as Hfin.
  { intros s0 H1 H2. apply exclusive_finishProcessing; by rewrite ?H1, ?H2. }
  assert (forall s0 p, Jobs.suspended s0 = Jobs.suspended s ->
                       Jobs.activeJobs s0 = Jobs.activeJobs s ->
                       Jobs.isProcessing s0 = Jobs.isProcessing s ->
                       exclusive (Jobs.set_suspended (fun l => l ++ [(i, p)]) s0))
    as Hsus.
  { intros s0 p H1 H2 H3. unfold exclusive. cbn.
    rewrite length_app, H1, H2, H3, Hp. cbn. lia. }
  destruct r as [msg| |chunks], point as [|unique|unique chunks'|unique embedded];
    cbn [Jobs.continue]; intros [= <-].
  - unfold Jobs.failJob. by apply Hfin.
  - unfold Jobs.failJob. by apply Hfin.
  - unfold Jobs.failJob. by apply Hfin.
  - unfold Jobs.failJob. by apply Hfin.
  - unfold Jobs.afterInitialize. cbv zeta.
    destruct (uniqueFiles _); [by apply Hfin|by apply Hsus].
  - unfold Jobs.afterIndexing. by apply Hfin.
  - unfold Jobs.afterProcessFiles. by apply Hsus.
  - unfold Jobs.afterEmbeddings. by apply Hsus.
Qed.

Lemma exclusive_step (a : Jobs.Action) (s : Jobs.Service) :
  exclusive s -> exclusive (Jobs.step a s).
Proof.
  intros He. destruct a as [files now|j now| |j r now|j c t f|j n t|now]; cbn.
  - unfold Jobs.createJob. cbn [snd]. apply exclusive_processQueue.
    by apply (exclusive_frame s).
  - unfold Jobs.cancelJob. destruct (Jobs.getJob j s); [|done].
    destruct (Jobs.is_finished _); [done|]. by apply (exclusive_frame s).
  - destruct (Jobs.timers s) as [|n]; [done|].
    apply exclusive_processQueue. by apply (exclusive_frame s).
  - unfold Jobs.settle.
    destruct (Jobs.lookupSuspended j (Jobs.suspended s)) as [[point rest]|] eqn:Hl;
      [|done].
    destruct (Jobs.continue _ _ _ _ _) as [s'|] eqn:Hc; [|done].
    apply lookupSuspended_length in Hl. destruct He as [Hlen Hact].
    assert (Jobs.isProcessing s = true) as Hp.
    { destruct (Jobs.isProcessing s); [done|]. lia. }
    rewrite Hp in Hact.
    apply (exclusive_continue j point r now
             (Jobs.set_suspended (fun _ => rest) s) s'); cbn; [lia|done|done|done].
  - unfold Jobs.embeddingProgress.
    destruct (Jobs.lookupSuspended _ _) as [[[] ?]|]; try done;
      by apply (exclusive_frame s).
  - unfold Jobs.indexingProgress.
    destruct (Jobs.lookupSuspended _ _) as [[[] ?]|]; try done;
      by apply (exclusive_frame s).
  - unfold Jobs.cleanupOldJobs.
    destruct (Jobs.MAX_JOBS_HISTORY <? _); by apply (exclusive_frame s).
Qed.

Lemma exclusive_run (actions : list Jobs.Action) (s : Jobs.Service) :
  exclusive s -> exclusive (Jobs.run actions s).
Proof.
  revert s. induction actions as [|a actions IH]; intros s He; [done|].
  cbn. apply IH. by apply exclusive_step.
Qed.

(** X24.  Whatever is asked of the service, it processes at most one job
    at a time: in every state it reaches at most one call of [processJob]
    is under way, [activeJobs] is 0 or 1, below [maxConcurrentJobs], and
    it is 1 exactly while [isProcessing] holds. *)
Theorem one_job_at_a_time (actions : list Jobs.Action) :
  let s := Jobs.run actions Jobs.initial in
  length (Jobs.suspended s) = Jobs.activeJobs s
  /\ Jobs.activeJobs s <= 1
  /\ Jobs.activeJobs s < Jobs.maxConcurrentJobs
  /\ (Jobs.isProcessing s = true <-> Jobs.activeJobs s = 1).
Proof.
  cbv zeta. destruct (exclusive_run actions Jobs.initial) as [Hlen Hact]; [by split|].
  rewrite Hact. unfold Jobs.maxConcurrentJobs.
  destruct (Jobs.isProcessing _); repeat split; try done; lia.
Qed.


(** A continuation of [processJob] either ends the job, [COMPLETE] or
    [FAILED], or suspends it again, unfinished. *)
Lemma continue_outcome (i : nat) (point : Jobs.AwaitPoint) (r : Jobs.Settled)
    (now : Z) (s s' : Jobs.Service) :
  Jobs.continue i point r now s = Some s' ->
  (Jobs.suspended s' = Jobs.suspended s
   /\ forall job', Jobs.objects s' !! i = Some job' ->
                   Jobs.is_finished (job_status job') = true)
  \/ (exists p, Jobs.suspended s' = Jobs.suspended s ++ [(i, p)]
      /\ forall job', Jobs.objects s' !! i = Some job' ->
                      Jobs.is_finished (job_status job') = false).
Proof.
  destruct r as [msg| |chunks], point as [|unique|unique chunks'|unique embedded];
    cbn [Jobs.continue]; intros [= <-].
  1-4: left; unfold Jobs.failJob, Jobs.finishProcessing, Jobs.emitProgress, Jobs.update;
    cbn; split; [done|]; intros job'; rewrite lookup_alter_eq;
    destruct (Jobs.objects s !! i); cbn; [|done]; by intros [= <-].
  - unfold Jobs.afterInitialize. cbv zeta.
    destruct (uniqueFiles _).
    + left. unfold Jobs.finishProcessing, Jobs.emitProgress, Jobs.update.
      cbn. split; [done|]. intros job'. rewrite !lookup_alter_eq.
      destruct (Jobs.objects s !! i); cbn; [|done]. by intros [= <-].
    + right. eexists. unfold Jobs.emitProgress, Jobs.update.
      cbn. split; [done|]. intros job'. rewrite !lookup_alter_eq.
      destruct (Jobs.objects s !! i); cbn; [|done]. by intros [= <-].
  - left. unfold Jobs.afterIndexing, Jobs.finishProcessing, Jobs.emitProgress,
      Jobs.update.
    cbn. split; [done|]. intros job'. rewrite !lookup_alter_eq.
    destruct (Jobs.objects s !! i); cbn; [|done]. by intros [= <-].
  - right. eexists. unfold Jobs.afterProcessFiles, Jobs.emitProgress, Jobs.update.
    cbn. split; [done|]. intros job'. rewrite !lookup_alter_eq.
    destruct (Jobs.objects s !! i); cbn; [|done]. by intros [= <-].
  - right. eexists. unfold Jobs.afterEmbeddings, Jobs.emitProgress, Jobs.update.
    cbn. split; [done|]. intros job'. rewrite !lookup_alter_eq.
    destruct (Jobs.objects s !! i); cbn; [|done]. by intros [= <-].
Qed.


Lemma orderly_frame (s s' : Jobs.Service) :
  Jobs.objects s' = Jobs.objects s ->
  Jobs.jobQueue s' = Jobs.jobQueue s ->
  Jobs.suspended s' = Jobs.suspended s ->
  orderly s -> orderly s'.
Proof. unfold orderly, statusOf, suspendedIds. by intros -> -> ->. Qed.

Lemma orderly_processQueue (s : Jobs.Service) :
  NoDup (Jobs.jobQueue s) -> orderly s -> orderly (Jobs.processQueue s).
Proof.
  intros Hnd [Hq Hs].
  destruct (processQueue_cases s) as [->|(i & rest & Hqueue & [[_ ->]| ->])];
    [done| |].
  - rewrite Hqueue in Hq. apply Forall_cons in Hq as [_ Hq]. by split.
  - rewrite Hqueue in Hq, Hnd. apply Forall_cons in Hq as [_ Hq].
    apply NoDup_cons in Hnd as [Hi _].
    pose proof (startJob_advances i
                  (Jobs.set_running true (Jobs.activeJobs s + 1)
                     (Jobs.set_jobQueue (fun _ => rest) s))) as Hadv.
    split.
    + pose proof Hadv as (Hq' & _). rewrite Hq'. cbn.
      apply Forall_forall. intros x Hx. rewrite Forall_forall in Hq.
      rewrite (statusOf_advances i x _ _ Hadv); [by apply Hq|].
      by intros ->.
    + assert (suspendedIds
                (Jobs.startJob i
                   (Jobs.set_running true (Jobs.activeJobs s + 1)
                      (Jobs.set_jobQueue (fun _ => rest) s)))
              = suspendedIds s ++ [i]) as ->.
      { unfold suspendedIds, Jobs.startJob. cbn. by rewrite fmap_app. }
      apply Forall_forall. intros x Hx st Hst.
      destruct (decide (x = i)) as [->|Hne].
      * unfold statusOf in Hst.
        destruct (Jobs.objects _ !! i) as [job'|] eqn:Hjob; [|done].
        apply startJob_status in Hjob. cbn in Hst. injection Hst as <-.
        by rewrite Hjob.
      * rewrite (statusOf_advances i x _ _ Hadv) in Hst by done.
        apply elem_of_app in Hx as [Hx|Hx].
        -- rewrite Forall_forall in Hs. by apply (Hs x).
        -- by apply list_elem_of_singleton in Hx.
Qed.

Lemma embeddingProgress_status (i current total failed x : nat)
    (s : Jobs.Service) :
  statusOf (Jobs.embeddingProgress i current total failed s) x = statusOf s x
  /\ Jobs.jobQueue (Jobs.embeddingProgress i current total failed s)
     = Jobs.jobQueue s
  /\ Jobs.suspended (Jobs.embeddingProgress i current total failed s)
     = Jobs.suspended s.
Proof.
  unfold Jobs.embeddingProgress.
  destruct (Jobs.lookupSuspended _ _) as [[[] ?]|]; try done.
  unfold Jobs.emitProgress, Jobs.update, statusOf. cbn. split; [|done].
  destruct (decide (x = i)) as [->|Hne].
  - rewrite lookup_alter_eq. by destruct (Jobs.objects s !! i).
  - by rewrite lookup_alter_ne.
Qed.

Lemma indexingProgress_status (i indexed total x : nat) (s : Jobs.Service) :
  statusOf (Jobs.indexingProgress i indexed total s) x = statusOf s x
  /\ Jobs.jobQueue (Jobs.indexingProgress i indexed total s) = Jobs.jobQueue s
  /\ Jobs.suspended (Jobs.indexingProgress i indexed total s) = Jobs.suspended s.
Proof.
  unfold Jobs.indexingProgress.
  destruct (Jobs.lookupSuspended _ _) as [[[] ?]|]; try done.
  unfold Jobs.emitProgress, Jobs.update, statusOf. cbn. split; [|done].
  destruct (decide (x = i)) as [->|Hne].
  - rewrite lookup_alter_eq. by destruct (Jobs.objects s !! i).
  - by rewrite lookup_alter_ne.
Qed.

Lemma orderly_same_status (s s' : Jobs.Service) :
  (forall x, statusOf s' x = statusOf s x) ->
  Jobs.jobQueue s' = Jobs.jobQueue s ->
  Jobs.suspended s' = Jobs.suspended s ->
  orderly s -> orderly s'.
Proof.
  intros Hst Hq Hs [H1 H2]. unfold orderly, suspendedIds. rewrite Hq, Hs. split.
  - eapply Forall_impl; [exact H1|]. intros x Hx. by rewrite Hst.
  - eapply Forall_impl; [exact H2|]. intros x Hx st. rewrite Hst. apply Hx.
Qed.

Lemma queued_not_suspended (s : Jobs.Service) (x : nat) :
  consistent s -> orderly s -> x ∈ suspendedIds s -> x ∉ Jobs.jobQueue s.
Proof.
  intros Hc [Hq _] Hx Hin.
  pose proof (suspended_started s Hc) as Hss. rewrite Forall_forall in Hss, Hq.
  destruct (Hss x Hx) as [_ Hne]. by apply Hne, Hq.
Qed.

Lemma orderly_step (a : Jobs.Action) (s : Jobs.Service) :
  consistent s -> exclusive s -> orderly s -> orderly (Jobs.step a s).
Proof.
  intros Hc He Ho.
  destruct a as [files now|k now| |k r now|k c t f|k n t|now]; cbn.
  - unfold Jobs.createJob. cbn [snd]. destruct Hc as [Hqc Hqn Hss Hoc].
    destruct Ho as [Hq Hs]. apply orderly_processQueue.
    + cbn. apply NoDup_app. split; [done|]. split; [|apply NoDup_singleton].
      intros x Hx Hx'. apply list_elem_of_singleton in Hx'. subst.
      rewrite Forall_forall in Hqc. specialize (Hqc _ Hx). lia.
    + split; cbn.
      * apply Forall_app. split.
        -- apply Forall_forall. intros x Hx. rewrite Forall_forall in Hq, Hqc.
           unfold statusOf in *. cbn. rewrite lookup_insert_ne; [by apply Hq|].
           specialize (Hqc x Hx). lia.
        -- repeat constructor. unfold statusOf. cbn. by rewrite lookup_insert_eq.
      * apply Forall_forall. intros x Hx st. rewrite Forall_forall in Hs, Hss.
        unfold statusOf in *. cbn. rewrite lookup_insert_ne; [by apply Hs|].
        destruct (Hss x Hx). lia.
  - destruct (cancelJob_cases k now s)
      as [[_ ->]|(_ & Hq & Hsame & Hadv & job & job' & Hget & _ & Hj & Hst & _)];
      [done|].
    destruct Ho as [Hoq Hos]. split.
    + rewrite Hq. apply Forall_forall. intros x Hx.
      assert (x <> k) as Hne.
      { intros ->. by apply (removeFirst_NoDup k (Jobs.jobQueue s) (queue_NoDup s Hc)) in Hx. }
      rewrite (statusOf_advances k x _ _ Hadv Hne).
      rewrite Forall_forall in Hoq. by apply Hoq, (removeFirst_subset k).
    + unfold suspendedIds. rewrite Hsame. apply Forall_forall. intros x Hx st Hstx.
      destruct (decide (x = k)) as [->|Hne].
      * unfold statusOf in Hstx. rewrite Hj in Hstx. cbn in Hstx.
        injection Hstx as <-. by rewrite Hst.
      * rewrite (statusOf_advances k x _ _ Hadv Hne) in Hstx.
        rewrite Forall_forall in Hos. by apply (Hos x).
  - destruct (Jobs.timers s) as [|n]; [done|].
    apply orderly_processQueue; [by destruct Hc|]. by apply (orderly_frame s).
  - unfold Jobs.settle.
    destruct (Jobs.lookupSuspended k (Jobs.suspended s)) as [[point rest]|] eqn:Hl;
      [|done].
    destruct (Jobs.continue _ _ _ _ _) as [s'|] eqn:Hcont; [|done].
    pose proof (lookupSuspended_length _ _ _ _ Hl) as Hlen.
    destruct He as [Hlen' Hact].
    assert (rest = []) as ->.
    { destruct rest; [done|]. cbn in Hlen. destruct (Jobs.isProcessing s); lia. }
    apply lookupSuspended_Some in Hl as [Hk _].
    pose proof (queued_not_suspended s k Hc Ho Hk) as Hnq.
    pose proof (continue_advances _ _ _ _ _ _ Hcont) as Hadv.
    destruct Ho as [Hoq Hos]. split.
    + pose proof Hadv as (Hq' & _). rewrite Hq'. cbn.
      apply Forall_forall. intros x Hx.
      rewrite (statusOf_advances k x _ s' Hadv); [|].
      * rewrite Forall_forall in Hoq. by apply Hoq.
      * by intros ->.
    + apply continue_outcome in Hcont as [[Hsus _]|(p & Hsus & Hun)];
        unfold suspendedIds; rewrite Hsus; cbn; [constructor|].
      repeat constructor. intros st Hst. unfold statusOf in Hst.
      destruct (Jobs.objects s' !! k) as [job'|] eqn:Hjob; [|done].
      cbn in Hst. injection Hst as <-. by apply Hun.
  - destruct (embeddingProgress_status k c t f 0 s) as (_ & Hq & Hs).
    apply (orderly_same_status s); [|done..].
    intros x. by destruct (embeddingProgress_status k c t f x s).
  - destruct (indexingProgress_status k n t 0 s) as (_ & Hq & Hs).
    apply (orderly_same_status s); [|done..].
    intros x. by destruct (indexingProgress_status k n t x s).
  - unfold Jobs.cleanupOldJobs.
    destruct (Jobs.MAX_JOBS_HISTORY <? _); by apply (orderly_frame s).
Qed.

(** The states that the service reaches are consistent, process one job
    at a time, and keep queued jobs pending and running jobs
    unfinished. *)
Lemma reachable_orderly (actions : list Jobs.Action) (s : Jobs.Service) :
  consistent s -> exclusive s -> orderly s ->
  consistent (Jobs.run actions s) /\ exclusive (Jobs.run actions s)
  /\ orderly (Jobs.run actions s).
Proof.
  revert s. induction actions as [|a actions IH]; intros s Hc He Ho; [done|].
  cbn. apply IH; [by apply consistent_step|by apply exclusive_step|by apply orderly_step].
Qed.

Lemma initial_orderly :
  consistent Jobs.initial /\ exclusive Jobs.initial /\ orderly Jobs.initial.
Proof.
  split; [apply consistent_initial|]. split; [done|]. split; constructor.
Qed.

Lemma finished_step (j : nat) (st : JobStatus) (a : Jobs.Action)
    (s : Jobs.Service) :
  consistent s -> orderly s -> Jobs.is_finished st = true ->
  statusOf s j = Some st -> statusOf (Jobs.step a s) j = Some st.
Proof.
  intros Hc [Hoq Hos] Hfin Hst.
  assert (j ∉ Jobs.jobQueue s) as Hnq.
  { intros Hin. rewrite Forall_forall in Hoq. rewrite (Hoq j Hin) in Hst.
    by injection Hst as <-. }
  assert (j ∉ suspendedIds s) as Hns.
  { intros Hin. rewrite Forall_forall in Hos. specialize (Hos j Hin st Hst).
    congruence. }
  assert (j < Jobs.uuidsDrawn s) as Hlt.
  { unfold statusOf in Hst. destruct (Jobs.objects s !! j) as [job|] eqn:Hjob; [|done].
    by apply (objects_created s Hc) in Hjob as [_ ?]. }
  assert (forall s0, Jobs.jobQueue s0 = Jobs.jobQueue s \/ True ->
                     j ∉ Jobs.jobQueue s0 -> statusOf s0 j = Some st ->
                     statusOf (Jobs.processQueue s0) j = Some st) as Hpq.
  { intros s0 _ Hnq0 Hst0.
    destruct (processQueue_cases s0) as [->|(i & rest & Hqueue & [[_ ->]| ->])];
      [done|done|].
    rewrite (statusOf_advances i j _ _ (startJob_advances i _)); [done|].
    intros <-. apply Hnq0. rewrite Hqueue. by left. }
  destruct a as [files now|k now| |k r now|k c t f|k n t|now]; cbn.
  - unfold Jobs.createJob. cbn [snd]. apply Hpq; [by right| |].
    + cbn. intros Hin. apply elem_of_app in Hin as [Hin|Hin]; [done|].
      apply list_elem_of_singleton in Hin. lia.
    + unfold statusOf in *. cbn. by rewrite lookup_insert_ne by lia.
  - destruct (cancelJob_cases k now s)
      as [[_ ->]|(_ & _ & _ & Hadv & job & job' & Hget & Hnf & _)]; [done|].
    destruct (decide (k = j)) as [->|Hne].
    + apply getJob_status in Hget. rewrite Hst in Hget. injection Hget as ->.
      congruence.
    + by rewrite (statusOf_advances k j _ _ Hadv).
  - destruct (Jobs.timers s) as [|n]; [done|]. by apply Hpq; [right| |].
  - destruct (settle_advances k r now s) as [->|[Hin Hadv]]; [done|].
    rewrite (statusOf_advances k j _ _ Hadv); [done|]. by intros <-.
  - by destruct (embeddingProgress_status k c t f j s) as (-> & _).
  - by destruct (indexingProgress_status k n t j s) as (-> & _).
  - unfold Jobs.cleanupOldJobs. by destruct (Jobs.MAX_JOBS_HISTORY <? _).
Qed.

(** X25.  [COMPLETE] and [FAILED] are final: once a job has one of these
    statuses, nothing that happens to the service afterwards (uploads,
    cancellations, timers, settled promises, progress callbacks) changes
    its status. *)
Theorem finished_jobs_stay_finished (before after : list Jobs.Action)
    (j : nat) (st : JobStatus) :
  let s := Jobs.run before Jobs.initial in
  statusOf s j = Some st ->
  Jobs.is_finished st = true ->
  statusOf (Jobs.run after s) j = Some st
  /\ (Jobs.cancelJob j 0 (Jobs.run after s)).1 = false.
Proof.
  cbv zeta. intros Hst Hfin.
  destruct initial_orderly as (Hc0 & He0 & Ho0).
  destruct (reachable_orderly before Jobs.initial Hc0 He0 Ho0) as (Hc & He & Ho).
  assert (forall s, consistent s -> exclusive s -> orderly s ->
                    statusOf s j = Some st ->
                    statusOf (Jobs.run after s) j = Some st
                    /\ consistent (Jobs.run after s)) as Hrun.
  { clear Hst Hc He Ho. induction after as [|a after IH]; intros s Hc He Ho Hst;
      [done|].
    cbn. apply IH; [by apply consistent_step|by apply exclusive_step
                    |by apply orderly_step|by apply finished_step]. }
  destruct (Hrun _ Hc He Ho Hst) as [Hst' Hc']. split; [done|].
  unfold Jobs.cancelJob.
  destruct (Jobs.getJob j _) as [job|] eqn:Hget; [|done].
  apply getJob_status in Hget. rewrite Hst' in Hget. injection Hget as <-.
  by rewrite Hfin.
Qed.

Lemma continue_status (i : nat) (point : Jobs.AwaitPoint) (r : Jobs.Settled)
    (now : Z) (s s' : Jobs.Service) (job : ProcessingJob) :
  Jobs.continue i point r now s = Some s' ->
  Jobs.objects s !! i = Some job ->
  exists st, statusOf s' i = Some st
             /\ st ∈ [FAILED; COMPLETE; CHUNKING; EMBEDDING; INDEXING]
             /\ (forall m, r = Jobs.Rejected m -> st = FAILED).
Proof.
  intros Hcont Hjob.
  destruct r; destruct point;
    cbn in Hcont; try done; injection Hcont as <-;
    unfold Jobs.failJob, Jobs.afterInitialize, Jobs.afterProcessFiles,
      Jobs.afterEmbeddings, Jobs.afterIndexing, Jobs.finishProcessing,
      Jobs.emitProgress, Jobs.update, statusOf.
  all: try (cbn; rewrite ?lookup_alter_eq, Hjob; cbn; eexists; split; [done|];
            split; [set_solver|]; by (intros ? [=] || intros ? _)).
  cbn -[Cache.filterDuplicateFiles].
  rewrite !lookup_alter_eq, Hjob. cbn -[Cache.filterDuplicateFiles].
  destruct (uniqueFiles _); cbn -[Cache.filterDuplicateFiles];
    rewrite ?lookup_alter_eq, Hjob; cbn; (eexists; split; [done|]);
    (split; [set_solver|done]).
Qed.

(** X26.  Cancelling a job whose processing has started is accepted and
    marks it [CANCELLED], but does not stop it: the job stays suspended at
    its [await], and as soon as the awaited promise settles, processing
    goes on and overwrites the status; a rejection makes the job
    [FAILED]. *)
Theorem cancel_does_not_stop_running_job (actions : list Jobs.Action)
    (j : nat) (job : ProcessingJob) (now later : Z) (r : Jobs.Settled) :
  let s := Jobs.run actions Jobs.initial in
  let s1 := (Jobs.cancelJob j now s).2 in
  let s2 := Jobs.settle j r later s1 in
  Jobs.getJob j s = Some job ->
  j ∈ suspendedIds s ->
  (Jobs.cancelJob j now s).1 = true
  /\ statusOf s1 j = Some CANCELLED
  /\ j ∈ suspendedIds s1
  /\ (s2 = s1
      \/ exists st, statusOf s2 j = Some st
                    /\ st ∈ [FAILED; COMPLETE; CHUNKING; EMBEDDING; INDEXING])
  /\ (forall message, r = Jobs.Rejected message -> statusOf s2 j = Some FAILED).
Proof.
  cbv zeta. intros Hget Hsus.
  destruct initial_orderly as (Hc0 & He0 & Ho0).
  destruct (reachable_orderly actions Jobs.initial Hc0 He0 Ho0)
    as (Hc & He & [_ Hos]).
  set (s := Jobs.run actions Jobs.initial) in *.
  assert (Jobs.is_finished (job_status job) = false) as Hnf.
  { rewrite Forall_forall in Hos. apply (Hos j Hsus). by apply getJob_status. }
  destruct (cancelJob_cases j now s)
    as [[Hno Hsame]|(Hyes & _ & Hsusp & _ & job0 & job' & _ & _ & Hj & Hst & _)].
  { unfold Jobs.cancelJob in Hno. by rewrite Hget, Hnf in Hno. }
  set (s1 := (Jobs.cancelJob j now s).2) in *.
  assert (statusOf s1 j = Some CANCELLED) as Hcancelled.
  { unfold statusOf. by rewrite Hj; cbn; rewrite Hst. }
  assert (j ∈ suspendedIds s1) as Hsus1.
  { unfold suspendedIds. by rewrite Hsusp. }
  split; [done|]. split; [done|]. split; [done|].
  unfold Jobs.settle.
  destruct (Jobs.lookupSuspended j (Jobs.suspended s1)) as [[point rest]|] eqn:Hl.
  2:{ exfalso. clear -Hl Hsus1. unfold suspendedIds in Hsus1.
      induction (Jobs.suspended s1) as [|[x p] l IH]; [by apply elem_of_nil in Hsus1|].
      cbn in Hl, Hsus1. destruct (decide (x = j)); [done|].
      apply elem_of_cons in Hsus1 as [->|Hin]; [done|].
      destruct (Jobs.lookupSuspended j l) as [[]|]; [done|]. by apply IH. }
  destruct (Jobs.continue _ _ _ _ _) as [s2|] eqn:Hcont.
  - destruct (continue_status _ _ _ _ _ _ job' Hcont Hj) as (st & Hst2 & Hin & Hrej).
    split; [right; by exists st|]. intros m ->. by rewrite Hst2, (Hrej m).
  - split; [by left|]. intros m ->. by destruct point.
Qed.

End JobExclusion.


(** Job 0 has completed; a cancellation, a late settlement and the
    clean-up leave it [COMPLETE]. *)
Lemma finished_jobs_stay_finished_witness :
  statusOf (Jobs.run (SHA := DemoDigest.sha) FinishedExample.after
              (Jobs.run (SHA := DemoDigest.sha) FinishedExample.before Jobs.initial))
           0 = Some COMPLETE
  /\ (Jobs.cancelJob 0 0
        (Jobs.run (SHA := DemoDigest.sha) FinishedExample.after
           (Jobs.run (SHA := DemoDigest.sha) FinishedExample.before Jobs.initial))).1
     = false.
Proof.
  apply (finished_jobs_stay_finished (SHA := DemoDigest.sha)
           FinishedExample.before FinishedExample.after 0 COMPLETE);
    [vm_compute; reflexivity | reflexivity].
Defined.

(** Job 0 is cancelled while it waits for its first promise; when the
    promise is rejected, the job becomes [FAILED]. *)
Lemma cancel_does_not_stop_running_job_witness :
  (Jobs.cancelJob 0 30 JobsExample.queued).1 = true
  /\ statusOf (Jobs.cancelJob 0 30 JobsExample.queued).2 0 = Some CANCELLED
  /\ 0 ∈ suspendedIds (Jobs.cancelJob 0 30 JobsExample.queued).2
  /\ (Jobs.settle (SHA := DemoDigest.sha) 0
        (Jobs.Rejected (Some "timeout"%string)) 40
        (Jobs.cancelJob 0 30 JobsExample.queued).2
      = (Jobs.cancelJob 0 30 JobsExample.queued).2
      \/ exists st,
           statusOf (Jobs.settle (SHA := DemoDigest.sha) 0
                       (Jobs.Rejected (Some "timeout"%string)) 40
                       (Jobs.cancelJob 0 30 JobsExample.queued).2) 0 = Some st
           /\ st ∈ [FAILED; COMPLETE; CHUNKING; EMBEDDING; INDEXING])
  /\ (forall message,
        Jobs.Rejected (Some "timeout"%string) = Jobs.Rejected message ->
        statusOf (Jobs.settle (SHA := DemoDigest.sha) 0
                    (Jobs.Rejected (Some "timeout"%string)) 40
                    (Jobs.cancelJob 0 30 JobsExample.queued).2) 0 = Some FAILED).
Proof.
  apply (cancel_does_not_stop_running_job (SHA := DemoDigest.sha)
           JobsExample.before 0 RunningExample.job 30 40
           (Jobs.Rejected (Some "timeout"%string))).
  - vm_compute. reflexivity.
  - vm_compute. by left.
Defined.

(** ** Job orchestrator: the history of jobs *)

Section JobHistory.
Context {SHA : Sha256}.

Lemma insertByStart_Permutation (s : Jobs.Service) (x : nat) (l : list nat) :
  Jobs.insertByStart s x l ≡ₚ x :: l.
Proof.
  induction l as [|y l IH]; cbn; [done|].
  destruct (_ <? _)%Z; [|done]. rewrite IH. apply Permutation_swap.
Qed.

Lemma sortByStart_Permutation (s : Jobs.Service) (l : list nat) :
  foldr (Jobs.insertByStart s) [] l ≡ₚ l.
Proof.
  induction l as [|x l IH]; cbn; [done|].
  by rewrite insertByStart_Permutation, IH.
Qed.

Lemma insertByStart_sorted (s : Jobs.Service) (x : nat) (l : list nat) :
  StronglySorted (fun a b => (Jobs.startTimeOf s a <= Jobs.startTimeOf s b)%Z) l ->
  StronglySorted (fun a b => (Jobs.startTimeOf s a <= Jobs.startTimeOf s b)%Z)
                 (Jobs.insertByStart s x l).
Proof.
  induction 1 as [|y l Hl IH Hy]; cbn; [by repeat constructor|].
  destruct (_ <? _)%Z eqn:Hlt.
  - constructor; [done|]. rewrite insertByStart_Permutation.
    constructor; [lia|done].
  - constructor; [by constructor|]. constructor; [lia|].
    eapply Forall_impl; [exact Hy|]. cbn. intros; lia.
Qed.

Lemma sortByStart_sorted (s : Jobs.Service) (l : list nat) :
  StronglySorted (fun a b => (Jobs.startTimeOf s a <= Jobs.startTimeOf s b)%Z)
                 (foldr (Jobs.insertByStart s) [] l).
Proof.
  induction l as [|x l IH]; cbn; [constructor|]. by apply insertByStart_sorted.
Qed.

Lemma sorted_app_le (R : nat -> nat -> Prop) (l1 l2 : list nat) (x y : nat) :
  StronglySorted R (l1 ++ l2) -> x ∈ l1 -> y ∈ l2 -> R x y.
Proof.
  induction l1 as [|z l1 IH]; cbn; intros Hs Hx Hy; [by apply elem_of_nil in Hx|].
  apply StronglySorted_inv in Hs as [Hs Hz].
  apply elem_of_cons in Hx as [->|Hx]; [|by apply IH].
  rewrite Forall_forall in Hz. apply Hz, elem_of_app. by right.
Qed.

Lemma filter_none (P : nat -> Prop) `{!forall x, Decision (P x)} (l : list nat) :
  (forall x, x ∈ l -> ~ P x) -> filter P l = [].
Proof.
  induction l as [|y l IH]; intros Hall; [done|].
  rewrite filter_cons_False by (apply Hall; by left).
  apply IH. intros x Hx. apply Hall. by right.
Qed.

Lemma filter_all (P : nat -> Prop) `{!forall x, Decision (P x)} (l : list nat) :
  (forall x, x ∈ l -> P x) -> filter P l = l.
Proof.
  induction l as [|y l IH]; intros Hall; [done|].
  rewrite filter_cons_True by (apply Hall; by left).
  f_equal. apply IH. intros x Hx. apply Hall. by right.
Qed.

Lemma filter_not_in_prefix (l1 l2 : list nat) :
  NoDup (l1 ++ l2) -> filter (fun x => x ∉ l1) (l1 ++ l2) = l2.
Proof.
  intros Hnd. apply NoDup_app in Hnd as (_ & Hdis & _).
  rewrite filter_app, filter_none, filter_all; [done| |].
  - intros x Hx Hin. by apply (Hdis x).
  - by intros x Hx Hn.
Qed.

Lemma jobs_NoDup_step (a : Jobs.Action) (s : Jobs.Service) :
  NoDup (Jobs.jobs s) -> NoDup (Jobs.jobs (Jobs.step a s)).
Proof.
  intros Hnd.
  assert (forall s0, Jobs.jobs (Jobs.processQueue s0) = Jobs.jobs s0) as Hpq.
  { intros s0.
    destruct (processQueue_cases s0) as [->|(i & rest & _ & [[_ ->]| ->])];
      [done|done|].
    by destruct (startJob_advances i
                   (Jobs.set_running true (Jobs.activeJobs s0 + 1)
                      (Jobs.set_jobQueue (fun _ => rest) s0))) as (_ & -> & _). }
  destruct a as [files now|k now| |k r now|k c t f|k n t|now]; cbn.
  - unfold Jobs.createJob. cbn [snd]. rewrite Hpq. cbn.
    destruct (decide _) as [|Hn]; [done|].
    apply NoDup_app. split; [done|]. split; [|apply NoDup_singleton].
    intros x Hx Hx'. by apply list_elem_of_singleton in Hx' as ->.
  - destruct (cancelJob_cases k now s) as [[_ ->]|(_ & _ & _ & Hadv & _)]; [done|].
    by destruct Hadv as (_ & -> & _).
  - destruct (Jobs.timers s) as [|n]; [done|]. by rewrite Hpq.
  - destruct (settle_advances k r now s) as [->|[_ (_ & -> & _)]]; done.
  - destruct (embeddingProgress_advances k c t f s) as [->|[_ (_ & -> & _)]]; done.
  - destruct (indexingProgress_advances k n t s) as [->|[_ (_ & -> & _)]]; done.
  - unfold Jobs.cleanupOldJobs. destruct (_ <? _); cbn; repeat apply NoDup_filter; done.
Qed.

Lemma jobs_NoDup_run (actions : list Jobs.Action) (s : Jobs.Service) :
  NoDup (Jobs.jobs s) -> NoDup (Jobs.jobs (Jobs.run actions s)).
Proof.
  revert s. induction actions as [|a actions IH]; intros s Hnd; [done|].
  cbn. by apply IH, jobs_NoDup_step.
Qed.

(** X27.  [cleanupOldJobs] leaves at most [MAX_JOBS_HISTORY] jobs in the
    map, in their old order.  No job that stays is a finished job older
    than [maxAge]; a job that goes is such a job, or started no later than
    every job that stays. *)
Theorem cleanupOldJobs_bounds_history (actions : list Jobs.Action) (now : Z) :
  let s := Jobs.run actions Jobs.initial in
  let s' := Jobs.cleanupOldJobs now s in
  length (Jobs.jobs s') <= Jobs.MAX_JOBS_HISTORY
  /\ sublist (Jobs.jobs s') (Jobs.jobs s)
  /\ (forall x, x ∈ Jobs.jobs s' -> ~ expiredAt now s x)
  /\ (forall x, x ∈ Jobs.jobs s -> x ∉ Jobs.jobs s' ->
        expiredAt now s x
        \/ forall y, y ∈ Jobs.jobs s' ->
                     (Jobs.startTimeOf s x <= Jobs.startTimeOf s y)%Z).
Proof.
  cbv zeta.
  pose proof (jobs_NoDup_run actions Jobs.initial (NoDup_nil_2 : NoDup [])) as Hnd.
  set (s := Jobs.run actions Jobs.initial) in *.
  unfold Jobs.cleanupOldJobs. cbv zeta.
  set (expired := fun jobId : nat =>
         match Jobs.objects s !! jobId with
         | Some job => Jobs.is_finished (job_status job)
                       && (Jobs.maxAge <? now - job_startTime job)%Z
         | None => false
         end).
  set (kept := filter (fun jobId => expired jobId = false) (Jobs.jobs s)).
  change (filter _ (Jobs.jobs s)) with kept.
  assert (forall x, expired x = true <-> expiredAt now s x) as Hexp.
  { intros x. unfold expired, expiredAt. destruct (Jobs.objects s !! x) as [job|].
    - rewrite andb_true_iff, Z.ltb_lt. split.
      + intros [? ?]. by exists job.
      + by intros (? & [= <-] & ? & ?).
    - split; [done|]. by intros (? & ? & _). }
  assert (NoDup kept) as Hndk by by apply NoDup_filter.
  assert (forall x, x ∈ kept <-> x ∈ Jobs.jobs s /\ ~ expiredAt now s x) as Hkept.
  { intros x. unfold kept. rewrite list_elem_of_filter, <- Hexp.
    split.
    - intros [Hx Hin]. split; [done|]. intros Hy. cbn beta in Hx. congruence.
    - intros [Hin Hx]. split; [|done].
      destruct (expired x) eqn:Hex; [|done]. by exfalso. }
  destruct (Jobs.MAX_JOBS_HISTORY <? length kept) eqn:Hmany; cbn [Jobs.jobs Jobs.set_jobs].
  - apply Nat.ltb_lt in Hmany.
    set (sorted := foldr (Jobs.insertByStart s) [] kept).
    assert (sorted ≡ₚ kept) as Hperm by apply sortByStart_Permutation.
    pose proof (sortByStart_sorted s kept) as Hsorted. fold sorted in Hsorted.
    set (k := length sorted - Jobs.MAX_JOBS_HISTORY).
    assert (JS.slice 0 k sorted = take k sorted) as ->.
    { unfold JS.slice. by rewrite drop_0, Nat.sub_0_r. }
    assert (filter (fun x => x ∉ take k sorted) kept ≡ₚ drop k sorted) as Hrest.
    { trans (filter (fun x => x ∉ take k sorted) (take k sorted ++ drop k sorted)).
      - by rewrite take_drop, Hperm.
      - rewrite filter_not_in_prefix; [done|]. by rewrite take_drop, Hperm. }
    split; [|split; [|split]].
    + rewrite Hrest, length_drop. unfold k. lia.
    + etrans; apply sublist_filter.
    + intros x Hx. apply list_elem_of_filter in Hx as [_ Hx]. by apply Hkept in Hx as [_ ?].
    + intros x Hx Hgone.
      destruct (expired x) eqn:Hex; [left; by apply Hexp|]. right.
      assert (x ∈ kept) as Hxk by by apply list_elem_of_filter.
      assert (x ∈ take k sorted) as Hxt.
      { destruct (decide (x ∈ take k sorted)) as [|Hn]; [done|].
        exfalso. apply Hgone. by apply list_elem_of_filter. }
      intros y Hy. rewrite Hrest in Hy.
      rewrite <- (take_drop k sorted) in Hsorted.
      apply (sorted_app_le _ _ _ x y Hsorted Hxt Hy).
  - apply Nat.ltb_ge in Hmany. split; [done|]. split; [apply sublist_filter|].
    split.
    + intros x Hx. by apply Hkept in Hx as [_ ?].
    + intros x Hx Hgone. left. apply Hexp.
      destruct (expired x) eqn:Hex; [done|].
      exfalso. apply Hgone. by apply list_elem_of_filter.
Qed.

End JobHistory.

(** ** Retries and circuit breaker *)

Section RetryFacts.
Context {E A : Type}.
Variable fn : nat -> E + A.
Variable baseDelay : nat.

Lemma retryLoop_spec (remaining i : nat) (lastError : option E)
    (slept : list nat) :
  let run := Retry.retryLoop fn baseDelay remaining i lastError slept in
  match Retry.result run with
  | inr value =>
      exists k, i <= k < i + remaining
                /\ fn k = inr value
                /\ (forall j, i <= j < k -> exists err, fn j = inl err)
                /\ Retry.calls run = k + 1
                /\ Retry.sleeps run
                   = slept ++ ((fun j => baseDelay * 2 ^ j) <$> seq i (k - i))
  | inl last =>
      (forall j, i <= j < i + remaining -> exists err, fn j = inl err)
      /\ Retry.calls run = i + remaining
      /\ Retry.sleeps run
         = slept ++ ((fun j => baseDelay * 2 ^ j) <$> seq i (remaining - 1))
      /\ ((remaining = 0 /\ last = lastError)
          \/ (0 < remaining
              /\ exists err, fn (i + remaining - 1) = inl err /\ last = Some err))
  end.
Proof.
  revert i lastError slept.
  induction remaining as [|r IH]; intros i lastError slept;
    cbn [Retry.retryLoop Retry.result Retry.calls Retry.sleeps].
  - cbn. split; [intros; lia|]. split; [lia|]. split; [by rewrite app_nil_r|].
    by left.
  - destruct (fn i) as [err|value] eqn:Hi.
    + specialize (IH (i + 1) (Some err)
                    (if 0 <? r then slept ++ [baseDelay * 2 ^ i] else slept)).
      cbn zeta in IH.
      destruct (Retry.result _) as [last|value].
      * destruct IH as (Hall & Hcalls & Hsleeps & Hlast).
        split.
        { intros j Hj. destruct (decide (j = i)) as [->|]; [by exists err|].
          apply Hall. lia. }
        split; [lia|]. split.
        { rewrite Hsleeps. replace (S r - 1) with r by lia.
          destruct r as [|r]; cbn; [done|].
          by rewrite <- app_assoc, Nat.sub_0_r, Nat.add_1_r. }
        right. split; [lia|].
        destruct Hlast as [[-> ->]|(Hr & err' & Hfn & ->)].
        -- exists err. split; [|done]. by replace (i + 1 - 1) with i by lia.
        -- exists err'. split; [|done]. by replace (i + S r - 1) with (i + 1 + r - 1) by lia.
      * destruct IH as (k & Hk & Hfn & Hall & Hcalls & Hsleeps).
        exists k. split; [lia|]. split; [done|]. split.
        { intros j Hj. destruct (decide (j = i)) as [->|]; [by exists err|].
          apply Hall. lia. }
        split; [done|]. rewrite Hsleeps.
        destruct r as [|r]; [lia|]. cbn. rewrite <- app_assoc. cbn.
        replace (k - i) with (S (k - (i + 1))) by lia. cbn.
        by rewrite Nat.add_1_r.
    + exists i. split; [lia|]. split; [done|]. split; [intros; lia|].
      split; [done|]. by rewrite Nat.sub_diag, app_nil_r.
Qed.

(** X28.  [retry] returns the value of the first call of [fn] that
    succeeds among the first [attempts] calls, having slept
    [baseDelay * 2^i] after the [i]-th failure.  When they all fail it
    throws the last error after [attempts] calls and [attempts - 1]
    sleeps; with [attempts = 0] it throws [undefined] without calling
    [fn]. *)
Theorem retry_first_success_or_last_error (attempts : nat) :
  let run := Retry.retry fn baseDelay attempts in
  match Retry.result run with
  | inr value =>
      exists k, k < attempts
                /\ fn k = inr value
                /\ (forall j, j < k -> exists err, fn j = inl err)
                /\ Retry.calls run = k + 1
                /\ Retry.sleeps run = backoff baseDelay k
  | inl last =>
      (forall j, j < attempts -> exists err, fn j = inl err)
      /\ Retry.calls run = attempts
      /\ Retry.sleeps run = backoff baseDelay (attempts - 1)
      /\ match attempts with
         | 0 => last = None
         | S n => exists err, fn n = inl err /\ last = Some err
         end
  end.
Proof.
  cbv zeta. unfold Retry.retry, backoff.
  pose proof (retryLoop_spec attempts 0 None []) as H. cbv zeta in H.
  destruct (Retry.result _) as [last|value].
  - destruct H as (Hall & Hcalls & Hsleeps & Hlast).
    split; [intros j Hj; apply Hall; lia|]. split; [done|]. split; [done|].
    destruct attempts as [|n].
    + by destruct Hlast as [[_ ->]|[? _]]; [|lia].
    + destruct Hlast as [[? _]|(_ & err & Hfn & ->)]; [done|].
      exists err. split; [|done]. cbn in Hfn. by rewrite Nat.sub_0_r in Hfn.
  - destruct H as (k & Hk & Hfn & Hall & Hcalls & Hsleeps).
    exists k. split; [lia|]. split; [done|].
    split; [intros j Hj; apply Hall; lia|]. split; [done|].
    by rewrite Hsleeps, Nat.sub_0_r.
Qed.

End RetryFacts.

Section WithRetryFacts.
Context {A : Type}.
Variable operation : nat -> Failure + A.
Variable errorHandler : option (Failure -> Failure).

Lemma withRetryLoop_spec (remaining attempt : nat) :
  let run := RetryHandler.withRetryLoop operation errorHandler remaining attempt in
  attempt < run.2 <= attempt + remaining + 1
  /\ (forall k, attempt <= k < run.2 - 1 ->
        exists error, operation k = inl error
                      /\ RetryHandler.notRetried error = false)
  /\ match run.1 with
     | inr value => operation (run.2 - 1) = inr value
     | inl thrown =>
         exists error,
           operation (run.2 - 1) = inl error
           /\ ((RetryHandler.notRetried error = true /\ thrown = error)
               \/ (RetryHandler.notRetried error = false
                   /\ run.2 = attempt + remaining + 1
                   /\ thrown = match errorHandler with
                               | Some handler => handler error
                               | None => error
                               end))
     end.
Proof.
  revert attempt. induction remaining as [|r IH]; intros attempt; cbn.
  - destruct (operation attempt) as [error|value] eqn:Hop; cbn.
    + destruct (RetryHandler.notRetried error) eqn:Hnr; cbn;
        (split; [lia|]); (split; [intros; lia|]);
        rewrite Nat.add_sub; exists error; (split; [done|]).
      * by left.
      * right. split; [done|]. split; [lia|done].
    + split; [lia|]. split; [intros; lia|]. by rewrite Nat.add_sub.
  - destruct (operation attempt) as [error|value] eqn:Hop; cbn.
    + destruct (RetryHandler.notRetried error) eqn:Hnr; cbn.
      * split; [lia|]. split; [intros; lia|]. rewrite Nat.add_sub.
        exists error. split; [done|]. by left.
      * specialize (IH (attempt + 1)). cbv zeta in IH.
        destruct (RetryHandler.withRetryLoop _ _ _ _) as [res calls].
        cbn in *. destruct IH as (Hcalls & Hall & Hres).
        split; [lia|]. split.
        { intros k Hk. destruct (decide (k = attempt)) as [->|]; [by exists error|].
          apply Hall. lia. }
        destruct res as [thrown|value]; [|done].
        destruct Hres as (e & He & [[? ?]|(? & ? & ?)]); exists e; (split; [done|]);
          [by left|right]. split; [done|]. split; [lia|done].
    + split; [lia|]. split; [intros; lia|]. by rewrite Nat.add_sub.
Qed.

(** X29.  [withRetry] calls [operation] at least once and at most
    [maxRetries + 1] times; every call but the last one failed with an
    error that is retried.  It returns the value of the last call, or
    throws: the error of the last call itself when it is one that is not
    retried (an invalid API key, a status below 500), and otherwise, after
    [maxRetries + 1] calls, that error passed through [errorHandler]. *)
Theorem withRetry_calls_and_result (maxRetries : nat) :
  let run := RetryHandler.withRetry operation errorHandler maxRetries in
  1 <= run.2 <= maxRetries + 1
  /\ (forall k, k < run.2 - 1 ->
        exists error, operation k = inl error
                      /\ RetryHandler.notRetried error = false)
  /\ match run.1 with
     | inr value => operation (run.2 - 1) = inr value
     | inl thrown =>
         exists error,
           operation (run.2 - 1) = inl error
           /\ ((RetryHandler.notRetried error = true /\ thrown = error)
               \/ (RetryHandler.notRetried error = false
                   /\ run.2 = maxRetries + 1
                   /\ thrown = match errorHandler with
                               | Some handler => handler error
                               | None => error
                               end))
     end.
Proof.
  cbv zeta. unfold RetryHandler.withRetry.
  pose proof (withRetryLoop_spec maxRetries 0) as (Hcalls & Hall & Hres).
  split; [lia|]. split; [intros k Hk; apply Hall; lia|]. done.
Qed.

End WithRetryFacts.

Section BreakerFacts.
Variable threshold : nat.
Variable timeout : Z.

Lemma breaker_invariant (events : list CircuitBreaker.Event) :
  0 < threshold ->
  let b := foldl (CircuitBreaker.step threshold timeout)
                 CircuitBreaker.initial events in
  failures b = failuresSinceSuccess events
  /\ (state b = CLOSED <-> failures b < threshold).
Proof.
  intros Hpos. cbv zeta. unfold failuresSinceSuccess.
  induction events as [|e events IH] using rev_ind; [done|].
  rewrite !foldl_app. cbn [foldl].
  destruct IH as [<- Hclosed].
  set (b := foldl _ CircuitBreaker.initial events) in *.
  destruct e as [now| |now]; cbn.
  - unfold CircuitBreaker.enter. destruct (state b) eqn:Hst; cbn.
    + by rewrite Hst.
    + destruct (_ <? _)%Z; cbn; [|by rewrite Hst]. split; [done|].
      split; [done|]. intros Hlt. apply Hclosed in Hlt. congruence.
    + by rewrite Hst.
  - split; [done|]. split; [lia|done].
  - split; [done|]. destruct (threshold <=? failures b + 1) eqn:Hle.
    + apply Nat.leb_le in Hle. split; [done|lia].
    + apply Nat.leb_gt in Hle. split; [lia|]. intros _. apply Hclosed. lia.
Qed.

(** X30.  A circuit breaker counts the failures since the last success,
    and is [CLOSED] exactly while that count is below the threshold.
    [execute] refuses to call the operation only when at least
    [threshold] failures have occurred since the last success and the
    last one is at most [timeout] old; it then leaves the breaker as it
    is. *)
Theorem breaker_refuses_only_after_threshold {A : Type}
    (events : list CircuitBreaker.Event) (now later : Z) (operation : Failure + A) :
  0 < threshold ->
  let b := foldl (CircuitBreaker.step threshold timeout)
                 CircuitBreaker.initial events in
  let run := CircuitBreaker.execute threshold timeout now later operation b in
  failures b = failuresSinceSuccess events
  /\ (state b = CLOSED <-> failuresSinceSuccess events < threshold)
  /\ (run.1.2 = false ->
        threshold <= failuresSinceSuccess events
        /\ (now - lastFailureTime b <= timeout)%Z
        /\ run.2 = b)
  /\ (failuresSinceSuccess events < threshold -> run.1.2 = true).
Proof.
  intros Hpos. cbv zeta.
  destruct (breaker_invariant events Hpos) as [Hcount Hclosed].
  set (b := foldl _ CircuitBreaker.initial events) in *.
  rewrite <- Hcount. split; [done|]. split; [done|].
  unfold CircuitBreaker.execute, CircuitBreaker.enter.
  destruct (state b) eqn:Hst.
  - split; [by destruct operation|]. by destruct operation.
  - destruct (timeout <? now - lastFailureTime b)%Z eqn:Hlt.
    + split; by destruct operation.
    + apply Z.ltb_ge in Hlt. cbn. split.
      * intros _. split; [|done].
        destruct (decide (failures b < threshold)) as [Hf|]; [|lia].
        apply Hclosed in Hf. congruence.
      * intros Hf. apply Hclosed in Hf. congruence.
  - split; by destruct operation.
Qed.

End BreakerFacts.


(** After five failures the breaker with the default settings refuses a
    call made within a minute of the last one. *)
Lemma breaker_refuses_only_after_threshold_witness :
  let b := foldl (CircuitBreaker.step BreakerExample.threshold
                    BreakerExample.timeout)
                 CircuitBreaker.initial BreakerExample.events in
  let run := CircuitBreaker.execute BreakerExample.threshold
               BreakerExample.timeout 100 110 (inr 7 : Failure + nat) b in
  failures b = failuresSinceSuccess BreakerExample.events
  /\ (state b = CLOSED
      <-> failuresSinceSuccess BreakerExample.events < BreakerExample.threshold)
  /\ (run.1.2 = false ->
        BreakerExample.threshold <= failuresSinceSuccess BreakerExample.events
        /\ (100 - lastFailureTime b <= BreakerExample.timeout)%Z
        /\ run.2 = b)
  /\ (failuresSinceSuccess BreakerExample.events < BreakerExample.threshold ->
      run.1.2 = true).
Proof.
  apply (breaker_refuses_only_after_threshold BreakerExample.threshold
           BreakerExample.timeout BreakerExample.events 100 110
           (inr 7 : Failure + nat)).
  unfold BreakerExample.threshold. lia.
Defined.
